(** * Connect 4: a shallow embedding of [connect4.py]

    The game engine of [connect4.py] is embedded class by class:
    [Coin], [Player] (the per-player adjacency bookkeeping and the win
    check), [Board] (the column drop) and [Connect4] (the event loop),
    together with the start-up guard of the [__main__] block.

    Conventions of the embedding.
    - Python integers are [Z]; tuples [(col, row)] are pairs of [Z].
    - A [dict] is an association list in insertion order (the order in which
      Python iterates over it); assignment to an existing key keeps its place.
    - Exceptions are results of a small error monad; a [while] loop is run
      with a bound on the number of times its condition is evaluated, and
      running out of that bound is the separate result [Timeout].
    - Rendering ([_update_board]) draws on the pygame surface only and is left
      out; [print] is kept as the list of printed lines. *)

From Stdlib Require Import ZArith String List Bool Lia.
From Stdlib Require Finite.
Import ListNotations.
Open Scope Z_scope.

(* ================================================================== *)
(** ** Results, exceptions and loops *)

Inductive exn : Type :=
| KeyError (key : Z * Z)
| IndexError
| InvalidValueError (message : string).

Inductive res (A : Type) : Type :=
| Ret (a : A)
| Raise (e : exn)
| Timeout.

Arguments Ret {A} a.
Arguments Raise {A} e.
Arguments Timeout {A}.

Definition bind {A B : Type} (m : res A) (k : A -> res B) : res B :=
  match m with
  | Ret a => k a
  | Raise e => Raise e
  | Timeout => Timeout
  end.

Notation "x <- m ;; k" := (bind m (fun x => k))
  (at level 61, m at next level, right associativity).
Notation "' p <- m ;; k" := (bind m (fun x => match x with p => k end))
  (at level 61, p pattern, m at next level, right associativity).

(** [while fuel cond body s]: the loop [while cond: body] started in state
    [s]; every evaluation of the condition uses one unit of [fuel]. *)
Fixpoint while {S : Type} (fuel : nat) (cond : S -> res bool)
    (body : S -> res S) (s : S) : res S :=
  match fuel with
  | O => Timeout
  | Datatypes.S fuel' =>
      b <- cond s ;;
      if b then s' <- body s ;; while fuel' cond body s' else Ret s
  end.

(** Python's [l[i]]: a negative index counts from the end of the list. *)
Definition py_index {A : Type} (l : list A) (i : Z) : res A :=
  let n := Z.of_nat (length l) in
  let j := if i <? 0 then n + i else i in
  if (0 <=? j) && (j <? n) then
    match nth_error l (Z.to_nat j) with
    | Some a => Ret a
    | None => Raise IndexError
    end
  else Raise IndexError.

(* ================================================================== *)
(** ** Dictionaries keyed by [(col, row)] tuples *)

Definition coord : Type := Z * Z.

Definition coord_eqb (a b : coord) : bool :=
  (fst a =? fst b) && (snd a =? snd b).

Definition dict (V : Type) : Type := list (coord * V).

Definition dict_keys {V : Type} (d : dict V) : list coord := map fst d.

Fixpoint dict_get {V : Type} (d : dict V) (k : coord) : option V :=
  match d with
  | [] => None
  | (k', v) :: d' => if coord_eqb k' k then Some v else dict_get d' k
  end.

(** [d[k] = v] *)
Fixpoint dict_set {V : Type} (d : dict V) (k : coord) (v : V) : dict V :=
  match d with
  | [] => [(k, v)]
  | (k', v') :: d' =>
      if coord_eqb k' k then (k', v) :: d' else (k', v') :: dict_set d' k v
  end.

(** [d[k]] as an expression *)
Definition getitem {V : Type} (d : dict V) (k : coord) : res V :=
  match dict_get d k with
  | Some v => Ret v
  | None => Raise (KeyError k)
  end.

(** [x in l] for a list of tuples *)
Definition contains (l : list coord) (x : coord) : bool :=
  existsb (coord_eqb x) l.

(* ================================================================== *)
(** ** Module constants *)

(** An RGB colour, as in the values of [COLOURS]. *)
Definition rgb : Type := (Z * Z * Z)%type.

Definition COLOURS : list (string * rgb) :=
  [("red"%string, (255, 0, 0));
   ("orange"%string, (240, 127, 14));
   ("yellow"%string, (255, 255, 0));
   ("lime"%string, (0, 255, 0));
   ("green"%string, (10, 87, 10));
   ("blue"%string, (2, 145, 247));
   ("indigo"%string, (33, 11, 133));
   ("purple"%string, (82, 1, 143));
   ("magenta"%string, (117, 1, 117));
   ("white"%string, (255, 255, 255))].

Definition GRAY : rgb := (128, 128, 128).
Definition BLACK : rgb := (0, 0, 0).

(* ================================================================== *)
(** ** class Coin *)

Module Coin.

Record t : Type := mk {
  row : Z;
  col : Z;
  x_pos : Z;
  y_pos : Z;
  colour : rgb;
  placed : bool
}.

(** [Coin.__init__] *)
Definition init (row column x y : Z) : t :=
  mk row column x y GRAY false.

(** [Coin.place] *)
Definition place (self : t) (colour : rgb) : t :=
  mk (row self) (col self) (x_pos self) (y_pos self) colour true.

(** The key under which a player records the coin: [(coin.col, coin.row)]. *)
Definition cell (self : t) : coord := (col self, row self).

End Coin.

(* ================================================================== *)
(** ** class Player *)

Module Player.

Record t : Type := mk {
  name : string;
  colour : rgb;
  _moves : dict (list coord)
}.

(** [Player.__init__] with the colour already looked up in [COLOURS]. *)
Definition init (player_name : string) (c : rgb) : t :=
  mk player_name c [].

(** [v in (c - 1, c, c + 1)] *)
Definition in_triple (v c : Z) : bool :=
  (v =? c - 1) || (v =? c) || (v =? c + 1).

(** The test of the loop of [place_coin] for the key [(x, y)]. *)
Definition near (c k : coord) : bool :=
  in_triple (fst k) (fst c) && in_triple (snd k) (snd c).

(** [self._moves[k].append(c)] *)
Definition append_at (m : dict (list coord)) (k c : coord) : dict (list coord) :=
  match dict_get m k with
  | Some l => dict_set m k (l ++ [c])
  | None => m
  end.

(** One iteration of [for x, y in self._moves] in [place_coin]; the state is
    the mapping and [coin_moves]. *)
Definition place_coin_step (c : coord)
    (st : dict (list coord) * list coord) (k : coord)
  : dict (list coord) * list coord :=
  if near c k then (append_at (fst st) k c, snd st ++ [k]) else st.

(** [Player.place_coin] on the mapping alone. *)
Definition record_move (m : dict (list coord)) (c : coord) : dict (list coord) :=
  let st := fold_left (place_coin_step c) (dict_keys m) (m, []) in
  dict_set (fst st) c (snd st).

(** [Player.place_coin] *)
Definition place_coin (self : t) (coin : Coin.t) : t :=
  mk (name self) (colour self) (record_move (_moves self) (Coin.cell coin)).

(** The condition and the body of the two [while] loops of [has_win]; the
    loop state is [(length, move)] and [d] is the offset that is added. *)
Definition walk_cond (m : dict (list coord)) (d : coord) (s : Z * coord)
  : res bool :=
  let move := snd s in
  l <- getitem m move ;;
  Ret (contains l (fst move + fst d, snd move + snd d)).

Definition walk_body (d : coord) (s : Z * coord) : res (Z * coord) :=
  let move := snd s in
  Ret (fst s + 1, (fst move + fst d, snd move + snd d)).

(** The value of [length] at the test [length >= 53], for the queried
    coordinate [c] and the connected move [n] of the current iteration. *)
Definition line_length (fuel : nat) (m : dict (list coord)) (c n : coord)
  : res Z :=
  let x_diff := fst n - fst c in
  let y_diff := snd n - snd c in
  s1 <- while fuel (walk_cond m (x_diff, y_diff))
                   (walk_body (x_diff, y_diff)) (2, n) ;;
  s2 <- while fuel (walk_cond m (- x_diff, - y_diff))
                   (walk_body (- x_diff, - y_diff)) (fst s1, c) ;;
  Ret (fst s2).

(** [for x, y in connected_moves: ...] with its early [return True]. *)
Fixpoint has_win_loop (fuel : nat) (m : dict (list coord)) (c : coord)
    (connected_moves : list coord) : res bool :=
  match connected_moves with
  | [] => Ret false
  | n :: rest =>
      length <- line_length fuel m c n ;;
      if length >=? 53 then Ret true else has_win_loop fuel m c rest
  end.

(** [Player.has_win] *)
Definition has_win (fuel : nat) (self : t) (coin : Coin.t) : res bool :=
  let c := Coin.cell coin in
  connected_moves <- getitem (_moves self) c ;;
  has_win_loop fuel (_moves self) c connected_moves.

End Player.

(* ================================================================== *)
(** ** The constants [COIN_RADIUS], [ROWS] and [COLUMNS]

    The module fixes them to 50, 6 and 7 and invites the reader to edit
    them; the [__main__] block checks them before anything else.  The
    embedding is therefore stated for any choice of the three values. *)

Class Constants : Type := {
  COIN_RADIUS : Z;
  ROWS : Z;
  COLUMNS : Z
}.

(** The values written in the module: [COIN_RADIUS = 50] and
    [ROWS, COLUMNS = 6, 7]. *)
Definition classic : Constants :=
  {| COIN_RADIUS := 50; ROWS := 6; COLUMNS := 7 |}.

(** [range(n)] as the list it iterates over. *)
Definition py_range (n : Z) : list Z :=
  map Z.of_nat (seq 0 (Z.to_nat n)).

(** [l[i] = v] on a list, with Python's index convention; out of range the
    list is returned as it is (the source only assigns through an index it
    has just read). *)
Definition py_update {A : Type} (l : list A) (i : Z) (v : A) : list A :=
  let n := Z.of_nat (length l) in
  let j := if i <? 0 then n + i else i in
  if (0 <=? j) && (j <? n) then
    firstn (Z.to_nat j) l ++ v :: skipn (S (Z.to_nat j)) l
  else l.

(* ================================================================== *)
(** ** class Board *)

Module Board.

Record t : Type := mk {
  coins : list (list Coin.t);
  col_ranges : list (Z * Z)      (* [range(start, stop)] *)
}.

(** [x in range(start, stop)] *)
Definition in_range (x : Z) (r : Z * Z) : bool :=
  (fst r <=? x) && (x <? snd r).

Section WithConstants.
Context {K : Constants}.

(** [Board.__init__] *)
Definition init : t :=
  let square := (COIN_RADIUS + 1) * 2 in
  mk (map (fun col =>
             let x := (col + 1) * square + square / 2 in
             map (fun row =>
                    let y := (row + 1) * square + square / 2 in
                    Coin.init row col x y)
                 (py_range ROWS))
          (py_range COLUMNS))
     (map (fun col => ((col + 1) * square, (col + 2) * square))
          (py_range COLUMNS)).

(** [while col < COLUMNS and pos[0] not in self.col_ranges[col]] *)
Definition column_cond (self : t) (pos : Z * Z) (col : Z) : res bool :=
  if col <? COLUMNS then
    r <- py_index (col_ranges self) col ;;
    Ret (negb (in_range (fst pos) r))
  else Ret false.

(** [while row > -1 and coin.placed], on the state [(row, coin)] *)
Definition row_cond (s : Z * Coin.t) : res bool :=
  Ret ((fst s >? -1) && Coin.placed (snd s)).

Definition row_body (column : list Coin.t) (s : Z * Coin.t)
  : res (Z * Coin.t) :=
  let row := fst s - 1 in
  coin <- py_index column row ;;
  Ret (row, coin).

(** The coin object [self.coins[col][row]] is replaced by its new state. *)
Definition store_coin (self : t) (col row : Z) (coin : Coin.t) : t :=
  match py_index (coins self) col with
  | Ret column =>
      mk (py_update (coins self) col (py_update column row coin))
         (col_ranges self)
  | _ => self
  end.

(** [Board.place_coin]: the returned coin (if any), and the board and the
    player as the call leaves them. *)
Definition place_coin (fuel : nat) (self : t) (player : Player.t)
    (pos : Z * Z) : res (option Coin.t * t * Player.t) :=
  col <- while fuel (column_cond self pos) (fun col => Ret (col + 1)) 0 ;;
  if col =? COLUMNS then Ret (None, self, player)
  else
    column <- py_index (coins self) col ;;
    let row := ROWS - 1 in
    coin <- py_index column row ;;
    s <- while fuel row_cond (row_body column) (row, coin) ;;
    let row := fst s in
    let coin := snd s in
    if row =? -1 then Ret (None, self, player)
    else
      let coin := Coin.place coin (Player.colour player) in
      Ret (Some coin, store_coin self col row coin,
           Player.place_coin player coin).

End WithConstants.
End Board.

(* ================================================================== *)
(** ** class Connect4 *)

Module Connect4.

(** The attributes of the game; the pygame screen is left out. *)
Record t : Type := mk {
  board : Board.t;
  players : Player.t * Player.t
}.

(** The game together with the local variables of [_event_loop].
    [cur_player] starts as [0] and is then [not cur_player]: a boolean that
    indexes the tuple [players]. *)
Record state : Type := mkState {
  game : t;
  cur_player : bool;
  moves_made : Z
}.

(** The events [_event_loop] tells apart. *)
Inductive event : Type :=
| QUIT
| MOUSEBUTTONUP (pos : Z * Z)
| OTHER.

(** How one iteration of [while True] ends. *)
Inductive step : Type :=
| Continue (st : state) (printed : list string)
| Break (end_message : string) (st : state).

(** What [_event_loop] has done once the given events are consumed. *)
Inductive run : Type :=
| Polling (st : state) (printed : list string)
| Finished (end_message : string) (st : state) (printed : list string).

(** [self.players[cur_player]] *)
Definition current (self : t) (cur_player : bool) : Player.t :=
  if cur_player then snd (players self) else fst (players self).

(** The player object [self.players[cur_player]] is replaced by its new
    state. *)
Definition store_player (ps : Player.t * Player.t) (cur_player : bool)
    (p : Player.t) : Player.t * Player.t :=
  if cur_player then (fst ps, p) else (p, snd ps).

Definition closed_message : string := "The game has been closed!".
Definition wins_message (player : Player.t) : string :=
  "Player " ++ Player.name player ++ " wins the game!".
Definition tie_message : string := "The game ends in a tragic tie!".
Definition invalid_column_message : string :=
  "Please place your coin in a valid column!".

Section WithConstants.
Context {K : Constants}.

(** [Connect4.__init__] for a new board and two new players. *)
Definition init (b : Board.t) (ps : Player.t * Player.t) : t := mk b ps.

(** One iteration of the [while True] loop of [_event_loop], for the event
    that [pygame.event.poll()] returned. *)
Definition loop_body (fuel : nat) (st : state) (ev : event) : res step :=
  let player := current (game st) (cur_player st) in
  match ev with
  | QUIT => Ret (Break closed_message st)
  | MOUSEBUTTONUP pos =>
      r <- Board.place_coin fuel (board (game st)) player pos ;;
      let '(coin, b, player) := r in
      match coin with
      | Some coin =>
          let g := mk b (store_player (players (game st)) (cur_player st)
                                      player) in
          won <- Player.has_win fuel player coin ;;
          if won then
            Ret (Break (wins_message player)
                       (mkState g (cur_player st) (moves_made st)))
          else
            let moves_made := moves_made st + 1 in
            if moves_made =? COLUMNS * ROWS then
              Ret (Break tie_message (mkState g (cur_player st) moves_made))
            else
              Ret (Continue (mkState g (negb (cur_player st)) moves_made) [])
      | None => Ret (Continue st [invalid_column_message])
      end
  | OTHER => Ret (Continue st [])
  end.

(** The loop over the events polled so far; after the loop,
    [print(end_message)]. *)
Fixpoint event_loop_from (fuel : nat) (events : list event) (st : state)
    (printed : list string) : res run :=
  match events with
  | [] => Ret (Polling st printed)
  | ev :: rest =>
      r <- loop_body fuel st ev ;;
      match r with
      | Continue st' out => event_loop_from fuel rest st' (printed ++ out)
      | Break end_message st' =>
          Ret (Finished end_message st' (printed ++ [end_message]))
      end
  end.

(** [Connect4._event_loop] *)
Definition _event_loop (fuel : nat) (self : t) (events : list event)
  : res run :=
  event_loop_from fuel events (mkState self false 0) [].

(** [Connect4.play] *)
Definition play (fuel : nat) (self : t) (events : list event) : res run :=
  _event_loop fuel self events.

End WithConstants.
End Connect4.

(* ================================================================== *)
(** ** class InvalidValueError and the [__main__] block *)

Definition radius_message : string :=
  "Please enter a value for the coin radius that is greater than 0. ".
Definition rows_message : string :=
  "Please enter a value for the number of rows that is greater than 0. ".
Definition columns_message : string :=
  "Please enter a value for the number of columns that is greater than 0. ".

(** [InvalidValueError.__init__]: the message of the exception. *)
Definition InvalidValueError_init (radius rows cols : Z) : exn :=
  let message := EmptyString in
  let message :=
    if radius <=? 0 then (message ++ radius_message)%string else message in
  let message :=
    if rows <=? 0 then (message ++ rows_message)%string else message in
  let message :=
    if cols <=? 0 then (message ++ columns_message)%string else message in
  InvalidValueError message.

Section Main.
Context {K : Constants}.

(** The guard at the top of the [__main__] block. *)
Definition check_values : res unit :=
  if negb ((COIN_RADIUS >? 0) && (ROWS >? 0) && (COLUMNS >? 0)) then
    Raise (InvalidValueError_init COIN_RADIUS ROWS COLUMNS)
  else Ret tt.

(** The [__main__] block, for the two players that [get_player] returns and
    the events polled during the game. *)
Definition main (fuel : nat) (game_players : Player.t * Player.t)
    (events : list Connect4.event) : res Connect4.run :=
  _ <- check_values ;;
  let game_board := Board.init in
  let game := Connect4.init game_board game_players in
  Connect4.play fuel game events.

End Main.

(* ================================================================== *)
(** ** The screen size, [Player.__init__] with its colour name, and
       [get_player]

    The console is a list of input lines; the prompts that [input] writes
    are left out.  [input] on an exhausted console raises [EOFError], and
    [COLOURS[colour]] raises [KeyError] for a name that is no key: both end
    the program before a game exists, and are kept apart from the
    exceptions of the game. *)

Section Screen.
Context {K : Constants}.

Definition WIDTH : Z := (COIN_RADIUS + 1) * (COLUMNS + 2) * 2.
Definition HEIGHT : Z := (COIN_RADIUS + 1) * (ROWS + 2) * 2.

End Screen.

Inductive setup_exn : Type :=
| EOFError
| ColourKeyError (colour : string).

Inductive setup (A : Type) : Type :=
| Done (a : A)
| Failed (e : setup_exn).

Arguments Done {A} a.
Arguments Failed {A} e.

(** [COLOURS[colour]] *)
Fixpoint colours_get (table : list (string * rgb)) (colour : string)
  : option rgb :=
  match table with
  | [] => None
  | (name, c) :: table' =>
      if String.eqb name colour then Some c else colours_get table' colour
  end.

(** [Player(player_name, colour)] for a colour name. *)
Definition new_player (player_name colour : string) : setup Player.t :=
  match colours_get COLOURS colour with
  | Some c => Done (Player.init player_name c)
  | None => Failed (ColourKeyError colour)
  end.

(** [colour in colours] *)
Definition colour_in (colour : string) (colours : list string) : bool :=
  existsb (String.eqb colour) colours.

(** [colours.remove(colour)]: the first occurrence goes; the call is only
    made for a colour that is in the list. *)
Fixpoint list_remove (colour : string) (colours : list string) : list string :=
  match colours with
  | [] => []
  | c :: colours' =>
      if String.eqb colour c then colours' else c :: list_remove colour colours'
  end.

(** [while colour not in colours: colour = input(...)]: every iteration reads
    one line of the console. *)
Fixpoint ask_colour (colours : list string) (colour : string)
    (stdin : list string) : setup (string * list string) :=
  if colour_in colour colours then Done (colour, stdin)
  else
    match stdin with
    | [] => Failed EOFError
    | line :: rest => ask_colour colours line rest
    end.

(** [get_player]: the player, the list [colours] as the call leaves it, and
    the rest of the console. *)
Definition get_player (id_num : Z) (colours : list string)
    (stdin : list string) : setup (Player.t * list string * list string) :=
  match stdin with
  | [] => Failed EOFError
  | name :: stdin1 =>
      match stdin1 with
      | [] => Failed EOFError
      | colour :: stdin2 =>
          match ask_colour colours colour stdin2 with
          | Failed e => Failed e
          | Done (colour, stdin3) =>
              let colours' := list_remove colour colours in
              match new_player name colour with
              | Failed e => Failed e
              | Done player => Done (player, colours', stdin3)
              end
          end
      end
  end.

(** How the [__main__] block ends: before a game exists, or with what the
    game did. *)
Inductive program_result : Type :=
| SetupFailed (e : setup_exn)
| Played (r : res Connect4.run).

Section Program.
Context {K : Constants}.

(** The [__main__] block with its two calls of [get_player]. *)
Definition program (fuel : nat) (stdin : list string)
    (events : list Connect4.event) : program_result :=
  match check_values with
  | Ret _ =>
      let available_colours := map fst COLOURS in
      match get_player 1 available_colours stdin with
      | Failed e => SetupFailed e
      | Done (player1, colours1, stdin1) =>
          match get_player 2 colours1 stdin1 with
          | Failed e => SetupFailed e
          | Done (player2, _, _) =>
              let game_players := (player1, player2) in
              let game_board := Board.init in
              let game := Connect4.init game_board game_players in
              Played (Connect4.play fuel game events)
          end
      end
  | Raise e => Played (Raise e)
  | Timeout => Played Timeout
  end.

End Program.

(* ================================================================== *)
(** ** [Connect4._update_board] and what [play] draws

    The calls to [pygame.draw] and [pygame.display.flip] are kept as the
    list of calls made, in order. *)

Inductive draw : Type :=
| DrawRect (colour : rgb) (rect : Z * Z * Z * Z)
| DrawCircle (colour : rgb) (centre : Z * Z) (radius : Z)
| DisplayFlip.

Section Rendering.
Context {K : Constants}.

(** The circle [_update_board] draws for a coin. *)
Definition coin_circle (coin : Coin.t) : draw :=
  DrawCircle (Coin.colour coin) (Coin.x_pos coin, Coin.y_pos coin) COIN_RADIUS.

(** [Connect4._update_board]; [size] is the width and the height of the
    screen at the time of the call. *)
Definition _update_board (self : Connect4.t) (coin : option Coin.t)
    (size : Z * Z) : list draw :=
  match coin with
  | Some coin => [coin_circle coin]
  | None =>
      DrawRect BLACK (0, 0, fst size, snd size)
      :: flat_map (fun col => map coin_circle col)
                  (Board.coins (Connect4.board self))
  end ++ [DisplayFlip].

(** What one iteration of the loop of [_event_loop] draws: after a coin has
    been placed, [self._update_board(coin)]. *)
Definition step_draws (fuel : nat) (st : Connect4.state)
    (ev : Connect4.event) (size : Z * Z) : list draw :=
  match ev with
  | Connect4.MOUSEBUTTONUP pos =>
      match Board.place_coin fuel (Connect4.board (Connect4.game st))
              (Connect4.current (Connect4.game st) (Connect4.cur_player st))
              pos with
      | Ret (Some coin, b, player) =>
          _update_board
            (Connect4.mk b
               (Connect4.store_player (Connect4.players (Connect4.game st))
                  (Connect4.cur_player st) player))
            (Some coin) size
      | _ => []
      end
  | _ => []
  end.

(** What [_event_loop] draws while it consumes the given events. *)
Fixpoint loop_draws (fuel : nat) (events : list Connect4.event)
    (st : Connect4.state) (size : Z * Z) : list draw :=
  match events with
  | [] => []
  | ev :: rest =>
      step_draws fuel st ev size ++
      match Connect4.loop_body fuel st ev with
      | Ret (Connect4.Continue st' _) => loop_draws fuel rest st' size
      | _ => []
      end
  end.

(** What [Connect4.play] draws: the whole board, then the coins as they are
    placed. *)
Definition play_draws (fuel : nat) (self : Connect4.t)
    (events : list Connect4.event) (size : Z * Z) : list draw :=
  _update_board self None size ++
  loop_draws fuel events (Connect4.mkState self false 0) size.

End Rendering.

(* ================================================================== *)
(** * Vocabulary of the statements *)

(** ** Players *)

(** Chebyshev distance at most 1: the 8-neighbourhood of a cell, and the
    cell itself. *)
Definition within1 (a b : coord) : bool :=
  (Z.abs (fst a - fst b) <=? 1) && (Z.abs (snd a - snd b) <=? 1).

(** The cell [j] steps of offset [d] away from [p]. *)
Definition shift (p d : coord) (j : Z) : coord :=
  (fst p + j * fst d, snd p + j * snd d).

(** A non-zero offset with both components in [{-1, 0, 1}]: a unit step
    along one of the four axes. *)
Definition unit_step (d : coord) : Prop :=
  Z.abs (fst d) <= 1 /\ Z.abs (snd d) <= 1 /\ d <> (0, 0).

(** [ray cells p d a]: going from [p] in direction [d], exactly the first [a]
    cells are in [cells]. *)
Definition ray (cells : list coord) (p d : coord) (a : nat) : Prop :=
  (forall j : nat, (1 <= j <= a)%nat -> In (shift p d (Z.of_nat j)) cells) /\
  ~ In (shift p d (Z.of_nat (S a))) cells.

(** Every recorded neighbour is itself recorded. *)
Definition keys_closed (m : dict (list coord)) : Prop :=
  forall k l x, dict_get m k = Some l -> In x l -> In x (dict_keys m).

(** The lists are exactly the adjacency relation of the recorded cells. *)
Definition adjacency_exact (m : dict (list coord)) : Prop :=
  forall k l, dict_get m k = Some l ->
    forall x, In x l <-> (In x (dict_keys m) /\ x <> k /\ within1 k x = true).

(** A decision procedure for [NoDup] on cells. *)
Fixpoint distinctb (l : list coord) : bool :=
  match l with
  | [] => true
  | x :: l' => negb (contains l' x) && distinctb l'
  end.

(** The player after [place_coin] has been called for each coin in turn. *)
Definition played (self : Player.t) (coins : list Coin.t) : Player.t :=
  fold_left Player.place_coin coins self.

(** A coin at the cell [c = (col, row)], as [Coin.__init__] creates it and
    [Coin.place] marks it in red; only its row and column matter to a
    player. *)
Definition coin_at (c : coord) : Coin.t :=
  Coin.place (Coin.init (snd c) (fst c) 0 0) (255, 0, 0).

(** The loop of [place_coin], seen on the mapping alone. *)
Definition appended (c : coord) (m : dict (list coord)) (k : coord)
  : dict (list coord) :=
  if Player.near c k then Player.append_at m k c else m.

(** ** Boards *)

Section BoardVocabulary.
Context {K : Constants}.

(** Enough loop bound for the two scans of [Board.place_coin]. *)
Definition scan_bound : nat := S (Z.to_nat (Z.max ROWS COLUMNS)).

(** The coin [self.coins[col][row]], for indices from 0. *)
Definition coin_of (b : Board.t) (col row : Z) : option Coin.t :=
  match nth_error (Board.coins b) (Z.to_nat col) with
  | Some column => nth_error column (Z.to_nat row)
  | None => None
  end.

(** Whether the cell at [(col, row)] holds a placed coin. *)
Definition placed_at (b : Board.t) (col row : Z) : bool :=
  match coin_of b col row with
  | Some coin => Coin.placed coin
  | None => false
  end.

(** The representation invariants of [Board]: [COLUMNS] lists of [ROWS]
    coins, [COLUMNS] ranges, and every coin knows its own row and column. *)
Definition board_wf (b : Board.t) : Prop :=
  Z.of_nat (length (Board.coins b)) = COLUMNS /\
  Z.of_nat (length (Board.col_ranges b)) = COLUMNS /\
  (forall column, In column (Board.coins b) ->
     Z.of_nat (length column) = ROWS) /\
  (forall col row coin, 0 <= col -> 0 <= row ->
     coin_of b col row = Some coin ->
     Coin.col coin = col /\ Coin.row coin = row).

(** [pos] lies in the pixel range of column [col] and of no column before
    it. *)
Definition selects (b : Board.t) (pos : Z * Z) (col : Z) : Prop :=
  0 <= col < COLUMNS /\
  (exists r, nth_error (Board.col_ranges b) (Z.to_nat col) = Some r /\
             Board.in_range (fst pos) r = true) /\
  (forall col' r, 0 <= col' < col ->
     nth_error (Board.col_ranges b) (Z.to_nat col') = Some r ->
     Board.in_range (fst pos) r = false).

(** [pos] lies in the pixel range of no column. *)
Definition selects_nothing (b : Board.t) (pos : Z * Z) : Prop :=
  forall col r, 0 <= col < COLUMNS ->
    nth_error (Board.col_ranges b) (Z.to_nat col) = Some r ->
    Board.in_range (fst pos) r = false.

Definition column_full (b : Board.t) (col : Z) : Prop :=
  forall row, 0 <= row < ROWS -> placed_at b col row = true.

(** The lowest unoccupied cell of a column: the greatest row index whose
    cell is not placed. *)
Definition lowest_empty (b : Board.t) (col row : Z) : Prop :=
  0 <= row < ROWS /\ placed_at b col row = false /\
  forall row', row < row' < ROWS -> placed_at b col row' = true.

(** The occupied cells of column [col] are exactly its [h] bottom rows. *)
Definition height (b : Board.t) (col : Z) (h : Z) : Prop :=
  0 <= h <= ROWS /\
  forall row, 0 <= row < ROWS ->
    (placed_at b col row = true <-> ROWS - h <= row).

(** Gravity: in every column the occupied cells form a contiguous block that
    starts at row [ROWS - 1] and grows upward. *)
Definition gravity (b : Board.t) : Prop :=
  forall col, 0 <= col < COLUMNS -> exists h, height b col h.

(** [place_coin] at the same position for each of the given players in
    turn; the coins returned, and the board at the end. *)
Fixpoint drop_all (fuel : nat) (b : Board.t) (turns : list Player.t)
    (pos : Z * Z) : res (list (option Coin.t) * Board.t) :=
  match turns with
  | [] => Ret ([], b)
  | player :: rest =>
      r <- Board.place_coin fuel b player pos ;;
      r' <- drop_all fuel (snd (fst r)) rest pos ;;
      Ret (fst (fst r) :: fst r', snd r')
  end.

(** The number of placed coins of a column and of a board. *)
Definition placed_count (column : list Coin.t) : nat :=
  length (filter Coin.placed column).

Definition count_placed (b : Board.t) : Z :=
  Z.of_nat (list_sum (map placed_count (Board.coins b))).

(** Every cell of the board is occupied. *)
Definition board_full (b : Board.t) : Prop :=
  forall col, 0 <= col < COLUMNS -> column_full b col.

End BoardVocabulary.

(** ** Games *)

(** The board is well formed and the loop has counted its placed coins. *)
Definition counted {K : Constants} (st : Connect4.state) : Prop :=
  board_wf (Connect4.board (Connect4.game st)) /\
  count_placed (Connect4.board (Connect4.game st)) = Connect4.moves_made st.

(** A click in the pixel range of column [col] of the board that
    [Board.__init__] creates. *)
Definition click {K : Constants} (col : Z) : Connect4.event :=
  Connect4.MOUSEBUTTONUP ((col + 1) * ((COIN_RADIUS + 1) * 2), 0).

(** The clicks that fill the board of [Board.__init__] column by column. *)
Definition column_by_column {K : Constants} : list Connect4.event :=
  flat_map (fun col => repeat (click col) (Z.to_nat ROWS)) (py_range COLUMNS).

(** ** Start-up *)

(** Whether [needle] occurs in [message]. *)
Definition mentions (needle message : string) : bool :=
  match String.index 0 needle message with
  | Some _ => true
  | None => false
  end.

(** ** Games in progress *)

(** The cells a player has recorded. *)
Definition recorded (p : Player.t) : list coord :=
  dict_keys (Player._moves p).

(** No list of the mapping holds a coordinate twice. *)
Definition lists_distinct (m : dict (list coord)) : Prop :=
  forall k l, dict_get m k = Some l -> NoDup l.

(** The mapping of a player is a dictionary whose lists are, without
    repetition, the adjacency relation of the recorded cells. *)
Definition tracker_ok (p : Player.t) : Prop :=
  NoDup (recorded p) /\ adjacency_exact (Player._moves p) /\
  lists_distinct (Player._moves p).

(** The eight coordinates around a cell. *)
Definition around (k : coord) : list coord :=
  [(fst k - 1, snd k - 1); (fst k - 1, snd k); (fst k - 1, snd k + 1);
   (fst k, snd k - 1); (fst k, snd k + 1);
   (fst k + 1, snd k - 1); (fst k + 1, snd k); (fst k + 1, snd k + 1)].

Section GameVocabulary.
Context {K : Constants}.

(** Enough loop bound for every loop of a game. *)
Definition game_bound : nat := S (Z.to_nat (COLUMNS * ROWS)).

(** Every cell the player has recorded is a cell of the board and holds a
    placed coin of the player's colour. *)
Definition owns (b : Board.t) (p : Player.t) : Prop :=
  forall k, In k (recorded p) ->
    0 <= fst k < COLUMNS /\ 0 <= snd k < ROWS /\
    exists coin, coin_of b (fst k) (snd k) = Some coin /\
                 Coin.placed coin = true /\
                 Coin.colour coin = Player.colour p.

(** What holds of the board and the two players of a game, whether it is
    still running or over; [seats] are the players the game started with. *)
Record position_ok (seats : Player.t * Player.t) (g : Connect4.t)
  : Prop := {
  pos_wf : board_wf (Connect4.board g);
  pos_gravity : gravity (Connect4.board g);
  pos_ranges :
    Board.col_ranges (Connect4.board g) = Board.col_ranges Board.init;
  pos_centres : forall col row coin, 0 <= col -> 0 <= row ->
    coin_of (Connect4.board g) col row = Some coin ->
    exists coin0, coin_of Board.init col row = Some coin0 /\
                  Coin.x_pos coin = Coin.x_pos coin0 /\
                  Coin.y_pos coin = Coin.y_pos coin0;
  pos_names :
    Player.name (fst (Connect4.players g)) = Player.name (fst seats) /\
    Player.colour (fst (Connect4.players g)) = Player.colour (fst seats) /\
    Player.name (snd (Connect4.players g)) = Player.name (snd seats) /\
    Player.colour (snd (Connect4.players g)) = Player.colour (snd seats);
  pos_tracker1 : tracker_ok (fst (Connect4.players g));
  pos_tracker2 : tracker_ok (snd (Connect4.players g));
  pos_owns1 : owns (Connect4.board g) (fst (Connect4.players g));
  pos_owns2 : owns (Connect4.board g) (snd (Connect4.players g));
  pos_disjoint : forall k,
    In k (recorded (fst (Connect4.players g))) ->
    ~ In k (recorded (snd (Connect4.players g)));
  pos_recorded : forall col row coin, 0 <= col -> 0 <= row ->
    coin_of (Connect4.board g) col row = Some coin ->
    Coin.placed coin = true ->
    In (col, row) (recorded (fst (Connect4.players g))) \/
    In (col, row) (recorded (snd (Connect4.players g)));
  pos_gray : forall col row coin, 0 <= col -> 0 <= row ->
    coin_of (Connect4.board g) col row = Some coin ->
    Coin.placed coin = false -> Coin.colour coin = GRAY;
  pos_count :
    Z.of_nat (length (recorded (fst (Connect4.players g)))
              + length (recorded (snd (Connect4.players g))))
    = count_placed (Connect4.board g)
}.

(** What holds in addition while the loop is polling for the next event. *)
Definition polling_ok (seats : Player.t * Player.t) (st : Connect4.state)
  : Prop :=
  position_ok seats (Connect4.game st) /\
  count_placed (Connect4.board (Connect4.game st)) = Connect4.moves_made st /\
  Connect4.moves_made st < COLUMNS * ROWS /\
  Connect4.cur_player st = Z.odd (Connect4.moves_made st) /\
  length (recorded (fst (Connect4.players (Connect4.game st)))) =
  (length (recorded (snd (Connect4.players (Connect4.game st))))
   + (if Connect4.cur_player st then 1 else 0))%nat.

(** How a game that is over has ended. *)
Definition ending_ok (end_message : string) (st : Connect4.state) : Prop :=
  end_message = Connect4.closed_message \/
  (end_message = Connect4.tie_message /\
   board_full (Connect4.board (Connect4.game st)) /\
   Connect4.moves_made st = COLUMNS * ROWS) \/
  (end_message =
     Connect4.wins_message
       (Connect4.current (Connect4.game st) (Connect4.cur_player st)) /\
   53 <= COLUMNS * ROWS).

(** What holds of the result of a run of the event loop. *)
Definition run_ok (seats : Player.t * Player.t) (r : Connect4.run) : Prop :=
  match r with
  | Connect4.Polling st _ => polling_ok seats st
  | Connect4.Finished end_message st _ =>
      position_ok seats (Connect4.game st) /\ ending_ok end_message st
  end.

End GameVocabulary.

(** The state a run of the event loop has reached. *)
Definition run_state (r : Connect4.run) : Connect4.state :=
  match r with
  | Connect4.Polling st _ => st
  | Connect4.Finished _ st _ => st
  end.

(** The events the loop looks at. *)
Definition noticed (ev : Connect4.event) : bool :=
  match ev with
  | Connect4.OTHER => false
  | _ => true
  end.

(** A [(col, row)] tuple of the board. *)
Definition valid_cell {K : Constants} (k : coord) : Prop :=
  0 <= fst k < COLUMNS /\ 0 <= snd k < ROWS.

(** ** Drawing *)

(** The colour of the last circle drawn with the given centre. *)
Fixpoint last_circle (ds : list draw) (centre : Z * Z) : option rgb :=
  match ds with
  | [] => None
  | d :: ds' =>
      match last_circle ds' centre with
      | Some c => Some c
      | None =>
          match d with
          | DrawCircle c ctr _ => if coord_eqb ctr centre then Some c else None
          | _ => None
          end
      end
  end.

Definition is_circle (d : draw) : bool :=
  match d with
  | DrawCircle _ _ _ => true
  | _ => false
  end.

(** The number of circles drawn. *)
Definition count_circles (ds : list draw) : Z :=
  Z.of_nat (length (filter is_circle ds)).

(** The drawing shows the board: the last circle drawn at the centre of each
    coin has the colour of the coin. *)
Definition shows (ds : list draw) (b : Board.t) : Prop :=
  forall col row coin, 0 <= col -> 0 <= row ->
    coin_of b col row = Some coin ->
    last_circle ds (Coin.x_pos coin, Coin.y_pos coin)
    = Some (Coin.colour coin).

(** The state an iteration of the loop ends in. *)
Definition step_state (s : Connect4.step) : Connect4.state :=
  match s with
  | Connect4.Continue st _ => st
  | Connect4.Break _ st => st
  end.

(* ================================================================== *)
(** * Dictionaries *)

Lemma coord_eqb_eq (a b : coord) : coord_eqb a b = true <-> a = b.
Proof.
  destruct a as [a1 a2], b as [b1 b2]; unfold coord_eqb; simpl.
  rewrite andb_true_iff, !Z.eqb_eq. split.
  - intros [-> ->]; reflexivity.
  - intros H; inversion H; auto.
Qed.

Lemma coord_eqb_refl (a : coord) : coord_eqb a a = true.
Proof. apply coord_eqb_eq; reflexivity. Qed.

Lemma coord_eqb_neq (a b : coord) : coord_eqb a b = false <-> a <> b.
Proof.
  rewrite <- coord_eqb_eq. destruct (coord_eqb a b); split; congruence.
Qed.

Lemma coord_eq_dec (a b : coord) : {a = b} + {a <> b}.
Proof.
  destruct (coord_eqb a b) eqn:E.
  - left; now apply coord_eqb_eq.
  - right; now apply coord_eqb_neq.
Defined.

Lemma contains_In (l : list coord) (x : coord) :
  contains l x = true <-> In x l.
Proof.
  unfold contains. rewrite existsb_exists. split.
  - intros [y [Hy E]]. apply coord_eqb_eq in E. now subst.
  - intros H. exists x. split; [assumption | apply coord_eqb_refl].
Qed.

Lemma distinctb_NoDup (l : list coord) : distinctb l = true -> NoDup l.
Proof.
  induction l as [| x l IH]; simpl; intros H; constructor.
  - apply andb_true_iff in H. destruct H as [H _].
    intros Hin. apply contains_In in Hin. rewrite Hin in H. discriminate.
  - apply IH. apply andb_true_iff in H. tauto.
Qed.

Section DictFacts.
Context {V : Type}.
Implicit Types (d : dict V) (k : coord) (v : V).

Lemma dict_get_In d k v : dict_get d k = Some v -> In k (dict_keys d).
Proof.
  induction d as [| [k' v'] d IH]; simpl; [discriminate |].
  destruct (coord_eqb k' k) eqn:E.
  - apply coord_eqb_eq in E. auto.
  - auto.
Qed.

Lemma dict_get_None d k : dict_get d k = None <-> ~ In k (dict_keys d).
Proof.
  induction d as [| [k' v'] d IH]; simpl.
  - tauto.
  - destruct (coord_eqb k' k) eqn:E.
    + apply coord_eqb_eq in E. split; [discriminate | tauto].
    + apply coord_eqb_neq in E. rewrite IH. tauto.
Qed.

Lemma dict_get_key d k : In k (dict_keys d) -> exists v, dict_get d k = Some v.
Proof.
  intros H. destruct (dict_get d k) eqn:E; [eauto |].
  apply dict_get_None in E. contradiction.
Qed.

Lemma dict_get_set_same d k v : dict_get (dict_set d k v) k = Some v.
Proof.
  induction d as [| [k' v'] d IH]; simpl.
  - now rewrite coord_eqb_refl.
  - destruct (coord_eqb k' k) eqn:E; simpl; now rewrite E.
Qed.

Lemma dict_get_set_other d k k' v :
  k' <> k -> dict_get (dict_set d k v) k' = dict_get d k'.
Proof.
  intros N. induction d as [| [k0 v0] d IH]; simpl.
  - assert (E : coord_eqb k k' = false) by (apply coord_eqb_neq; congruence).
    now rewrite E.
  - destruct (coord_eqb k0 k) eqn:E; simpl.
    + apply coord_eqb_eq in E; subst k0.
      assert (E : coord_eqb k k' = false) by (apply coord_eqb_neq; congruence).
      now rewrite E.
    + now rewrite IH.
Qed.

Lemma dict_keys_set_old d k v :
  In k (dict_keys d) -> dict_keys (dict_set d k v) = dict_keys d.
Proof.
  induction d as [| [k0 v0] d IH]; simpl; [tauto |].
  intros H. destruct (coord_eqb k0 k) eqn:E; simpl; [reflexivity |].
  apply coord_eqb_neq in E. f_equal. apply IH. tauto.
Qed.

Lemma dict_keys_set_new d k v :
  ~ In k (dict_keys d) -> dict_keys (dict_set d k v) = dict_keys d ++ [k].
Proof.
  induction d as [| [k0 v0] d IH]; simpl; [reflexivity |].
  intros H. destruct (coord_eqb k0 k) eqn:E; simpl.
  - apply coord_eqb_eq in E. tauto.
  - f_equal. apply IH. tauto.
Qed.

Lemma dict_keys_set_In d k v k' :
  In k' (dict_keys (dict_set d k v)) <-> In k' (dict_keys d) \/ k' = k.
Proof.
  destruct (in_dec coord_eq_dec k (dict_keys d)) as [H | H].
  - rewrite dict_keys_set_old by assumption. split; [tauto |].
    intros [? | ->]; assumption.
  - rewrite dict_keys_set_new by assumption. rewrite in_app_iff. simpl.
    split; intros [? | ?]; auto.
    + destruct H0; [subst; auto | contradiction].
Qed.

End DictFacts.

(* ================================================================== *)
(** * Player.place_coin *)

Lemma in_triple_abs (v c : Z) :
  Player.in_triple v c = (Z.abs (v - c) <=? 1).
Proof.
  unfold Player.in_triple.
  destruct (Z.leb_spec (Z.abs (v - c)) 1) as [H | H].
  - assert (C : v = c - 1 \/ v = c \/ v = c + 1) by lia.
    destruct C as [-> | [-> | ->]];
      rewrite ?Z.eqb_refl, ?orb_true_r; reflexivity.
  - assert (E1 : (v =? c - 1) = false) by (apply Z.eqb_neq; lia).
    assert (E2 : (v =? c) = false) by (apply Z.eqb_neq; lia).
    assert (E3 : (v =? c + 1) = false) by (apply Z.eqb_neq; lia).
    now rewrite E1, E2, E3.
Qed.

Lemma near_within1 (c k : coord) : Player.near c k = within1 k c.
Proof. unfold Player.near, within1. now rewrite !in_triple_abs. Qed.

Lemma within1_sym (a b : coord) : within1 a b = within1 b a.
Proof.
  unfold within1.
  replace (fst b - fst a) with (- (fst a - fst b)) by lia.
  replace (snd b - snd a) with (- (snd a - snd b)) by lia.
  now rewrite !Z.abs_opp.
Qed.

Lemma near_sym (a b : coord) : Player.near a b = Player.near b a.
Proof. rewrite !near_within1. apply within1_sym. Qed.

Lemma near_refl (a : coord) : Player.near a a = true.
Proof.
  rewrite near_within1. unfold within1. rewrite !Z.sub_diag. reflexivity.
Qed.

Lemma append_at_keys m k c :
  dict_keys (Player.append_at m k c) = dict_keys m.
Proof.
  unfold Player.append_at. destruct (dict_get m k) eqn:E; [| reflexivity].
  apply dict_keys_set_old. eapply dict_get_In; eassumption.
Qed.

Lemma append_at_get_same m k c :
  dict_get (Player.append_at m k c) k =
  option_map (fun l => l ++ [c]) (dict_get m k).
Proof.
  unfold Player.append_at. destruct (dict_get m k) eqn:E; simpl.
  - apply dict_get_set_same.
  - assumption.
Qed.

Lemma append_at_get_other m k c k' :
  k' <> k -> dict_get (Player.append_at m k c) k' = dict_get m k'.
Proof.
  intros N. unfold Player.append_at. destruct (dict_get m k) eqn:E.
  - now apply dict_get_set_other.
  - reflexivity.
Qed.

Lemma fold_place_coin_step c ks : forall m acc,
  fold_left (Player.place_coin_step c) ks (m, acc) =
  (fold_left (appended c) ks m, acc ++ filter (Player.near c) ks).
Proof.
  induction ks as [| k ks IH]; intros m acc; simpl.
  - now rewrite app_nil_r.
  - unfold Player.place_coin_step at 2. unfold appended at 2. simpl.
    destruct (Player.near c k); rewrite IH.
    + now rewrite <- app_assoc.
    + reflexivity.
Qed.

Lemma fold_appended_keys c ks : forall m,
  dict_keys (fold_left (appended c) ks m) = dict_keys m.
Proof.
  induction ks as [| k ks IH]; intros m; simpl; [reflexivity |].
  rewrite IH. unfold appended. destruct (Player.near c k); [| reflexivity].
  apply append_at_keys.
Qed.

Lemma fold_appended_get_skip c ks k : forall m,
  ~ In k ks \/ Player.near c k = false ->
  dict_get (fold_left (appended c) ks m) k = dict_get m k.
Proof.
  induction ks as [| k0 ks IH]; intros m H; simpl; [reflexivity |].
  rewrite IH by (simpl in H; tauto).
  unfold appended. destruct (Player.near c k0) eqn:E; [| reflexivity].
  apply append_at_get_other. intros ->. simpl in H.
  destruct H as [H | H]; [tauto | congruence].
Qed.

Lemma fold_appended_get_hit c ks k : forall m,
  NoDup ks -> In k ks -> Player.near c k = true ->
  dict_get (fold_left (appended c) ks m) k =
  option_map (fun l => l ++ [c]) (dict_get m k).
Proof.
  induction ks as [| k0 ks IH]; intros m ND HIn Hn; simpl; [contradiction |].
  inversion ND as [| ? ? Hnotin ND']; subst.
  destruct HIn as [-> | HIn].
  - rewrite fold_appended_get_skip by tauto.
    unfold appended. rewrite Hn. apply append_at_get_same.
  - rewrite IH by assumption. f_equal.
    unfold appended. destruct (Player.near c k0); [| reflexivity].
    apply append_at_get_other. intros ->. contradiction.
Qed.

Lemma record_move_unfold m c :
  Player.record_move m c =
  dict_set (fold_left (appended c) (dict_keys m) m) c
           (filter (Player.near c) (dict_keys m)).
Proof.
  unfold Player.record_move. now rewrite fold_place_coin_step.
Qed.

Lemma record_move_get_new m c :
  dict_get (Player.record_move m c) c =
  Some (filter (Player.near c) (dict_keys m)).
Proof. rewrite record_move_unfold. apply dict_get_set_same. Qed.

Lemma record_move_get_other m c k :
  NoDup (dict_keys m) -> k <> c ->
  dict_get (Player.record_move m c) k =
  if Player.near c k
  then option_map (fun l => l ++ [c]) (dict_get m k)
  else dict_get m k.
Proof.
  intros ND N. rewrite record_move_unfold, dict_get_set_other by assumption.
  destruct (Player.near c k) eqn:E.
  - destruct (in_dec coord_eq_dec k (dict_keys m)) as [H | H].
    + now apply fold_appended_get_hit.
    + rewrite fold_appended_get_skip by tauto.
      apply dict_get_None in H. now rewrite H.
  - apply fold_appended_get_skip. now right.
Qed.

Lemma record_move_keys_In m c k :
  In k (dict_keys (Player.record_move m c)) <-> In k (dict_keys m) \/ k = c.
Proof.
  rewrite record_move_unfold, dict_keys_set_In, fold_appended_keys. tauto.
Qed.

Lemma record_move_keys_new m c :
  ~ In c (dict_keys m) ->
  dict_keys (Player.record_move m c) = dict_keys m ++ [c].
Proof.
  intros H. rewrite record_move_unfold, dict_keys_set_new.
  - now rewrite fold_appended_keys.
  - now rewrite fold_appended_keys.
Qed.

Lemma record_move_keys_old m c :
  In c (dict_keys m) ->
  dict_keys (Player.record_move m c) = dict_keys m.
Proof.
  intros H. rewrite record_move_unfold, dict_keys_set_old.
  - now rewrite fold_appended_keys.
  - now rewrite fold_appended_keys.
Qed.

Lemma record_move_NoDup m c :
  NoDup (dict_keys m) -> NoDup (dict_keys (Player.record_move m c)).
Proof.
  intros ND. destruct (in_dec coord_eq_dec c (dict_keys m)) as [H | H].
  - now rewrite record_move_keys_old.
  - rewrite record_move_keys_new by assumption.
    apply NoDup_app; [assumption | repeat constructor; auto | ].
    intros x Hx [<- | []]. contradiction.
Qed.

(** C7. [Player.place_coin] leaves the name and the colour alone; in the
    mapping, the entry of the new coordinate becomes exactly the list of the
    recorded cells at Chebyshev distance at most 1 (in insertion order), each
    such cell's own entry gains the new coordinate at its end, and every
    other entry is as it was (an absent entry stays absent). *)
Theorem place_coin_adjacency (self : Player.t) (coin : Coin.t) :
  NoDup (dict_keys (Player._moves self)) ->
  let c := Coin.cell coin in
  let m := Player._moves self in
  let m' := Player._moves (Player.place_coin self coin) in
  Player.name (Player.place_coin self coin) = Player.name self /\
  Player.colour (Player.place_coin self coin) = Player.colour self /\
  dict_get m' c = Some (filter (fun k => within1 k c) (dict_keys m)) /\
  (forall k, k <> c -> within1 k c = true ->
     dict_get m' k = option_map (fun l => l ++ [c]) (dict_get m k)) /\
  (forall k, k <> c -> within1 k c = false -> dict_get m' k = dict_get m k).
Proof.
  intros ND c m m'. subst c m m'. simpl.
  split; [reflexivity |]. split; [reflexivity |]. split; [| split].
  - rewrite record_move_get_new. f_equal. apply filter_ext.
    intros k. apply near_within1.
  - intros k N W. rewrite record_move_get_other by assumption.
    now rewrite near_within1, W.
  - intros k N W. rewrite record_move_get_other by assumption.
    now rewrite near_within1, W.
Qed.

(* ================================================================== *)
(** * Invariants of the mapping *)

Lemma record_move_closed m c :
  NoDup (dict_keys m) -> keys_closed m ->
  keys_closed (Player.record_move m c).
Proof.
  intros ND C k l x Hget Hin. apply record_move_keys_In.
  destruct (coord_eq_dec k c) as [-> | N].
  - rewrite record_move_get_new in Hget. inversion Hget; subst l.
    apply filter_In in Hin. tauto.
  - rewrite record_move_get_other in Hget by assumption.
    destruct (Player.near c k).
    + destruct (dict_get m k) as [l0 |] eqn:E; simpl in Hget; [| discriminate].
      inversion Hget; subst l. apply in_app_iff in Hin.
      destruct Hin as [Hin | [<- | []]]; [left; eauto | now right].
    + left; eauto.
Qed.

Lemma record_move_exact m c :
  NoDup (dict_keys m) -> ~ In c (dict_keys m) -> adjacency_exact m ->
  adjacency_exact (Player.record_move m c).
Proof.
  intros ND New X k l Hget x. rewrite record_move_keys_In.
  destruct (coord_eq_dec k c) as [-> | N].
  - rewrite record_move_get_new in Hget. inversion Hget; subst l.
    rewrite filter_In, near_within1, within1_sym. split.
    + intros [H1 H2]. repeat split; auto. intros ->. contradiction.
    + intros [[H1 | H1] [H2 H3]]; [auto | contradiction].
  - rewrite record_move_get_other in Hget by assumption.
    destruct (Player.near c k) eqn:E.
    + destruct (dict_get m k) as [l0 |] eqn:G; simpl in Hget; [| discriminate].
      inversion Hget; subst l. rewrite in_app_iff. simpl.
      rewrite (X k l0 G x). split.
      * intros [[H1 [H2 H3]] | [<- | []]]; [tauto |].
        repeat split; auto. now rewrite <- near_within1.
      * intros [[H1 | ->] [H2 H3]]; tauto.
    + rewrite (X k l Hget x). split; [tauto |].
      intros [[H1 | ->] [H2 H3]]; [tauto |].
      rewrite <- near_within1 in H3. congruence.
Qed.

Lemma played_moves coins : forall self,
  Player._moves (played self coins) =
  fold_left Player.record_move (map Coin.cell coins) (Player._moves self).
Proof.
  unfold played. induction coins as [| coin coins IH]; intros self; simpl.
  - reflexivity.
  - now rewrite IH.
Qed.

Lemma fold_record_closed cs : forall m,
  NoDup (dict_keys m) -> keys_closed m ->
  let m' := fold_left Player.record_move cs m in
  NoDup (dict_keys m') /\ keys_closed m' /\
  (forall k, In k (dict_keys m') <-> In k (dict_keys m) \/ In k cs).
Proof.
  induction cs as [| c cs IH]; intros m ND C; simpl.
  - repeat split; auto; tauto.
  - destruct (IH (Player.record_move m c)) as [H1 [H2 H3]].
    + now apply record_move_NoDup.
    + now apply record_move_closed.
    + repeat split; auto.
      * intros H. apply H3 in H. rewrite record_move_keys_In in H.
        destruct H as [[H | ->] | H]; auto.
      * intros H. apply H3. rewrite record_move_keys_In.
        destruct H as [H | [<- | H]]; auto.
Qed.

Lemma fold_record_exact cs : forall m,
  NoDup (dict_keys m) -> adjacency_exact m -> NoDup cs ->
  (forall c, In c cs -> ~ In c (dict_keys m)) ->
  let m' := fold_left Player.record_move cs m in
  adjacency_exact m' /\ dict_keys m' = dict_keys m ++ cs.
Proof.
  induction cs as [| c cs IH]; intros m ND X NDcs Fresh; simpl.
  - split; [assumption | now rewrite app_nil_r].
  - inversion NDcs as [| ? ? Hc NDcs']; subst.
    assert (New : ~ In c (dict_keys m)) by (apply Fresh; now left).
    destruct (IH (Player.record_move m c)) as [H1 H2].
    + now apply record_move_NoDup.
    + now apply record_move_exact.
    + assumption.
    + intros c' Hc'. rewrite record_move_keys_In. intros [H | ->].
      * apply (Fresh c'); [now right | assumption].
      * contradiction.
    + split; [assumption |]. rewrite H2, record_move_keys_new by assumption.
      now rewrite <- app_assoc.
Qed.

Lemma keys_closed_empty : keys_closed [].
Proof. intros k l x H. discriminate. Qed.

Lemma adjacency_exact_empty : adjacency_exact [].
Proof. intros k l H. discriminate. Qed.

(** The mapping of a new player after any sequence of placements. *)
Lemma played_closed name colour coins :
  let m := Player._moves (played (Player.init name colour) coins) in
  NoDup (dict_keys m) /\ keys_closed m /\
  (forall k, In k (dict_keys m) <-> In k (map Coin.cell coins)).
Proof.
  simpl. rewrite played_moves. simpl.
  destruct (fold_record_closed (map Coin.cell coins) [])
    as [H1 [H2 H3]]; [constructor | apply keys_closed_empty |].
  repeat split; auto.
  - intros H. apply H3 in H. simpl in H. tauto.
  - intros H. apply H3. now right.
Qed.

(** The mapping of a new player after placements on distinct cells. *)
Lemma played_exact name colour coins :
  NoDup (map Coin.cell coins) ->
  let m := Player._moves (played (Player.init name colour) coins) in
  adjacency_exact m /\ dict_keys m = map Coin.cell coins.
Proof.
  intros ND. simpl. rewrite played_moves. simpl.
  apply (fold_record_exact (map Coin.cell coins) []); auto.
  - constructor.
  - apply adjacency_exact_empty.
Qed.

(* ================================================================== *)
(** * The walks of has_win *)

Lemma shift_0 p d : shift p d 0 = p.
Proof. unfold shift. destruct p; simpl. f_equal; lia. Qed.

Lemma shift_step p d j :
  shift (fst p + fst d, snd p + snd d) d j = shift p d (j + 1).
Proof. unfold shift; simpl. f_equal; lia. Qed.

Lemma shift_1 p d : shift p d 1 = (fst p + fst d, snd p + snd d).
Proof. unfold shift. f_equal; lia. Qed.

Lemma shift_injective p d (i j : Z) :
  d <> (0, 0) -> shift p d i = shift p d j -> i = j.
Proof.
  intros Hd H. unfold shift in H. inversion H as [[H1 H2]].
  destruct d as [d1 d2]; simpl in *.
  destruct (Z.eq_dec d1 0) as [-> | N1].
  - destruct (Z.eq_dec d2 0) as [-> | N2]; [congruence |].
    apply (Z.mul_reg_r _ _ d2); [assumption | lia].
  - apply (Z.mul_reg_r _ _ d1); [assumption | lia].
Qed.

(** Pigeonhole: a line cannot stay inside a finite set of cells for more
    steps than the set has cells. *)
Lemma line_in_cells_bounded (cells : list coord) p d (n : nat) :
  d <> (0, 0) ->
  (forall j : nat, (1 <= j <= n)%nat -> In (shift p d (Z.of_nat j)) cells) ->
  (n <= length cells)%nat.
Proof.
  intros Hd H.
  set (f := fun j : nat => shift p d (Z.of_nat j)).
  assert (ND : NoDup (map f (seq 1 n))).
  { apply Finite.Injective_map_NoDup; [| apply seq_NoDup].
    intros i j E. unfold f in E. apply shift_injective in E; [lia | assumption]. }
  apply NoDup_incl_length with (l' := cells) in ND.
  - now rewrite length_map, length_seq in ND.
  - intros x Hx. apply in_map_iff in Hx. destruct Hx as [j [<- Hj]].
    apply in_seq in Hj. apply H. lia.
Qed.

Lemma ray_unique cells p d a b : ray cells p d a -> ray cells p d b -> a = b.
Proof.
  intros [A1 A2] [B1 B2].
  destruct (Nat.lt_trichotomy a b) as [L | [E | L]]; [| assumption |].
  - exfalso. apply A2. apply B1. lia.
  - exfalso. apply B2. apply A1. lia.
Qed.

Lemma ray_0 cells p d :
  ~ In (fst p + fst d, snd p + snd d) cells -> ray cells p d 0.
Proof.
  intros H. split.
  - intros j Hj. lia.
  - now rewrite shift_1.
Qed.

Lemma ray_S cells p d a :
  In (fst p + fst d, snd p + snd d) cells ->
  ray cells (fst p + fst d, snd p + snd d) d a ->
  ray cells p d (S a).
Proof.
  intros H [R1 R2]. split.
  - intros j Hj. destruct (Nat.eq_dec j 1) as [-> | N].
    + now rewrite shift_1.
    + replace (Z.of_nat j) with (Z.of_nat (j - 1) + 1) by lia.
      rewrite <- shift_step. apply R1. lia.
  - replace (Z.of_nat (S (S a))) with (Z.of_nat (S a) + 1) by lia.
    now rewrite <- shift_step.
Qed.

Lemma while_S {S : Type} (fuel : nat) (cond : S -> res bool)
    (body : S -> res S) (s : S) :
  while (Datatypes.S fuel) cond body s =
  (b <- cond s ;;
   if b then s' <- body s ;; while fuel cond body s' else Ret s).
Proof. reflexivity. Qed.

Section Walk.
Variables (m : dict (list coord)) (d : coord).
Let cells := dict_keys m.

(** On the cells of the mapping the loop condition is membership of the next
    cell in the mapping. *)
Hypothesis cond_membership : forall len move,
  In move cells ->
  Player.walk_cond m d (len, move) =
  Ret (contains cells (fst move + fst d, snd move + snd d)).

Lemma walk_spec : forall (fuel : nat) len move,
  In move cells ->
  (while fuel (Player.walk_cond m d) (Player.walk_body d) (len, move)
     = Timeout /\
   forall j : nat, (1 <= j <= fuel)%nat ->
     In (shift move d (Z.of_nat j)) cells) \/
  (exists a : nat, (a < fuel)%nat /\ ray cells move d a /\
     while fuel (Player.walk_cond m d) (Player.walk_body d) (len, move)
     = Ret (len + Z.of_nat a, shift move d (Z.of_nat a))).
Proof.
  induction fuel as [| fuel IH]; intros len move Hmove.
  - left. split; [reflexivity | intros j Hj; lia].
  - rewrite while_S, cond_membership by assumption.
    change (Player.walk_body d (len, move))
      with (@Ret (Z * coord) (len + 1, (fst move + fst d, snd move + snd d))).
    cbn [bind].
    destruct (contains cells (fst move + fst d, snd move + snd d)) eqn:E.
    + apply contains_In in E.
      destruct (IH (len + 1) (fst move + fst d, snd move + snd d) E)
        as [[T L] | [a [Ha [R W]]]].
      * left. split; [assumption |]. intros j Hj.
        destruct (Nat.eq_dec j 1) as [-> | N].
        -- now rewrite shift_1.
        -- replace (Z.of_nat j) with (Z.of_nat (j - 1) + 1) by lia.
           rewrite <- shift_step. apply L. lia.
      * right. exists (S a). split; [lia |]. split.
        -- now apply ray_S.
        -- etransitivity; [exact W |]. f_equal. f_equal; [lia |].
           rewrite shift_step. f_equal. lia.
    + right. exists O. split; [lia |]. split.
      * apply ray_0. intros H. apply contains_In in H. congruence.
      * simpl. now rewrite Z.add_0_r, shift_0.
Qed.

Lemma walk_terminates (fuel : nat) len move :
  d <> (0, 0) -> In move cells -> (length cells < fuel)%nat ->
  exists a : nat, ray cells move d a /\
    while fuel (Player.walk_cond m d) (Player.walk_body d) (len, move)
    = Ret (len + Z.of_nat a, shift move d (Z.of_nat a)).
Proof.
  intros Hd Hmove Hfuel.
  destruct (walk_spec fuel len move Hmove) as [[_ L] | [a [_ [R W]]]].
  - apply line_in_cells_bounded in L; [lia | assumption].
  - eauto.
Qed.

End Walk.

Lemma unit_step_within1 p d :
  unit_step d ->
  within1 p (fst p + fst d, snd p + snd d) = true /\
  (fst p + fst d, snd p + snd d) <> p.
Proof.
  intros [H1 [H2 H3]]. split.
  - unfold within1; simpl. apply andb_true_iff; split; apply Z.leb_le; lia.
  - intros E. apply H3. destruct p as [x y], d as [d1 d2]; simpl in *.
    inversion E. f_equal; lia.
Qed.

Lemma walk_cond_exact m d len move :
  adjacency_exact m -> unit_step d -> In move (dict_keys m) ->
  Player.walk_cond m d (len, move) =
  Ret (contains (dict_keys m) (fst move + fst d, snd move + snd d)).
Proof.
  intros X U Hmove. unfold Player.walk_cond, getitem; simpl.
  destruct (dict_get_key _ _ Hmove) as [l G]. rewrite G; simpl. f_equal.
  destruct (unit_step_within1 move d U) as [W N].
  apply eq_true_iff_eq. rewrite !contains_In, (X move l G). tauto.
Qed.

Lemma unit_step_nonzero d : unit_step d -> d <> (0, 0).
Proof. intros [_ [_ H]]; exact H. Qed.

Lemma unit_step_opp d : unit_step d -> unit_step (- fst d, - snd d).
Proof.
  intros [H1 [H2 H3]]. repeat split; simpl; try lia.
  intros E. apply H3. destruct d as [d1 d2]; simpl in *.
  inversion E. f_equal; lia.
Qed.

Lemma neighbour_offset m c l n :
  adjacency_exact m -> dict_get m c = Some l -> In n l ->
  In n (dict_keys m) /\ unit_step (fst n - fst c, snd n - snd c).
Proof.
  intros X G Hn. apply (X c l G) in Hn. destruct Hn as [K [N W]].
  split; [assumption |].
  unfold within1 in W. apply andb_true_iff in W. destruct W as [W1 W2].
  apply Z.leb_le in W1, W2. repeat split; simpl; try lia.
  intros E. apply N. destruct n, c; simpl in *. inversion E. f_equal; lia.
Qed.

(** The length computed for one connected move, on a mapping whose lists are
    exactly the adjacency relation. *)
Lemma line_length_exact (fuel : nat) m c l n :
  adjacency_exact m -> dict_get m c = Some l -> In n l ->
  (length (dict_keys m) < fuel)%nat ->
  let d := (fst n - fst c, snd n - snd c) in
  exists a b : nat,
    ray (dict_keys m) c d a /\
    ray (dict_keys m) c (- fst d, - snd d) b /\
    Player.line_length fuel m c n = Ret (1 + Z.of_nat a + Z.of_nat b).
Proof.
  intros X G Hn Hfuel d.
  destruct (neighbour_offset m c l n X G Hn) as [Kn U]. fold d in U.
  assert (Kc : In c (dict_keys m)) by (eapply dict_get_In; eassumption).
  destruct (walk_terminates m d
              (fun len move => walk_cond_exact m d len move X U)
              fuel 2 n (unit_step_nonzero d U) Kn Hfuel) as [a [Ra Wa]].
  destruct (walk_terminates m (- fst d, - snd d)
              (fun len move =>
                 walk_cond_exact m _ len move X (unit_step_opp d U))
              fuel (2 + Z.of_nat a) c
              (unit_step_nonzero _ (unit_step_opp d U)) Kc Hfuel)
    as [b [Rb Wb]].
  exists (S a), b. split; [| split].
  - apply ray_S.
    + replace (fst c + fst d, snd c + snd d) with n; [assumption |].
      destruct n, c; unfold d; simpl; f_equal; lia.
    + replace (fst c + fst d, snd c + snd d) with n; [assumption |].
      destruct n, c; unfold d; simpl; f_equal; lia.
  - assumption.
  - unfold Player.line_length. cbv zeta. fold d. rewrite Wa. cbn [bind fst].
    change (- (fst n - fst c), - (snd n - snd c)) with (- fst d, - snd d).
    rewrite Wb. cbn [bind fst]. f_equal. lia.
Qed.

Lemma line_length_stable m c l n :
  adjacency_exact m -> dict_get m c = Some l -> In n l ->
  exists v, forall fuel : nat, (length (dict_keys m) < fuel)%nat ->
    Player.line_length fuel m c n = Ret v.
Proof.
  intros X G Hn.
  destruct (line_length_exact (S (length (dict_keys m))) m c l n X G Hn)
    as [a [b [Ra [Rb _]]]]; [lia |].
  exists (1 + Z.of_nat a + Z.of_nat b). intros fuel Hfuel.
  destruct (line_length_exact fuel m c l n X G Hn Hfuel)
    as [a' [b' [Ra' [Rb' E]]]].
  now rewrite (ray_unique _ _ _ _ _ Ra Ra'), (ray_unique _ _ _ _ _ Rb Rb').
Qed.

Lemma has_win_loop_stable m c l :
  adjacency_exact m -> dict_get m c = Some l ->
  forall connected, incl connected l ->
  exists b, forall fuel : nat, (length (dict_keys m) < fuel)%nat ->
    Player.has_win_loop fuel m c connected = Ret b.
Proof.
  intros X G. induction connected as [| n rest IH]; intros Hincl.
  - exists false. reflexivity.
  - destruct (line_length_stable m c l n X G) as [v Hv].
    { apply Hincl. now left. }
    destruct IH as [b Hb].
    { intros x Hx. apply Hincl. now right. }
    exists (if v >=? 53 then true else b). intros fuel Hfuel. simpl.
    rewrite (Hv fuel Hfuel). simpl. destruct (v >=? 53); auto.
Qed.

(** C2. After placements on distinct cells, let [n] be a connected move of
    the recorded cell [c].  Its offset [d = n - c] is a unit step along one
    axis, and the length [has_win] computes for [n] is 1 plus the number of
    consecutive recorded cells from [c] in direction [d] plus the number of
    consecutive recorded cells from [c] in the opposite direction: only cells
    of the line through [c] with offset [d] are counted. *)
Theorem has_win_counts_along_axis name colour coins c l n (fuel : nat) :
  NoDup (map Coin.cell coins) ->
  let self := played (Player.init name colour) coins in
  dict_get (Player._moves self) c = Some l -> In n l ->
  (length coins < fuel)%nat ->
  let d := (fst n - fst c, snd n - snd c) in
  unit_step d /\
  exists a b : nat,
    ray (map Coin.cell coins) c d a /\
    ray (map Coin.cell coins) c (- fst d, - snd d) b /\
    Player.line_length fuel (Player._moves self) c n
    = Ret (1 + Z.of_nat a + Z.of_nat b).
Proof.
  intros ND self G Hn Hfuel d.
  destruct (played_exact name colour coins ND) as [X Keys]. fold self in X, Keys.
  split.
  - eapply neighbour_offset; eassumption.
  - rewrite <- Keys. eapply line_length_exact; try eassumption.
    rewrite Keys, length_map. assumption.
Qed.

(** C9. After placements on distinct cells, [has_win] terminates for every
    coin: with any loop bound above the number of placements it gives one and
    the same result, which is a returned boolean or a raised exception. *)
Theorem has_win_terminates name colour coins coin :
  NoDup (map Coin.cell coins) ->
  exists r, r <> Timeout /\
    forall fuel : nat, (length coins < fuel)%nat ->
      Player.has_win fuel (played (Player.init name colour) coins) coin = r.
Proof.
  intros ND. destruct (played_exact name colour coins ND) as [X Keys].
  set (self := played (Player.init name colour) coins) in *.
  destruct (dict_get (Player._moves self) (Coin.cell coin)) as [l |] eqn:G.
  - destruct (has_win_loop_stable _ _ l X G l (incl_refl l)) as [b Hb].
    exists (Ret b). split; [discriminate |]. intros fuel Hfuel.
    unfold Player.has_win, getitem. rewrite G. simpl. apply Hb.
    now rewrite Keys, length_map.
  - exists (Raise (KeyError (Coin.cell coin))). split; [discriminate |].
    intros fuel _. unfold Player.has_win, getitem. now rewrite G.
Qed.

(** A concrete run of C9: three coins of one player in a column. *)
Lemma has_win_terminates_witness :
  exists r, r <> Timeout /\
    forall fuel : nat, (3 < fuel)%nat ->
      Player.has_win fuel
        (played (Player.init "A" (255, 0, 0))
                (map coin_at [(0, 5); (0, 4); (0, 3)]))
        (coin_at (0, 3)) = r.
Proof.
  apply (has_win_terminates "A" (255, 0, 0)
           (map coin_at [(0, 5); (0, 4); (0, 3)]) (coin_at (0, 3))).
  apply distinctb_NoDup. reflexivity.
Defined.

(** A concrete run of C2: four coins in the bottom row, queried at the last
    one for its left neighbour. *)
Lemma has_win_counts_along_axis_witness :
  unit_step (-1, 0) /\
  exists a b : nat,
    ray (map Coin.cell (map coin_at [(0, 5); (1, 5); (2, 5); (3, 5)]))
        (3, 5) (-1, 0) a /\
    ray (map Coin.cell (map coin_at [(0, 5); (1, 5); (2, 5); (3, 5)]))
        (3, 5) (1, 0) b /\
    Player.line_length 5
      (Player._moves
         (played (Player.init "A" (255, 0, 0))
                 (map coin_at [(0, 5); (1, 5); (2, 5); (3, 5)])))
      (3, 5) (2, 5)
    = Ret (1 + Z.of_nat a + Z.of_nat b).
Proof.
  apply (has_win_counts_along_axis "A" (255, 0, 0)
           (map coin_at [(0, 5); (1, 5); (2, 5); (3, 5)])
           (3, 5) [(2, 5)] (2, 5) 5).
  - apply distinctb_NoDup. reflexivity.
  - reflexivity.
  - simpl. auto.
  - simpl. lia.
Defined.

(** A concrete run of C7: a coin placed at (1, 4) next to two of three
    recorded cells. *)
Lemma place_coin_adjacency_witness :
  let self := played (Player.init "A" (255, 0, 0))
                     (map coin_at [(0, 5); (1, 5); (3, 5)]) in
  let m' := Player._moves (Player.place_coin self (coin_at (1, 4))) in
  NoDup (dict_keys (Player._moves self)) /\
  dict_get m' (1, 4) = Some [(0, 5); (1, 5)] /\
  dict_get m' (0, 5) = Some [(1, 5); (1, 4)] /\
  dict_get m' (3, 5) = Some [].
Proof.
  intros self m'.
  assert (ND : NoDup (dict_keys (Player._moves self)))
    by (apply distinctb_NoDup; reflexivity).
  destruct (place_coin_adjacency self (coin_at (1, 4)) ND)
    as [_ [_ [H1 [H2 H3]]]].
  split; [exact ND |]. split; [exact H1 |]. split.
  - apply (H2 (0, 5)); [discriminate | reflexivity].
  - apply (H3 (3, 5)); [discriminate | reflexivity].
Defined.

(* ================================================================== *)
(** * has_win raises nothing on recorded coins *)

Lemma walk_closed m d :
  keys_closed m ->
  forall (fuel : nat) len move, In move (dict_keys m) ->
  match while fuel (Player.walk_cond m d) (Player.walk_body d) (len, move)
  with
  | Ret s => In (snd s) (dict_keys m)
  | Raise _ => False
  | Timeout => True
  end.
Proof.
  intros C. induction fuel as [| fuel IH]; intros len move Hmove.
  - exact I.
  - rewrite while_S. unfold Player.walk_cond, getitem. cbn [snd].
    destruct (dict_get_key _ _ Hmove) as [l G]. rewrite G. cbn [bind].
    destruct (contains l (fst move + fst d, snd move + snd d)) eqn:E.
    + apply contains_In in E. apply (C move l _ G) in E.
      exact (IH (len + 1) _ E).
    + exact Hmove.
Qed.

Lemma line_length_no_raise (fuel : nat) m c l n :
  keys_closed m -> dict_get m c = Some l -> In n l ->
  forall e, Player.line_length fuel m c n <> Raise e.
Proof.
  intros C G Hn e. unfold Player.line_length.
  assert (Kc : In c (dict_keys m)) by (eapply dict_get_In; eassumption).
  assert (Kn : In n (dict_keys m)) by (eapply C; eassumption).
  pose proof (walk_closed m (fst n - fst c, snd n - snd c) C fuel 2 n Kn) as W1.
  destruct (while fuel _ _ (2, n)) as [s1 | e1 |]; cbn [bind];
    [| contradiction | discriminate].
  pose proof (walk_closed m (- (fst n - fst c), - (snd n - snd c)) C
                fuel (fst s1) c Kc) as W2.
  destruct (while fuel _ _ (fst s1, c)) as [s2 | e2 |]; cbn [bind];
    [discriminate | contradiction | discriminate].
Qed.

Lemma has_win_loop_no_raise (fuel : nat) m c l :
  keys_closed m -> dict_get m c = Some l ->
  forall connected, incl connected l ->
  forall e, Player.has_win_loop fuel m c connected <> Raise e.
Proof.
  intros C G. induction connected as [| n rest IH]; intros Hincl e; simpl.
  - discriminate.
  - pose proof (line_length_no_raise fuel m c l n C G
                  (Hincl n (or_introl eq_refl))) as L.
    destruct (Player.line_length fuel m c n) as [v | e1 |]; cbn [bind].
    + destruct (v >=? 53); [discriminate |].
      apply IH. intros x Hx. apply Hincl. now right.
    + now specialize (L e1).
    + discriminate.
Qed.

(** C10. [has_win] looks the coin's [(col, row)] up in the mapping.  After
    any sequence of [place_coin] calls of a new player: if one of them was
    for the coin's cell, the lookup succeeds and [has_win] raises no
    exception; if none was, the lookup raises [KeyError] and so does
    [has_win], whatever the loop bound. *)
Theorem has_win_lookup name colour coins coin :
  let self := played (Player.init name colour) coins in
  let c := Coin.cell coin in
  (In c (map Coin.cell coins) ->
     (exists l, getitem (Player._moves self) c = Ret l) /\
     forall (fuel : nat) e, Player.has_win fuel self coin <> Raise e) /\
  (~ In c (map Coin.cell coins) ->
     getitem (Player._moves self) c = Raise (KeyError c) /\
     forall fuel : nat, Player.has_win fuel self coin = Raise (KeyError c)).
Proof.
  intros self c.
  destruct (played_closed name colour coins) as [ND [C Keys]].
  fold self in ND, C, Keys. split.
  - intros Hin. apply Keys in Hin. destruct (dict_get_key _ _ Hin) as [l G].
    unfold Player.has_win, getitem. fold c. rewrite G. split; [eauto |].
    intros fuel e. cbn [bind].
    apply (has_win_loop_no_raise fuel _ c l C G l (incl_refl l)).
  - intros Hnot. rewrite <- Keys in Hnot. apply dict_get_None in Hnot.
    unfold Player.has_win, getitem. fold c. rewrite Hnot. split; reflexivity.
Qed.

(** A concrete run of C10: the cell (0, 4) is recorded, the cell (6, 5) is
    not. *)
Lemma has_win_lookup_witness :
  let self := played (Player.init "A" (255, 0, 0))
                     (map coin_at [(0, 5); (0, 4)]) in
  ((exists l, getitem (Player._moves self) (0, 4) = Ret l) /\
   forall (fuel : nat) e, Player.has_win fuel self (coin_at (0, 4)) <> Raise e)
  /\
  (getitem (Player._moves self) (6, 5) = Raise (KeyError (6, 5)) /\
   forall fuel : nat,
     Player.has_win fuel self (coin_at (6, 5)) = Raise (KeyError (6, 5))).
Proof.
  intros self. split.
  - apply (has_win_lookup "A" (255, 0, 0)
             (map coin_at [(0, 5); (0, 4)]) (coin_at (0, 4))).
    simpl. auto.
  - apply (has_win_lookup "A" (255, 0, 0)
             (map coin_at [(0, 5); (0, 4)]) (coin_at (6, 5))).
    intros H. apply contains_In in H. vm_compute in H. discriminate H.
Defined.

(* ================================================================== *)
(** * The threshold of has_win *)

Lemma shift_opp p d j : shift p (- fst d, - snd d) j = shift p d (- j).
Proof. unfold shift; simpl. f_equal; lia. Qed.

Lemma shift_shift p d i j : shift (shift p d i) d j = shift p d (i + j).
Proof. unfold shift; simpl. f_equal; lia. Qed.

(** The cells counted for one line are distinct recorded cells. *)
Lemma line_within_cells (cells : list coord) c d (a b : nat) :
  d <> (0, 0) -> In c cells ->
  ray cells c d a -> ray cells c (- fst d, - snd d) b ->
  (1 + a + b <= length cells)%nat.
Proof.
  intros Hd Hc [Ra _] [Rb _].
  apply (line_in_cells_bounded cells (shift c d (- Z.of_nat (S b))) d);
    [assumption |].
  intros j Hj. rewrite shift_shift.
  destruct (Z.lt_trichotomy (- Z.of_nat (S b) + Z.of_nat j) 0)
    as [L | [E | L]].
  - replace (- Z.of_nat (S b) + Z.of_nat j)
      with (- Z.of_nat (S b - j)) by lia.
    rewrite <- shift_opp. apply Rb. lia.
  - rewrite E, shift_0. assumption.
  - replace (- Z.of_nat (S b) + Z.of_nat j)
      with (Z.of_nat (j - S b)) by lia.
    apply Ra. lia.
Qed.

Lemma has_win_loop_below_53 (fuel : nat) m c l :
  adjacency_exact m -> dict_get m c = Some l ->
  (length (dict_keys m) < fuel)%nat -> (length (dict_keys m) < 53)%nat ->
  forall connected, incl connected l ->
  Player.has_win_loop fuel m c connected = Ret false.
Proof.
  intros X G Hfuel Hsmall.
  induction connected as [| n rest IH]; intros Hincl; simpl; [reflexivity |].
  assert (Hn : In n l) by (apply Hincl; now left).
  destruct (line_length_exact fuel m c l n X G Hn Hfuel)
    as [a [b [Ra [Rb E]]]].
  rewrite E. cbn [bind].
  destruct (neighbour_offset m c l n X G Hn) as [_ U].
  pose proof (line_within_cells (dict_keys m) c _ a b
                (unit_step_nonzero _ U) (dict_get_In _ _ _ G) Ra Rb) as B.
  assert (T : (1 + Z.of_nat a + Z.of_nat b >=? 53) = false).
  { rewrite Z.geb_leb. apply Z.leb_gt. lia. }
  rewrite T. apply IH. intros x Hx. apply Hincl. now right.
Qed.

(** With fewer than 53 coins placed on distinct cells, [has_win] answers
    [False] for every recorded coin: a board of [ROWS * COLUMNS = 42] cells
    never holds a line that reaches the threshold. *)
Lemma has_win_false_below_53 name colour coins coin (fuel : nat) :
  NoDup (map Coin.cell coins) ->
  In (Coin.cell coin) (map Coin.cell coins) ->
  (length coins < fuel)%nat -> (length coins < 53)%nat ->
  Player.has_win fuel (played (Player.init name colour) coins) coin
  = Ret false.
Proof.
  intros ND Hin Hfuel Hsmall.
  destruct (played_exact name colour coins ND) as [X Keys].
  set (self := played (Player.init name colour) coins) in *.
  rewrite <- Keys in Hin. destruct (dict_get_key _ _ Hin) as [l G].
  unfold Player.has_win, getitem. rewrite G. cbn [bind].
  apply (has_win_loop_below_53 fuel _ _ l X G); try apply incl_refl;
    rewrite Keys, length_map; assumption.
Qed.

(** C1. Four coins of one player side by side in the bottom row, the last
    one placed at (3, 5): the row through (3, 5) holds four consecutive
    cells of the player, and [has_win] answers [False].  In the game of the
    module, after player A has dropped coins into columns 0, 1, 2 and 3 (and
    player B into column 6 in between), the bottom row holds A's four coins
    and the loop is still polling for moves. *)
Theorem has_win_misses_four_in_a_row :
  let coins := map coin_at [(0, 5); (1, 5); (2, 5); (3, 5)] in
  let self := played (Player.init "A" (255, 0, 0)) coins in
  ray (map Coin.cell coins) (3, 5) (-1, 0) 3 /\
  Player.has_win 5 self (coin_at (3, 5)) = Ret false /\
  exists st,
    main (K := classic) 50
      (Player.init "A" (255, 0, 0), Player.init "B" (255, 255, 0))
      (map (click (K := classic)) [0; 6; 1; 6; 2; 6; 3])
    = Ret (Connect4.Polling st []) /\
    map (fun col => placed_at (Connect4.board (Connect4.game st)) col 5)
        [0; 1; 2; 3] = [true; true; true; true] /\
    dict_keys (Player._moves (fst (Connect4.players (Connect4.game st))))
    = [(0, 5); (1, 5); (2, 5); (3, 5)].
Proof.
  intros coins self. split; [| split].
  - split.
    + intros j Hj.
      assert (C : j = 1%nat \/ j = 2%nat \/ j = 3%nat) by lia.
      destruct C as [-> | [-> | ->]]; simpl; auto.
    + intros H. apply contains_In in H. vm_compute in H. discriminate H.
  - reflexivity.
  - eexists. split; [vm_compute; reflexivity |]. split; reflexivity.
Qed.

(* ================================================================== *)
(** * Python lists *)

Section PyLists.
Context {A : Type}.
Implicit Types (l : list A) (i : Z).

Lemma py_index_nonneg l i a :
  0 <= i -> nth_error l (Z.to_nat i) = Some a -> py_index l i = Ret a.
Proof.
  intros Hi H. unfold py_index.
  assert (L : (Z.to_nat i < length l)%nat)
    by (apply nth_error_Some; congruence).
  assert (E1 : (i <? 0) = false) by (apply Z.ltb_ge; lia).
  assert (E2 : (0 <=? i) = true) by (apply Z.leb_le; lia).
  assert (E3 : (i <? Z.of_nat (length l)) = true) by (apply Z.ltb_lt; lia).
  now rewrite E1, E2, E3, H.
Qed.

Lemma nth_error_in_range l i :
  0 <= i < Z.of_nat (length l) -> exists a, nth_error l (Z.to_nat i) = Some a.
Proof.
  intros Hi. destruct (nth_error l (Z.to_nat i)) eqn:E; [eauto |].
  apply nth_error_None in E. lia.
Qed.

Lemma py_index_Ret_nonneg l i a :
  0 <= i -> py_index l i = Ret a -> nth_error l (Z.to_nat i) = Some a.
Proof.
  intros Hi. unfold py_index.
  assert (E1 : (i <? 0) = false) by (apply Z.ltb_ge; lia).
  rewrite E1. destruct ((0 <=? i) && (i <? Z.of_nat (length l)));
    [| discriminate].
  destruct (nth_error l (Z.to_nat i)); [| discriminate].
  intros H; inversion H; reflexivity.
Qed.

Lemma py_index_last l :
  (0 < length l)%nat -> exists a, py_index l (-1) = Ret a.
Proof.
  intros L. unfold py_index. simpl.
  assert (E2 : (0 <=? Z.of_nat (length l) + -1) = true)
    by (apply Z.leb_le; lia).
  assert (E3 : (Z.of_nat (length l) + -1 <? Z.of_nat (length l)) = true)
    by (apply Z.ltb_lt; lia).
  rewrite E2, E3. simpl.
  destruct (nth_error_in_range l (Z.of_nat (length l) + -1)) as [a Ha];
    [lia |].
  rewrite Ha. eauto.
Qed.

Lemma py_update_nonneg l i v :
  0 <= i < Z.of_nat (length l) ->
  py_update l i v = firstn (Z.to_nat i) l ++ v :: skipn (S (Z.to_nat i)) l.
Proof.
  intros Hi. unfold py_update.
  assert (E1 : (i <? 0) = false) by (apply Z.ltb_ge; lia).
  assert (E2 : (0 <=? i) = true) by (apply Z.leb_le; lia).
  assert (E3 : (i <? Z.of_nat (length l)) = true) by (apply Z.ltb_lt; lia).
  now rewrite E1, E2, E3.
Qed.

Lemma replace_nth_length (n : nat) l v :
  (n < length l)%nat ->
  length (firstn n l ++ v :: skipn (S n) l) = length l.
Proof.
  intros L. rewrite length_app, length_firstn.
  change (length (v :: skipn (S n) l)) with (S (length (skipn (S n) l))).
  rewrite length_skipn. lia.
Qed.

Lemma replace_nth_same (n : nat) l v :
  (n < length l)%nat ->
  nth_error (firstn n l ++ v :: skipn (S n) l) n = Some v.
Proof.
  intros L. rewrite nth_error_app2; rewrite length_firstn.
  - replace (n - Nat.min n (length l))%nat with O by lia. reflexivity.
  - lia.
Qed.

Lemma replace_nth_other (n j : nat) l v :
  (n < length l)%nat -> j <> n ->
  nth_error (firstn n l ++ v :: skipn (S n) l) j = nth_error l j.
Proof.
  intros L N. destruct (Nat.lt_ge_cases j n) as [Lt | Ge].
  - rewrite nth_error_app1 by (rewrite length_firstn; lia).
    rewrite nth_error_firstn.
    assert (E : (j <? n)%nat = true) by (apply Nat.ltb_lt; lia).
    now rewrite E.
  - rewrite nth_error_app2 by (rewrite length_firstn; lia).
    rewrite length_firstn.
    replace (j - Nat.min n (length l))%nat with (S (j - S n)) by lia.
    cbn [nth_error]. rewrite nth_error_skipn. f_equal. lia.
Qed.

Lemma py_update_length l i v :
  0 <= i < Z.of_nat (length l) -> length (py_update l i v) = length l.
Proof.
  intros Hi. rewrite py_update_nonneg by assumption.
  apply replace_nth_length. lia.
Qed.

Lemma py_update_same l i v :
  0 <= i < Z.of_nat (length l) ->
  nth_error (py_update l i v) (Z.to_nat i) = Some v.
Proof.
  intros Hi. rewrite py_update_nonneg by assumption.
  apply replace_nth_same. lia.
Qed.

Lemma py_update_other l i v (j : nat) :
  0 <= i < Z.of_nat (length l) -> j <> Z.to_nat i ->
  nth_error (py_update l i v) j = nth_error l j.
Proof.
  intros Hi N. rewrite py_update_nonneg by assumption.
  apply replace_nth_other; [lia | assumption].
Qed.

End PyLists.

(* ================================================================== *)
(** * The two scans of Board.place_coin *)

Section BoardScans.
Context {K : Constants}.

Lemma wf_range (b : Board.t) col :
  board_wf b -> 0 <= col < COLUMNS ->
  exists r, nth_error (Board.col_ranges b) (Z.to_nat col) = Some r.
Proof.
  intros [_ [L _]] Hc. apply nth_error_in_range. lia.
Qed.

Lemma column_scan_found b pos col0 :
  board_wf b -> selects b pos col0 ->
  forall (fuel : nat) col, 0 <= col <= col0 -> col0 - col < Z.of_nat fuel ->
  while fuel (Board.column_cond b pos) (fun col => Ret (col + 1)) col
  = Ret col0.
Proof.
  intros WF [Hc0 [[r0 [Hr0 In0]] Before]].
  induction fuel as [| fuel IH]; intros col Hcol Hfuel; [lia |].
  rewrite while_S. unfold Board.column_cond.
  assert (E : (col <? COLUMNS) = true) by (apply Z.ltb_lt; lia).
  rewrite E. destruct (wf_range b col WF) as [r Hr]; [lia |].
  rewrite (py_index_nonneg _ _ _ (proj1 Hcol) Hr). cbn [bind].
  destruct (Z.eq_dec col col0) as [-> | N].
  - assert (r = r0) by congruence. subst r. rewrite In0. reflexivity.
  - rewrite (Before col r) by (assumption || lia). cbn [negb bind].
    apply IH; lia.
Qed.

Lemma column_scan_none b pos :
  board_wf b -> selects_nothing b pos ->
  forall (fuel : nat) col, 0 <= col <= COLUMNS ->
    COLUMNS - col < Z.of_nat fuel ->
  while fuel (Board.column_cond b pos) (fun col => Ret (col + 1)) col
  = Ret COLUMNS.
Proof.
  intros WF None.
  induction fuel as [| fuel IH]; intros col Hcol Hfuel; [lia |].
  rewrite while_S. unfold Board.column_cond.
  destruct (Z.eq_dec col COLUMNS) as [-> | N].
  - rewrite Z.ltb_irrefl. reflexivity.
  - assert (E : (col <? COLUMNS) = true) by (apply Z.ltb_lt; lia).
    rewrite E. destruct (wf_range b col WF) as [r Hr]; [lia |].
    rewrite (py_index_nonneg _ _ _ (proj1 Hcol) Hr). cbn [bind].
    rewrite (None col r) by (assumption || lia). cbn [negb bind].
    apply IH; lia.
Qed.

(** The scan of a column stops at the first unplaced coin from the bottom. *)
Lemma row_scan_found (column : list Coin.t) row0 coin0 :
  0 <= row0 -> nth_error column (Z.to_nat row0) = Some coin0 ->
  Coin.placed coin0 = false ->
  forall (fuel : nat) row coin,
    row0 <= row < Z.of_nat (length column) ->
    nth_error column (Z.to_nat row) = Some coin ->
    (forall r c, row0 < r <= row ->
       nth_error column (Z.to_nat r) = Some c -> Coin.placed c = true) ->
    row - row0 < Z.of_nat fuel ->
    while fuel Board.row_cond (Board.row_body column) (row, coin)
    = Ret (row0, coin0).
Proof.
  intros H0 Hcoin0 Free.
  induction fuel as [| fuel IH]; intros row coin Hrow Hcoin Below Hfuel;
    [lia |].
  rewrite while_S. unfold Board.row_cond. cbn [fst snd bind].
  assert (E : (row >? -1) = true) by (apply Z.gtb_lt; lia).
  rewrite E. cbn [andb].
  destruct (Z.eq_dec row row0) as [-> | N].
  - assert (coin = coin0) by congruence. subst coin. rewrite Free. reflexivity.
  - rewrite (Below row coin) by (assumption || lia).
    unfold Board.row_body. cbn [fst snd].
    destruct (nth_error_in_range column (row - 1)) as [c Hc]; [lia |].
    assert (Hnn : 0 <= row - 1) by lia.
    rewrite (py_index_nonneg _ _ _ Hnn Hc). cbn [bind].
    apply IH; try lia; try assumption.
    intros r c' Hr. apply Below. lia.
Qed.

(** The scan of a column whose coins are all placed ends at row [-1]. *)
Lemma row_scan_full (column : list Coin.t) :
  (forall c, In c column -> Coin.placed c = true) ->
  forall (fuel : nat) row coin,
    -1 <= row < Z.of_nat (length column) ->
    In coin column ->
    row + 1 < Z.of_nat fuel ->
    exists coin',
      while fuel Board.row_cond (Board.row_body column) (row, coin)
      = Ret (-1, coin').
Proof.
  intros Full.
  induction fuel as [| fuel IH]; intros row coin Hrow Hcoin Hfuel; [lia |].
  rewrite while_S. unfold Board.row_cond. cbn [fst snd bind].
  destruct (Z.eq_dec row (-1)) as [-> | N].
  - exists coin. reflexivity.
  - assert (E : (row >? -1) = true) by (apply Z.gtb_lt; lia).
    rewrite E, (Full coin Hcoin). cbn [andb].
    unfold Board.row_body. cbn [fst snd].
    assert (Next : exists c, py_index column (row - 1) = Ret c /\ In c column).
    { destruct (Z.eq_dec row 0) as [-> | N0].
      - destruct (py_index_last column) as [c Hc]; [lia |].
        exists c. split; [exact Hc |].
        unfold py_index in Hc. simpl in Hc.
        destruct (_ && _); [| discriminate].
        destruct (nth_error column _) eqn:G; [| discriminate].
        inversion Hc; subst. eapply nth_error_In; eassumption.
      - destruct (nth_error_in_range column (row - 1)) as [c Hc]; [lia |].
        exists c. split; [apply py_index_nonneg; [lia | assumption] |].
        eapply nth_error_In; eassumption. }
    destruct Next as [c [Hc Inc]]. rewrite Hc. cbn [bind].
    apply IH; [lia | assumption | lia].
Qed.

End BoardScans.

(* ================================================================== *)
(** * Board.place_coin *)

Section BoardFacts.
Context {K : Constants}.

Lemma wf_column (b : Board.t) col :
  board_wf b -> 0 <= col < COLUMNS ->
  exists column, nth_error (Board.coins b) (Z.to_nat col) = Some column /\
                 Z.of_nat (length column) = ROWS.
Proof.
  intros [L [_ [Rows _]]] Hc.
  destruct (nth_error_in_range (Board.coins b) col) as [column G]; [lia |].
  exists column. split; [assumption |]. apply Rows.
  eapply nth_error_In; eassumption.
Qed.

Lemma scan_bound_columns (fuel : nat) :
  (scan_bound <= fuel)%nat -> COLUMNS < Z.of_nat fuel.
Proof. unfold scan_bound. lia. Qed.

Lemma scan_bound_rows (fuel : nat) :
  (scan_bound <= fuel)%nat -> ROWS < Z.of_nat fuel.
Proof. unfold scan_bound. lia. Qed.

Lemma place_coin_selects_nothing (fuel : nat) b player pos :
  board_wf b -> selects_nothing b pos -> (scan_bound <= fuel)%nat ->
  Board.place_coin fuel b player pos = Ret (None, b, player).
Proof.
  intros WF None Hfuel. unfold Board.place_coin.
  pose proof (scan_bound_columns fuel Hfuel).
  destruct WF as [L WF'].
  rewrite (column_scan_none b pos (conj L WF') None) by lia.
  cbn [bind]. now rewrite Z.eqb_refl.
Qed.

(** [place_coin] once the column scan has stopped at [col]. *)
Lemma place_coin_selected (fuel : nat) b player pos col column :
  board_wf b -> selects b pos col -> (scan_bound <= fuel)%nat ->
  nth_error (Board.coins b) (Z.to_nat col) = Some column ->
  Board.place_coin fuel b player pos =
  (coin <- py_index column (ROWS - 1) ;;
   s <- while fuel Board.row_cond (Board.row_body column) (ROWS - 1, coin) ;;
   if fst s =? -1 then Ret (None, b, player)
   else Ret (Some (Coin.place (snd s) (Player.colour player)),
             Board.store_coin b col (fst s)
               (Coin.place (snd s) (Player.colour player)),
             Player.place_coin player
               (Coin.place (snd s) (Player.colour player)))).
Proof.
  intros WF Sel Hfuel G. unfold Board.place_coin.
  pose proof (scan_bound_columns fuel Hfuel).
  assert (Hc : 0 <= col < COLUMNS) by apply Sel.
  rewrite (column_scan_found b pos col WF Sel) by lia. cbn [bind].
  assert (E : (col =? COLUMNS) = false) by (apply Z.eqb_neq; lia).
  rewrite E, (py_index_nonneg _ _ _ (proj1 Hc) G). reflexivity.
Qed.

Lemma place_coin_column_full (fuel : nat) b player pos col :
  0 < ROWS -> board_wf b -> selects b pos col -> column_full b col ->
  (scan_bound <= fuel)%nat ->
  Board.place_coin fuel b player pos = Ret (None, b, player).
Proof.
  intros HR WF Sel Full Hfuel.
  assert (Hc : 0 <= col < COLUMNS) by apply Sel.
  destruct (wf_column b col WF Hc) as [column [G Len]].
  rewrite (place_coin_selected fuel b player pos col column) by assumption.
  destruct (nth_error_in_range column (ROWS - 1)) as [coin Hcoin]; [lia |].
  assert (Hnn : 0 <= ROWS - 1) by lia.
  rewrite (py_index_nonneg _ _ _ Hnn Hcoin). cbn [bind].
  assert (All : forall c, In c column -> Coin.placed c = true).
  { intros c Hin. apply In_nth_error in Hin. destruct Hin as [n Hn].
    assert (n < length column)%nat by (apply nth_error_Some; congruence).
    specialize (Full (Z.of_nat n) ltac:(lia)).
    unfold placed_at, coin_of in Full.
    rewrite G, Nat2Z.id, Hn in Full. exact Full. }
  pose proof (scan_bound_rows fuel Hfuel).
  destruct (row_scan_full column All fuel (ROWS - 1) coin) as [coin' W];
    [lia | eapply nth_error_In; eassumption | lia |].
  rewrite W. reflexivity.
Qed.

Lemma place_coin_lowest_empty (fuel : nat) b player pos col row :
  board_wf b -> selects b pos col -> lowest_empty b col row ->
  (scan_bound <= fuel)%nat ->
  exists coin0, coin_of b col row = Some coin0 /\
    Board.place_coin fuel b player pos =
    Ret (Some (Coin.place coin0 (Player.colour player)),
         Board.store_coin b col row
           (Coin.place coin0 (Player.colour player)),
         Player.place_coin player
           (Coin.place coin0 (Player.colour player))).
Proof.
  intros WF Sel [Hrow [Free Below]] Hfuel.
  assert (Hc : 0 <= col < COLUMNS) by apply Sel.
  destruct (wf_column b col WF Hc) as [column [G Len]].
  rewrite (place_coin_selected fuel b player pos col column) by assumption.
  destruct (nth_error_in_range column (ROWS - 1)) as [coin Hcoin]; [lia |].
  assert (Hnn : 0 <= ROWS - 1) by lia.
  rewrite (py_index_nonneg _ _ _ Hnn Hcoin). cbn [bind].
  destruct (nth_error_in_range column row) as [coin0 Hcoin0]; [lia |].
  exists coin0. split.
  { unfold coin_of. now rewrite G. }
  pose proof (scan_bound_rows fuel Hfuel).
  rewrite (row_scan_found column row coin0); try assumption; try lia.
  - cbn [bind fst snd].
    assert (E : (row =? -1) = false) by (apply Z.eqb_neq; lia).
    now rewrite E.
  - unfold placed_at, coin_of in Free. now rewrite G, Hcoin0 in Free.
  - intros r c Hr Hc'. specialize (Below r ltac:(lia)).
    unfold placed_at, coin_of in Below. now rewrite G, Hc' in Below.
Qed.

(** The coins of the board after the placed coin is stored. *)
Lemma store_coin_coin_of b col row coin col' row' :
  board_wf b -> 0 <= col < COLUMNS -> 0 <= row < ROWS ->
  0 <= col' -> 0 <= row' ->
  coin_of (Board.store_coin b col row coin) col' row' =
  if (col' =? col) && (row' =? row) then Some coin else coin_of b col' row'.
Proof.
  intros WF Hc Hr Hc' Hr'.
  destruct (wf_column b col WF Hc) as [column [G Len]].
  unfold Board.store_coin.
  rewrite (py_index_nonneg _ _ _ (proj1 Hc) G).
  unfold coin_of. cbn [Board.coins].
  destruct WF as [L _].
  destruct (Z.eqb_spec col' col) as [-> | N]; cbn [andb].
  - rewrite py_update_same by lia. rewrite G.
    destruct (Z.eqb_spec row' row) as [-> | N].
    + apply py_update_same. lia.
    + apply py_update_other; lia.
  - rewrite py_update_other by lia. reflexivity.
Qed.

Lemma store_coin_placed_at b col row coin col' row' :
  board_wf b -> 0 <= col < COLUMNS -> 0 <= row < ROWS ->
  0 <= col' -> 0 <= row' -> Coin.placed coin = true ->
  placed_at (Board.store_coin b col row coin) col' row' =
  ((col' =? col) && (row' =? row)) || placed_at b col' row'.
Proof.
  intros WF Hc Hr Hc' Hr' P. unfold placed_at.
  rewrite store_coin_coin_of by assumption.
  destruct ((col' =? col) && (row' =? row)); [exact P | reflexivity].
Qed.

Lemma store_coin_wf b col row coin :
  board_wf b -> 0 <= col < COLUMNS -> 0 <= row < ROWS ->
  Coin.col coin = col -> Coin.row coin = row ->
  board_wf (Board.store_coin b col row coin).
Proof.
  intros WF Hc Hr Ecol Erow.
  destruct (wf_column b col WF Hc) as [column [G Len]].
  assert (WF0 := WF). destruct WF as [L [LR [Rows Fields]]].
  repeat split.
  - unfold Board.store_coin. rewrite (py_index_nonneg _ _ _ (proj1 Hc) G).
    cbn [Board.coins]. rewrite py_update_length; lia.
  - unfold Board.store_coin. rewrite (py_index_nonneg _ _ _ (proj1 Hc) G).
    exact LR.
  - intros column'. unfold Board.store_coin.
    rewrite (py_index_nonneg _ _ _ (proj1 Hc) G). cbn [Board.coins].
    intros Hin. apply In_nth_error in Hin. destruct Hin as [n Hn].
    destruct (Nat.eq_dec n (Z.to_nat col)) as [-> | N].
    + rewrite py_update_same in Hn by lia. inversion Hn; subst column'.
      rewrite py_update_length; lia.
    + rewrite py_update_other in Hn by lia.
      apply Rows. eapply nth_error_In; eassumption.
  - rewrite store_coin_coin_of in H1 by assumption.
    destruct ((col0 =? col) && (row0 =? row)) eqn:E.
    + apply andb_true_iff in E. destruct E as [E1 E2].
      apply Z.eqb_eq in E1, E2. inversion H1; subst. reflexivity.
    + now apply (Fields col0 row0 coin0).
  - rewrite store_coin_coin_of in H1 by assumption.
    destruct ((col0 =? col) && (row0 =? row)) eqn:E.
    + apply andb_true_iff in E. destruct E as [E1 E2].
      apply Z.eqb_eq in E1, E2. inversion H1; subst. reflexivity.
    + now apply (Fields col0 row0 coin0).
Qed.

Lemma store_coin_ranges b col row coin :
  Board.col_ranges (Board.store_coin b col row coin) = Board.col_ranges b.
Proof.
  unfold Board.store_coin. destruct (py_index _ _); reflexivity.
Qed.

End BoardFacts.

(* ================================================================== *)
(** * Gravity *)

Section Gravity.
Context {K : Constants}.

Lemma height_lowest_empty b col h :
  height b col h -> h < ROWS -> lowest_empty b col (ROWS - 1 - h).
Proof.
  intros [Hh Iff] Lt. repeat split; try lia.
  - destruct (placed_at b col (ROWS - 1 - h)) eqn:E; [| reflexivity].
    apply Iff in E; lia.
  - intros row' Hr. apply Iff; lia.
Qed.

Lemma lowest_empty_height b col row h :
  lowest_empty b col row -> height b col h -> row = ROWS - 1 - h.
Proof.
  intros [Hrow [Free Below]] [Hh Iff].
  destruct (Z.lt_trichotomy row (ROWS - 1 - h)) as [L | [E | L]];
    [| assumption |].
  - assert (B : row < ROWS - 1 - h < ROWS) by lia.
    apply Below in B. apply Iff in B; lia.
  - assert (P : placed_at b col row = true) by (apply Iff; lia). congruence.
Qed.

Lemma gravity_not_full b col :
  gravity b -> 0 <= col < COLUMNS -> ~ column_full b col ->
  exists h, height b col h /\ h < ROWS.
Proof.
  intros G Hc NF. destruct (G col Hc) as [h H]. exists h. split; [exact H |].
  destruct H as [Hh Iff]. destruct (Z.eq_dec h ROWS) as [-> | N]; [| lia].
  exfalso. apply NF. intros row Hr. apply Iff; lia.
Qed.

Lemma height_full b col : height b col ROWS -> column_full b col.
Proof. intros [_ Iff] row Hr. apply Iff; lia. Qed.

Lemma store_coin_height b col h coin :
  board_wf b -> 0 <= col < COLUMNS -> height b col h -> h < ROWS ->
  Coin.placed coin = true ->
  height (Board.store_coin b col (ROWS - 1 - h) coin) col (h + 1).
Proof.
  intros WF Hc [Hh Iff] Lt P. split; [lia |]. intros row Hr.
  rewrite store_coin_placed_at by (assumption || lia).
  rewrite Z.eqb_refl, orb_true_iff. cbn [andb]. rewrite Z.eqb_eq, (Iff row Hr).
  lia.
Qed.

Lemma store_coin_height_other b col row coin col' h :
  board_wf b -> 0 <= col < COLUMNS -> 0 <= row < ROWS ->
  0 <= col' -> col' <> col -> Coin.placed coin = true ->
  height b col' h -> height (Board.store_coin b col row coin) col' h.
Proof.
  intros WF Hc Hr Hc' N P [Hh Iff]. split; [lia |]. intros row' Hr'.
  rewrite store_coin_placed_at by (assumption || lia).
  assert (E : (col' =? col) = false) by (apply Z.eqb_neq; assumption).
  rewrite E. cbn [andb orb]. apply Iff. assumption.
Qed.

Lemma store_coin_gravity b col h coin :
  board_wf b -> 0 <= col < COLUMNS -> height b col h -> h < ROWS ->
  Coin.placed coin = true -> gravity b ->
  gravity (Board.store_coin b col (ROWS - 1 - h) coin).
Proof.
  intros WF Hc H Lt P G col' Hc'.
  destruct (Z.eq_dec col' col) as [-> | N].
  - exists (h + 1). now apply store_coin_height.
  - destruct (G col' Hc') as [h' H']. exists h'.
    apply store_coin_height_other; try assumption; try lia.
    destruct H; lia.
Qed.

Lemma selects_same_ranges b b' pos col :
  Board.col_ranges b' = Board.col_ranges b ->
  selects b pos col -> selects b' pos col.
Proof. unfold selects. intros ->. tauto. Qed.

(** One drop into a column of height [h < ROWS]. *)
Lemma place_coin_drop (fuel : nat) b player pos col h :
  board_wf b -> gravity b -> selects b pos col -> height b col h ->
  h < ROWS -> (scan_bound <= fuel)%nat ->
  exists coin b',
    Board.place_coin fuel b player pos
    = Ret (Some coin, b', Player.place_coin player coin) /\
    Coin.cell coin = (col, ROWS - 1 - h) /\
    Coin.placed coin = true /\
    Coin.colour coin = Player.colour player /\
    (forall c r, 0 <= c -> 0 <= r ->
       placed_at b' c r =
       ((c =? col) && (r =? ROWS - 1 - h)) || placed_at b c r) /\
    height b' col (h + 1) /\
    board_wf b' /\ gravity b' /\ selects b' pos col.
Proof.
  intros WF G Sel H Lt Hfuel.
  assert (Hc : 0 <= col < COLUMNS) by apply Sel.
  assert (Hh : 0 <= h) by (destruct H; lia).
  destruct (place_coin_lowest_empty fuel b player pos col (ROWS - 1 - h)
              WF Sel (height_lowest_empty b col h H Lt) Hfuel)
    as [coin0 [G0 E]].
  destruct WF as [L [LR [Rows Fields]]].
  destruct (Fields col (ROWS - 1 - h) coin0) as [F1 F2];
    [lia | lia | assumption |].
  pose proof (conj L (conj LR (conj Rows Fields))) as WF.
  exists (Coin.place coin0 (Player.colour player)).
  exists (Board.store_coin b col (ROWS - 1 - h)
            (Coin.place coin0 (Player.colour player))).
  split; [exact E |]. split.
  { unfold Coin.cell. simpl. now rewrite F1, F2. }
  split; [reflexivity |]. split; [reflexivity |]. split.
  { intros c r Hc0 Hr0. apply store_coin_placed_at; auto; lia. }
  split; [now apply store_coin_height |]. split.
  { apply store_coin_wf; auto; lia. }
  split; [now apply store_coin_gravity |].
  eapply selects_same_ranges; [apply store_coin_ranges | assumption].
Qed.

(** [n] drops into a column of height [h] with [h + n <= ROWS]. *)
Lemma drop_all_fills (fuel : nat) pos col turns : forall b h,
  board_wf b -> gravity b -> selects b pos col -> height b col h ->
  h + Z.of_nat (length turns) <= ROWS -> (scan_bound <= fuel)%nat ->
  exists coins b',
    drop_all fuel b turns pos = Ret (map Some coins, b') /\
    map Coin.cell coins =
      map (fun i : nat => (col, ROWS - 1 - h - Z.of_nat i))
          (seq 0 (length turns)) /\
    height b' col (h + Z.of_nat (length turns)) /\
    board_wf b' /\ gravity b'.
Proof.
  induction turns as [| player rest IH]; intros b h WF G Sel H Room Hfuel.
  - exists [], b. simpl. rewrite Z.add_0_r. auto.
  - cbn [length] in Room.
    destruct (place_coin_drop fuel b player pos col h WF G Sel H)
      as [coin [b1 [E [Cell [_ [_ [_ [H1 [WF1 [G1 Sel1]]]]]]]]]];
      [lia | assumption |].
    destruct (IH b1 (h + 1) WF1 G1 Sel1 H1) as [coins [b' [E' [Cells [H' [WF' G']]]]]];
      [lia | assumption |].
    exists (coin :: coins), b'. split; [| split; [| split]].
    + cbn [drop_all]. rewrite E. cbn [bind fst snd]. rewrite E'. reflexivity.
    + cbn [length seq map]. rewrite Cell, Cells. f_equal; [f_equal; lia |].
      rewrite <- seq_shift, map_map. apply map_ext. intros i. f_equal. lia.
    + replace (h + Z.of_nat (length (player :: rest)))
        with (h + 1 + Z.of_nat (length rest)) by (cbn [length]; lia).
      assumption.
    + auto.
Qed.

(** C3. On a well-formed board that satisfies the gravity invariant, for a
    position that selects column [col]:
    - if the column is not full, [place_coin] returns the coin of the lowest
      unoccupied cell of the column (the greatest row whose coin is not
      placed), marks that cell and no other, and the board still satisfies
      the invariant: in every column the occupied cells are a contiguous
      block from row [ROWS - 1] upward;
    - [n] placements into a column that holds [h] coins, with room for all,
      return the cells of rows [ROWS-1-h], [ROWS-2-h], ... in this order and
      leave the column with [h + n] coins and no gap. *)
Theorem place_coin_gravity (fuel : nat) b player pos col turns :
  board_wf b -> gravity b -> selects b pos col ->
  (scan_bound <= fuel)%nat ->
  (~ column_full b col ->
     exists row coin b',
       Board.place_coin fuel b player pos
       = Ret (Some coin, b', Player.place_coin player coin) /\
       lowest_empty b col row /\
       Coin.cell coin = (col, row) /\
       Coin.placed coin = true /\
       (forall c r, 0 <= c -> 0 <= r ->
          placed_at b' c r = ((c =? col) && (r =? row)) || placed_at b c r) /\
       board_wf b' /\ gravity b') /\
  (forall h, height b col h -> h + Z.of_nat (length turns) <= ROWS ->
     exists coins b',
       drop_all fuel b turns pos = Ret (map Some coins, b') /\
       map Coin.cell coins =
         map (fun i : nat => (col, ROWS - 1 - h - Z.of_nat i))
             (seq 0 (length turns)) /\
       height b' col (h + Z.of_nat (length turns)) /\
       board_wf b' /\ gravity b').
Proof.
  intros WF G Sel Hfuel. split.
  - intros NF.
    destruct (gravity_not_full b col G (proj1 Sel) NF) as [h [H Lt]].
    destruct (place_coin_drop fuel b player pos col h WF G Sel H Lt Hfuel)
      as [coin [b' [E [Cell [P [_ [Cells [_ [WF' [G' _]]]]]]]]]].
    exists (ROWS - 1 - h), coin, b'.
    repeat (split; [assumption || (now apply height_lowest_empty) |]).
    assumption.
  - intros h H Room. now apply drop_all_fills.
Qed.

End Gravity.

(* ================================================================== *)
(** * The board of Board.__init__ *)

Lemma py_range_length n : length (py_range n) = Z.to_nat n.
Proof. unfold py_range. now rewrite length_map, length_seq. Qed.

Lemma nth_error_py_range n (i : nat) :
  nth_error (py_range n) i =
  if (i <? Z.to_nat n)%nat then Some (Z.of_nat i) else None.
Proof.
  unfold py_range. rewrite nth_error_map.
  destruct (i <? Z.to_nat n)%nat eqn:E.
  - apply Nat.ltb_lt in E.
    rewrite (nth_error_nth' _ O) by (now rewrite length_seq).
    now rewrite seq_nth.
  - apply Nat.ltb_ge in E.
    assert (N : nth_error (seq 0 (Z.to_nat n)) i = None)
      by (apply nth_error_None; now rewrite length_seq).
    now rewrite N.
Qed.

Section InitialBoard.
Context {K : Constants}.

Lemma init_coin_of col row coin :
  0 <= col -> 0 <= row -> coin_of Board.init col row = Some coin ->
  Coin.col coin = col /\ Coin.row coin = row /\ Coin.placed coin = false.
Proof.
  intros Hc Hr. unfold coin_of, Board.init. cbn [Board.coins].
  rewrite nth_error_map, nth_error_py_range.
  destruct (_ <? _)%nat; [| discriminate]. cbn [option_map].
  rewrite nth_error_map, nth_error_py_range.
  destruct (_ <? _)%nat; [| discriminate]. cbn [option_map].
  intros E. inversion E; subst coin. cbn. repeat split; lia.
Qed.

Lemma init_placed_at col row :
  0 <= col -> 0 <= row -> placed_at Board.init col row = false.
Proof.
  intros Hc Hr. unfold placed_at.
  destruct (coin_of Board.init col row) as [coin |] eqn:E; [| reflexivity].
  now apply init_coin_of in E.
Qed.

Lemma init_wf : 0 <= ROWS -> 0 <= COLUMNS -> board_wf Board.init.
Proof.
  intros HR HC. repeat split.
  - unfold Board.init. cbn [Board.coins].
    rewrite length_map, py_range_length. lia.
  - unfold Board.init. cbn [Board.col_ranges].
    rewrite length_map, py_range_length. lia.
  - intros column. unfold Board.init. cbn [Board.coins].
    intros Hin. apply in_map_iff in Hin. destruct Hin as [col [<- _]].
    rewrite length_map, py_range_length. lia.
  - now apply (init_coin_of col row coin).
  - now apply (init_coin_of col row coin).
Qed.

Lemma init_gravity : 0 <= ROWS -> gravity Board.init.
Proof.
  intros HR col Hc. exists 0. split; [lia |]. intros row Hr.
  rewrite init_placed_at by lia. split; [discriminate | lia].
Qed.

Lemma init_range col :
  0 <= col < COLUMNS ->
  nth_error (Board.col_ranges Board.init) (Z.to_nat col) =
  Some ((col + 1) * ((COIN_RADIUS + 1) * 2),
        (col + 2) * ((COIN_RADIUS + 1) * 2)).
Proof.
  intros Hc. unfold Board.init. cbn [Board.col_ranges].
  rewrite nth_error_map, nth_error_py_range.
  assert (E : (Z.to_nat col <? Z.to_nat COLUMNS)%nat = true)
    by (apply Nat.ltb_lt; lia).
  rewrite E. cbn [option_map]. now rewrite Z2Nat.id by lia.
Qed.

(** A position inside the pixel range of a column selects that column. *)
Lemma init_selects pos col :
  0 <= COIN_RADIUS -> 0 <= col < COLUMNS ->
  (col + 1) * ((COIN_RADIUS + 1) * 2) <= fst pos
    < (col + 2) * ((COIN_RADIUS + 1) * 2) ->
  selects Board.init pos col.
Proof.
  intros HRad Hc Hpos. split; [assumption |]. split.
  - eexists. split; [apply init_range; assumption |].
    unfold Board.in_range. cbn [fst snd].
    apply andb_true_iff. split; [apply Z.leb_le | apply Z.ltb_lt]; lia.
  - intros col' r Hc' Hr. rewrite init_range in Hr by lia.
    inversion Hr; subst r. unfold Board.in_range. cbn [fst snd].
    apply andb_false_iff. right. apply Z.ltb_ge. nia.
Qed.

End InitialBoard.

(** A concrete run of C3 on the board of the module: three coins dropped
    into the empty column 2 land in rows 5, 4 and 3. *)
Lemma place_coin_gravity_witness :
  let A := Player.init "A" (255, 0, 0) in
  let B := Player.init "B" (255, 255, 0) in
  let b := Board.init (K := classic) in
  let pos := (310, 40) in
  (exists row coin b',
     Board.place_coin (K := classic) 8 b A pos
     = Ret (Some coin, b', Player.place_coin A coin) /\
     lowest_empty (K := classic) b 2 row /\
     Coin.cell coin = (2, row) /\
     Coin.placed coin = true /\
     (forall c r, 0 <= c -> 0 <= r ->
        placed_at b' c r = ((c =? 2) && (r =? row)) || placed_at b c r) /\
     board_wf (K := classic) b' /\ gravity (K := classic) b') /\
  (exists coins b',
     drop_all (K := classic) 8 b [A; B; A] pos = Ret (map Some coins, b') /\
     map Coin.cell coins = [(2, 5); (2, 4); (2, 3)] /\
     height (K := classic) b' 2 3 /\
     board_wf (K := classic) b' /\ gravity (K := classic) b').
Proof.
  intros A B b pos.
  assert (WF : board_wf (K := classic) b) by (apply init_wf; simpl; lia).
  assert (G : gravity (K := classic) b) by (apply init_gravity; simpl; lia).
  assert (Sel : selects (K := classic) b pos 2)
    by (apply init_selects; simpl; lia).
  assert (Hfuel : (scan_bound (K := classic) <= 8)%nat)
    by (vm_compute; lia).
  destruct (place_coin_gravity (K := classic) 8 b A pos 2 [A; B; A]
              WF G Sel Hfuel) as [Single Many].
  split.
  - apply Single. intros Full.
    assert (F : placed_at b 2 5 = true)
      by (apply Full; simpl; lia).
    vm_compute in F. discriminate F.
  - apply (Many 0).
    + split; [simpl; lia |]. intros row Hr.
      rewrite (init_placed_at (K := classic)) by lia.
      simpl in *. split; [discriminate | lia].
    + simpl. lia.
Defined.

(* ================================================================== *)
(** * The event loop *)

Section EventLoop.
Context {K : Constants}.

Lemma event_loop_from_app (fuel : nat) evs more : forall st printed,
  Connect4.event_loop_from fuel (evs ++ more) st printed =
  (r <- Connect4.event_loop_from fuel evs st printed ;;
   match r with
   | Connect4.Polling st' printed' =>
       Connect4.event_loop_from fuel more st' printed'
   | Connect4.Finished _ _ _ => Ret r
   end).
Proof.
  induction evs as [| ev evs IH]; intros st printed; [reflexivity |].
  cbn [app Connect4.event_loop_from].
  destruct (Connect4.loop_body fuel st ev) as [[st' out | msg st'] | e |];
    cbn [bind]; auto.
Qed.

(** C4. On a well-formed board, a click whose position lies in no column's
    range, or in the range of a column whose cells are all placed, makes
    [Board.place_coin] return no coin and leave the board and the player as
    they are; the event loop prints its message and goes on in the very same
    state: same board, same players and mappings, same current player, same
    count of moves, and the game still running. *)
Theorem failed_move_changes_nothing (fuel : nat) (st : Connect4.state) pos :
  let b := Connect4.board (Connect4.game st) in
  let player := Connect4.current (Connect4.game st) (Connect4.cur_player st) in
  0 < ROWS -> board_wf b -> (scan_bound <= fuel)%nat ->
  selects_nothing b pos \/ (exists col, selects b pos col /\ column_full b col) ->
  Board.place_coin fuel b player pos = Ret (None, b, player) /\
  Connect4.loop_body fuel st (Connect4.MOUSEBUTTONUP pos)
  = Ret (Connect4.Continue st [Connect4.invalid_column_message]) /\
  forall rest printed,
    Connect4.event_loop_from fuel (Connect4.MOUSEBUTTONUP pos :: rest)
      st printed
    = Connect4.event_loop_from fuel rest st
        (printed ++ [Connect4.invalid_column_message]).
Proof.
  intros b player HR WF Hfuel Bad.
  assert (E : Board.place_coin fuel b player pos = Ret (None, b, player)).
  { destruct Bad as [None | [col [Sel Full]]].
    - now apply place_coin_selects_nothing.
    - now apply (place_coin_column_full fuel b player pos col). }
  assert (B : Connect4.loop_body fuel st (Connect4.MOUSEBUTTONUP pos)
              = Ret (Connect4.Continue st [Connect4.invalid_column_message])).
  { unfold Connect4.loop_body. fold b. fold player. rewrite E. reflexivity. }
  split; [exact E |]. split; [exact B |].
  intros rest printed. cbn [Connect4.event_loop_from]. rewrite B. reflexivity.
Qed.

(** The step of the loop for an accepted move that wins nothing and brings
    the count of moves to [COLUMNS * ROWS]. *)
Lemma loop_body_tie (fuel : nat) (st : Connect4.state) pos coin b' player' :
  let g := Connect4.game st in
  Board.place_coin fuel (Connect4.board g)
    (Connect4.current g (Connect4.cur_player st)) pos
  = Ret (Some coin, b', player') ->
  Player.has_win fuel player' coin = Ret false ->
  Connect4.moves_made st + 1 = COLUMNS * ROWS ->
  Connect4.loop_body fuel st (Connect4.MOUSEBUTTONUP pos)
  = Ret (Connect4.Break Connect4.tie_message
           (Connect4.mkState
              (Connect4.mk b'
                 (Connect4.store_player (Connect4.players g)
                    (Connect4.cur_player st) player'))
              (Connect4.cur_player st) (COLUMNS * ROWS))).
Proof.
  intros g E W Full. unfold Connect4.loop_body. fold g. rewrite E.
  cbn [bind]. rewrite W. cbn [bind]. rewrite Full, Z.eqb_refl. reflexivity.
Qed.

(** C6. Once [_event_loop] has left its loop (a win, a tie, or the window
    closed), no later event is looked at: whatever events follow, the end
    message, the board, the players, the current player, the count of moves
    and the printed lines stay what they were. *)
Theorem finished_is_absorbing (fuel : nat) evs more st printed
    end_message st' printed' :
  Connect4.event_loop_from fuel evs st printed
  = Ret (Connect4.Finished end_message st' printed') ->
  Connect4.event_loop_from fuel (evs ++ more) st printed
  = Ret (Connect4.Finished end_message st' printed').
Proof.
  intros H. rewrite event_loop_from_app, H. reflexivity.
Qed.

End EventLoop.

(* ================================================================== *)
(** * What an accepted move does to the board *)

Section AcceptedMove.
Context {K : Constants}.

Lemma column_scan_result b pos :
  forall (fuel : nat) col c, 0 <= col ->
  while fuel (Board.column_cond b pos) (fun col => Ret (col + 1)) col = Ret c ->
  col <= c /\ (c < COLUMNS \/ c = col \/ c = COLUMNS).
Proof.
  induction fuel as [| fuel IH]; intros col c Hcol; [discriminate |].
  rewrite while_S. unfold Board.column_cond.
  destruct (Z.ltb_spec col COLUMNS) as [Lt | Ge].
  - destruct (py_index (Board.col_ranges b) col) as [r | e |]; cbn [bind];
      try discriminate.
    destruct (negb (Board.in_range (fst pos) r)); cbn [bind].
    + intros H. apply IH in H; [| lia]. lia.
    + intros H. inversion H; subst. lia.
  - cbn [bind]. intros H. inversion H; subst. lia.
Qed.

Lemma row_scan_result (column : list Coin.t) :
  forall (fuel : nat) row coin r c,
  -1 <= row -> (0 <= row -> nth_error column (Z.to_nat row) = Some coin) ->
  while fuel Board.row_cond (Board.row_body column) (row, coin) = Ret (r, c) ->
  -1 <= r <= row /\
  (0 <= r -> nth_error column (Z.to_nat r) = Some c /\ Coin.placed c = false).
Proof.
  induction fuel as [| fuel IH]; intros row coin r c Hrow Hcoin;
    [discriminate |].
  rewrite while_S. unfold Board.row_cond. cbn [fst snd bind].
  destruct (Z.gtb_spec row (-1)) as [Gt | Le]; cbn [andb].
  - destruct (Coin.placed coin) eqn:P.
    + unfold Board.row_body. cbn [fst snd].
      destruct (py_index column (row - 1)) as [coin' | e |] eqn:E;
        cbn [bind]; try discriminate.
      intros H.
      apply IH in H; [| lia | intros Hnn; now apply py_index_Ret_nonneg].
      destruct H as [H1 H2]. split; [lia | exact H2].
    + intros H. inversion H; subst. split; [lia |].
      intros _. split; [apply Hcoin; lia | assumption].
  - intros H. inversion H; subst. split; [lia |]. intros Hnn. lia.
Qed.

(** An accepted move marks one coin that was not placed, stores it at its
    place in the board, and records it for the player. *)
Lemma place_coin_accepted (fuel : nat) b player pos coin b' player' :
  board_wf b ->
  Board.place_coin fuel b player pos = Ret (Some coin, b', player') ->
  exists col row coin0,
    0 <= col < COLUMNS /\ 0 <= row < ROWS /\
    coin_of b col row = Some coin0 /\ Coin.placed coin0 = false /\
    coin = Coin.place coin0 (Player.colour player) /\
    b' = Board.store_coin b col row coin /\
    player' = Player.place_coin player coin.
Proof.
  intros WF. unfold Board.place_coin.
  destruct (while fuel (Board.column_cond b pos) _ 0) as [col | e |] eqn:W;
    cbn [bind]; try discriminate.
  apply column_scan_result in W; [| lia].
  destruct (Z.eqb_spec col COLUMNS) as [-> | N]; [discriminate |].
  assert (Hc : 0 <= col < COLUMNS) by (destruct WF as [L _]; lia).
  destruct (wf_column b col WF Hc) as [column [G Len]].
  rewrite (py_index_nonneg _ _ _ (proj1 Hc) G). cbn [bind].
  destruct (py_index column (ROWS - 1)) as [coin1 | e |] eqn:E1;
    cbn [bind]; try discriminate.
  destruct (while fuel Board.row_cond _ (ROWS - 1, coin1))
    as [[row coin0] | e |] eqn:W2; cbn [bind fst snd]; try discriminate.
  destruct (Z.eqb_spec row (-1)) as [-> | N1]; [discriminate |].
  intros H. inversion H; subst coin b' player'. clear H.
  assert (HR : 0 < ROWS).
  { destruct (Z_lt_le_dec 0 ROWS) as [? | Le]; [assumption |].
    assert (L0 : length column = O) by lia.
    assert (R0 : ROWS = 0) by lia.
    destruct column; [| discriminate].
    rewrite R0 in E1. vm_compute in E1. discriminate E1. }
  apply row_scan_result in W2; [| lia |].
  - destruct W2 as [Hrow Hcoin0].
    destruct Hcoin0 as [Hcoin0 Free]; [lia |].
    exists col, row, coin0. repeat split; try lia; try assumption.
    unfold coin_of. now rewrite G.
  - intros _. apply py_index_Ret_nonneg; [lia | assumption].
Qed.

End AcceptedMove.

(* ================================================================== *)
(** * Counting the placed coins *)

Lemma replace_nth_split {A : Type} (l : list A) (n : nat) a v :
  nth_error l n = Some a ->
  exists l1 l2, l = l1 ++ a :: l2 /\
                firstn n l ++ v :: skipn (S n) l = l1 ++ v :: l2.
Proof.
  intros H. destruct (nth_error_split l n H) as [l1 [l2 [E L]]].
  exists l1, l2. split; [assumption |]. subst l n.
  rewrite firstn_app, firstn_all, Nat.sub_diag. cbn [firstn].
  rewrite app_nil_r. f_equal. f_equal.
  rewrite skipn_app, skipn_all2 by lia.
  replace (S (length l1) - length l1)%nat with 1%nat by lia. reflexivity.
Qed.

Lemma placed_count_app l1 l2 :
  placed_count (l1 ++ l2) = (placed_count l1 + placed_count l2)%nat.
Proof. unfold placed_count. now rewrite filter_app, length_app. Qed.

Lemma placed_count_le column : (placed_count column <= length column)%nat.
Proof. apply filter_length_le. Qed.

Lemma placed_count_all column :
  placed_count column = length column <->
  forall c, In c column -> Coin.placed c = true.
Proof.
  unfold placed_count. induction column as [| c column IH]; simpl.
  - split; [intros _ x [] | reflexivity].
  - pose proof (filter_length_le Coin.placed column) as Le.
    destruct (Coin.placed c) eqn:P; simpl.
    + split.
      * intros H x [<- | Hx]; [assumption |]. apply IH; [lia | assumption].
      * intros H. f_equal. apply IH. intros x Hx. apply H. now right.
    + split; [lia |]. intros H. specialize (H c (or_introl eq_refl)).
      congruence.
Qed.

Lemma list_sum_map_le {A : Type} (f : A -> nat) (n : nat) (l : list A) :
  (forall x, In x l -> (f x <= n)%nat) ->
  (list_sum (map f l) <= length l * n)%nat /\
  (list_sum (map f l) = (length l * n)%nat <->
   forall x, In x l -> f x = n).
Proof.
  induction l as [| a l IH]; intros H; simpl.
  - split; [lia |]. split; [intros _ x [] | reflexivity].
  - destruct IH as [Le Iff]; [intros x Hx; apply H; now right |].
    pose proof (H a (or_introl eq_refl)) as Ha.
    split; [lia |]. split.
    + intros E x [<- | Hx]; [lia |]. apply Iff; [lia | assumption].
    + intros All. rewrite (All a (or_introl eq_refl)).
      f_equal. apply Iff. intros x Hx. apply All. now right.
Qed.

Section Counting.
Context {K : Constants}.

Lemma count_placed_store b col row coin0 coin :
  board_wf b -> 0 <= col < COLUMNS -> 0 <= row < ROWS ->
  coin_of b col row = Some coin0 -> Coin.placed coin0 = false ->
  Coin.placed coin = true ->
  count_placed (Board.store_coin b col row coin) = count_placed b + 1.
Proof.
  intros WF Hc Hr G0 Free P.
  destruct (wf_column b col WF Hc) as [column [G Len]].
  unfold coin_of in G0. rewrite G in G0.
  unfold count_placed, Board.store_coin.
  rewrite (py_index_nonneg _ _ _ (proj1 Hc) G). cbn [Board.coins].
  destruct WF as [L _].
  rewrite (py_update_nonneg (Board.coins b)) by lia.
  rewrite (py_update_nonneg column) by lia.
  destruct (replace_nth_split column (Z.to_nat row) coin0 coin G0)
    as [r1 [r2 [Er ->]]].
  destruct (replace_nth_split (Board.coins b) (Z.to_nat col) column
              (r1 ++ coin :: r2) G) as [c1 [c2 [Ec ->]]].
  rewrite Ec, !map_app, !list_sum_app. cbn [map list_sum].
  rewrite Er, !placed_count_app.
  change (coin0 :: r2) with ([coin0] ++ r2).
  change (coin :: r2) with ([coin] ++ r2).
  rewrite !placed_count_app.
  assert (E0 : placed_count [coin0] = O)
    by (unfold placed_count; cbn [filter]; now rewrite Free).
  assert (E1 : placed_count [coin] = 1%nat)
    by (unfold placed_count; cbn [filter]; now rewrite P).
  rewrite E0, E1. cbn [list_sum fold_right]. lia.
Qed.

Lemma wf_column_full b col column :
  board_wf b -> 0 <= col < COLUMNS ->
  nth_error (Board.coins b) (Z.to_nat col) = Some column ->
  (column_full b col <-> forall c, In c column -> Coin.placed c = true).
Proof.
  intros [L [_ [Rows _]]] Hc G.
  assert (Len : Z.of_nat (length column) = ROWS)
    by (apply Rows; eapply nth_error_In; eassumption).
  split.
  - intros Full c Hin. apply In_nth_error in Hin. destruct Hin as [n Hn].
    assert (n < length column)%nat by (apply nth_error_Some; congruence).
    specialize (Full (Z.of_nat n) ltac:(lia)).
    unfold placed_at, coin_of in Full.
    now rewrite G, Nat2Z.id, Hn in Full.
  - intros All row Hr. unfold placed_at, coin_of. rewrite G.
    destruct (nth_error_in_range column row) as [c Hcn]; [lia |].
    rewrite Hcn. apply All. eapply nth_error_In; eassumption.
Qed.

(** On a well-formed board, every cell is occupied exactly when the number
    of placed coins is [COLUMNS * ROWS]. *)
Lemma board_full_count b :
  board_wf b -> (board_full b <-> count_placed b = COLUMNS * ROWS).
Proof.
  intros WF. assert (WF0 := WF). destruct WF as [L [_ [Rows _]]].
  assert (Bound : forall column, In column (Board.coins b) ->
                    (placed_count column <= Z.to_nat ROWS)%nat).
  { intros column Hin. pose proof (placed_count_le column).
    specialize (Rows column Hin). lia. }
  destruct (list_sum_map_le placed_count (Z.to_nat ROWS) (Board.coins b) Bound)
    as [Le Iff].
  assert (E : count_placed b = COLUMNS * ROWS <->
              list_sum (map placed_count (Board.coins b))
              = (length (Board.coins b) * Z.to_nat ROWS)%nat).
  { unfold count_placed.
    assert (0 <= ROWS \/ Board.coins b = []).
    { destruct (Board.coins b) as [| column rest] eqn:Ec; [now right |].
      left. specialize (Rows column (or_introl eq_refl)). lia. }
    destruct H as [HR | Hnil].
    - split; intros H; nia.
    - rewrite Hnil in *. simpl in *. split; intros; lia. }
  rewrite E, Iff. split.
  - intros Full column Hin. specialize (Rows column Hin).
    apply In_nth_error in Hin. destruct Hin as [n Hn].
    assert (n < length (Board.coins b))%nat
      by (apply nth_error_Some; congruence).
    assert (Hc : 0 <= Z.of_nat n < COLUMNS) by lia.
    assert (G : nth_error (Board.coins b) (Z.to_nat (Z.of_nat n))
                = Some column) by (now rewrite Nat2Z.id).
    pose proof (proj1 (wf_column_full b _ column WF0 Hc G) (Full _ Hc)) as A.
    apply placed_count_all in A. lia.
  - intros All col Hc.
    destruct (wf_column b col WF0 Hc) as [column [G Len]].
    apply (wf_column_full b col column WF0 Hc G).
    apply placed_count_all. rewrite All by (eapply nth_error_In; eassumption).
    lia.
Qed.

End Counting.

(* ================================================================== *)
(** * The count of moves *)

Section MovesMade.
Context {K : Constants}.

Lemma check_values_passes :
  check_values = Ret tt <-> 0 < COIN_RADIUS /\ 0 < ROWS /\ 0 < COLUMNS.
Proof.
  unfold check_values.
  destruct (Z.gtb_spec COIN_RADIUS 0), (Z.gtb_spec ROWS 0),
    (Z.gtb_spec COLUMNS 0); cbn [andb negb];
    split; intros Chk; try discriminate; try reflexivity; lia.
Qed.

Lemma placed_count_unplaced {A : Type} (f : A -> Coin.t) (l : list A) :
  (forall x, Coin.placed (f x) = false) -> placed_count (map f l) = O.
Proof.
  intros H. unfold placed_count. induction l as [| x l IH]; [reflexivity |].
  cbn [map filter]. now rewrite H.
Qed.

Lemma init_count_placed : count_placed Board.init = 0.
Proof.
  unfold count_placed.
  destruct (list_sum_map_le placed_count O (Board.coins Board.init))
    as [Le _].
  - intros column Hin. unfold Board.init in Hin. cbn [Board.coins] in Hin.
    apply in_map_iff in Hin. destruct Hin as [col [<- _]].
    rewrite placed_count_unplaced; [lia | reflexivity].
  - lia.
Qed.

Lemma initial_counted players :
  0 <= ROWS -> 0 <= COLUMNS ->
  counted (Connect4.mkState (Connect4.init Board.init players) false 0).
Proof.
  intros HR HC. split; cbn.
  - now apply init_wf.
  - apply init_count_placed.
Qed.

Lemma place_coin_counted (fuel : nat) b player pos coin b' player' :
  board_wf b ->
  Board.place_coin fuel b player pos = Ret (Some coin, b', player') ->
  board_wf b' /\ count_placed b' = count_placed b + 1.
Proof.
  intros WF E.
  destruct (place_coin_accepted fuel b player pos coin b' player' WF E)
    as [col [row [coin0 [Hc [Hr [G0 [Free [-> [-> _]]]]]]]]].
  assert (WF0 := WF). destruct WF as [_ [_ [_ Fields]]].
  destruct (Fields col row coin0) as [F1 F2]; [lia | lia | assumption |].
  split.
  - apply store_coin_wf; assumption.
  - now apply (count_placed_store b col row coin0).
Qed.

Lemma loop_body_counted (fuel : nat) st ev st' out :
  counted st ->
  Connect4.loop_body fuel st ev = Ret (Connect4.Continue st' out) ->
  counted st'.
Proof.
  intros [WF Cnt]. unfold Connect4.loop_body. destruct ev as [| pos |].
  - discriminate.
  - destruct (Board.place_coin fuel _ _ pos) as [[[coin b'] player'] | e |]
      eqn:E; cbn [bind]; try discriminate.
    destruct coin as [coin |].
    + destruct (place_coin_counted fuel _ _ pos coin b' player' WF E)
        as [WF' Cnt'].
      destruct (Player.has_win fuel player' coin) as [won | e |];
        cbn [bind]; try discriminate.
      destruct won; [discriminate |].
      destruct (_ =? _); [discriminate |].
      intros H. inversion H; subst st' out. split; cbn; [assumption | lia].
    + intros H. inversion H; subst. now split.
  - intros H. inversion H; subst. now split.
Qed.

Lemma event_loop_counted (fuel : nat) evs : forall st printed st' printed',
  counted st ->
  Connect4.event_loop_from fuel evs st printed
  = Ret (Connect4.Polling st' printed') ->
  counted st'.
Proof.
  induction evs as [| ev evs IH]; intros st printed st' printed' C.
  - cbn. intros H. inversion H; subst. assumption.
  - cbn [Connect4.event_loop_from].
    destruct (Connect4.loop_body fuel st ev) as [[st1 out | msg st1] | e |]
      eqn:B; cbn [bind]; try discriminate.
    apply IH. eapply loop_body_counted; eassumption.
Qed.

Lemma main_polling (fuel : nat) players evs st printed :
  main fuel players evs = Ret (Connect4.Polling st printed) ->
  check_values = Ret tt /\
  Connect4.event_loop_from fuel evs
    (Connect4.mkState (Connect4.init Board.init players) false 0) []
  = Ret (Connect4.Polling st printed).
Proof.
  unfold main. destruct check_values as [[] | e |]; cbn [bind];
    try discriminate.
  intros H. split; [reflexivity | exact H].
Qed.

(** C5. In a game started by [__main__] and still running after the events
    so far, let a click be accepted and let [has_win] answer [False] for its
    coin.  Every cell of the board is then occupied exactly when the count of
    moves reaches [COLUMNS * ROWS], and in that case the loop ends with the
    tie message: the game is a tie, not a win. *)
Theorem full_board_is_tie (fuel : nat) players evs st printed pos
    coin b' player' :
  let g := Connect4.game st in
  main fuel players evs = Ret (Connect4.Polling st printed) ->
  Board.place_coin fuel (Connect4.board g)
    (Connect4.current g (Connect4.cur_player st)) pos
  = Ret (Some coin, b', player') ->
  Player.has_win fuel player' coin = Ret false ->
  (board_full b' <-> Connect4.moves_made st + 1 = COLUMNS * ROWS) /\
  (Connect4.moves_made st + 1 = COLUMNS * ROWS ->
   main fuel players (evs ++ [Connect4.MOUSEBUTTONUP pos])
   = Ret (Connect4.Finished Connect4.tie_message
            (Connect4.mkState
               (Connect4.mk b'
                  (Connect4.store_player (Connect4.players g)
                     (Connect4.cur_player st) player'))
               (Connect4.cur_player st) (COLUMNS * ROWS))
            (printed ++ [Connect4.tie_message]))).
Proof.
  intros g M E W. destruct (main_polling _ _ _ _ _ M) as [Chk Run].
  apply check_values_passes in Chk.
  assert (C : counted st).
  { eapply event_loop_counted; [| exact Run].
    apply initial_counted; lia. }
  destruct C as [WF Cnt]. fold g in WF, Cnt.
  destruct (place_coin_counted fuel _ _ pos coin b' player' WF E)
    as [WF' Cnt'].
  split.
  - rewrite (board_full_count b' WF'). lia.
  - intros Full. unfold main.
    destruct check_values as [[] | e |] eqn:Chk'; cbn [bind];
      try (apply check_values_passes in Chk; discriminate).
    + unfold Connect4.play, Connect4._event_loop.
      rewrite event_loop_from_app, Run. cbn [bind Connect4.event_loop_from].
      rewrite (loop_body_tie fuel st pos coin b' player' E W Full).
      reflexivity.
    + exfalso. apply check_values_passes in Chk. congruence.
    + exfalso. apply check_values_passes in Chk. congruence.
Qed.

End MovesMade.

(* ================================================================== *)
(** * Concrete games on the board of the module *)

(** A concrete run of C4: a click left of the first column, at the start of
    a game. *)
Lemma failed_move_changes_nothing_witness :
  let A := Player.init "A" (255, 0, 0) in
  let B := Player.init "B" (255, 255, 0) in
  let st := Connect4.mkState
              (Connect4.init (Board.init (K := classic)) (A, B)) false 0 in
  Board.place_coin (K := classic) 8 (Board.init (K := classic)) A (5, 0)
  = Ret (None, Board.init (K := classic), A) /\
  Connect4.loop_body (K := classic) 8 st (Connect4.MOUSEBUTTONUP (5, 0))
  = Ret (Connect4.Continue st [Connect4.invalid_column_message]) /\
  forall rest printed,
    Connect4.event_loop_from (K := classic) 8
      (Connect4.MOUSEBUTTONUP (5, 0) :: rest) st printed
    = Connect4.event_loop_from (K := classic) 8 rest st
        (printed ++ [Connect4.invalid_column_message]).
Proof.
  intros A B st.
  apply (failed_move_changes_nothing (K := classic) 8 st (5, 0)).
  - reflexivity.
  - apply (init_wf (K := classic)); simpl; lia.
  - vm_compute. lia.
  - left. intros col r Hc Hr.
    rewrite (init_range (K := classic)) in Hr by assumption.
    inversion Hr; subst r. unfold Board.in_range. cbn [fst snd].
    apply andb_false_iff. left. apply Z.leb_gt. simpl in *. lia.
Defined.

(** A concrete run of C5: the board of the module filled column by column;
    the last click, into column 6, ends the game as a tie. *)
Lemma full_board_is_tie_witness :
  let A := Player.init "A" (255, 0, 0) in
  let B := Player.init "B" (255, 255, 0) in
  exists st printed,
    main (K := classic) 50 (A, B)
      (removelast (column_by_column (K := classic))
       ++ [Connect4.MOUSEBUTTONUP (714, 0)])
    = Ret (Connect4.Finished Connect4.tie_message st printed) /\
    Connect4.moves_made st = 42.
Proof.
  intros A B.
  destruct (main (K := classic) 50 (A, B)
              (removelast (column_by_column (K := classic))))
    as [[st printed | msg st printed] | e |] eqn:M;
    try (vm_compute in M; discriminate M).
  destruct (Board.place_coin (K := classic) 50
              (Connect4.board (Connect4.game st))
              (Connect4.current (Connect4.game st) (Connect4.cur_player st))
              (714, 0))
    as [[[[coin |] b'] player'] | e |] eqn:E;
    try (vm_compute in M; inversion M; subst st;
         vm_compute in E; discriminate E).
  destruct (Player.has_win 50 player' coin) as [[|] | e |] eqn:W;
    try (vm_compute in M; inversion M; subst st;
         vm_compute in E; inversion E; subst player' coin;
         vm_compute in W; discriminate W).
  destruct (full_board_is_tie (K := classic) 50 (A, B) _ st printed
              (714, 0) coin b' player' M E W) as [_ Tie].
  eexists. eexists. split.
  - apply Tie. vm_compute in M. inversion M. reflexivity.
  - reflexivity.
Defined.

(** A concrete run of C6: after the tie of the filled board, a further click
    and a closed window change nothing. *)
Lemma finished_is_absorbing_witness :
  let A := Player.init "A" (255, 0, 0) in
  let B := Player.init "B" (255, 255, 0) in
  let st := Connect4.mkState
              (Connect4.init (Board.init (K := classic)) (A, B)) false 0 in
  exists st' printed',
    Connect4.event_loop_from (K := classic) 50
      (column_by_column (K := classic)) st []
    = Ret (Connect4.Finished Connect4.tie_message st' printed') /\
    Connect4.event_loop_from (K := classic) 50
      (column_by_column (K := classic)
       ++ [click (K := classic) 0; Connect4.QUIT]) st []
    = Ret (Connect4.Finished Connect4.tie_message st' printed').
Proof.
  intros A B st.
  destruct (Connect4.event_loop_from (K := classic) 50
              (column_by_column (K := classic)) st [])
    as [[st' printed' | msg st' printed'] | e |] eqn:R;
    try (vm_compute in R; discriminate R).
  assert (msg = Connect4.tie_message)
    by (vm_compute in R; inversion R; reflexivity).
  subst msg. exists st', printed'. split; [reflexivity |].
  apply (finished_is_absorbing (K := classic) 50 _ _ st [] _ st' printed' R).
Defined.

(* ================================================================== *)
(** * The start-up check *)

(** With 6 rows and 7 columns, both positive, and a coin radius of 0 the
    [__main__] block raises [InvalidValueError] and starts no game: positive
    numbers of rows and columns are not enough for start-up to succeed. *)
Lemma positive_rows_columns_rejected :
  let K0 := {| COIN_RADIUS := 0; ROWS := 6; COLUMNS := 7 |} in
  0 < ROWS (Constants := K0) /\ 0 < COLUMNS (Constants := K0) /\
  check_values (K := K0) = Raise (InvalidValueError radius_message) /\
  forall (fuel : nat) players evs,
    main (K := K0) fuel players evs
    = Raise (InvalidValueError radius_message).
Proof.
  intros K0. repeat split.
Qed.

Section StartUp.
Context {K : Constants}.

(** C8, as the code has it.  The values checked at start-up are the coin
    radius, the number of rows and the number of columns.  If all three are
    positive the check passes and the game is played; otherwise
    [InvalidValueError] is raised, no game is started, and the message
    names exactly the offending values. *)
Theorem check_values_validates :
  (0 < COIN_RADIUS /\ 0 < ROWS /\ 0 < COLUMNS ->
     check_values = Ret tt /\
     forall (fuel : nat) players evs,
       main fuel players evs
       = Connect4.play fuel (Connect4.init Board.init players) evs) /\
  (~ (0 < COIN_RADIUS /\ 0 < ROWS /\ 0 < COLUMNS) ->
     exists message,
       check_values = Raise (InvalidValueError message) /\
       (forall (fuel : nat) players evs,
          main fuel players evs = Raise (InvalidValueError message)) /\
       mentions "coin radius" message = (COIN_RADIUS <=? 0) /\
       mentions "number of rows" message = (ROWS <=? 0) /\
       mentions "number of columns" message = (COLUMNS <=? 0)).
Proof.
  split.
  - intros Pos. apply check_values_passes in Pos. split; [exact Pos |].
    intros fuel players evs. unfold main. now rewrite Pos.
  - intros Bad. unfold main, check_values, InvalidValueError_init.
    destruct (Z.gtb_spec COIN_RADIUS 0) as [R | R],
             (Z.gtb_spec ROWS 0) as [W | W],
             (Z.gtb_spec COLUMNS 0) as [C | C];
      try (exfalso; apply Bad; lia); cbn [andb negb bind];
      repeat match goal with
             | |- context [?x <=? 0] =>
                 let E := fresh "E" in
                 first [ assert (E : (x <=? 0) = true) by (apply Z.leb_le; lia)
                       | assert (E : (x <=? 0) = false) by (apply Z.leb_gt; lia) ];
                 rewrite !E
             end;
      eexists; (split; [reflexivity |]); (split; [reflexivity |]);
      repeat split; vm_compute; reflexivity.
Qed.

End StartUp.

(** A concrete run of C8: the values of the module pass the check; with 0
    rows and -1 columns the message names the rows and the columns and not
    the radius. *)
Lemma check_values_validates_witness :
  check_values (K := classic) = Ret tt /\
  exists message,
    check_values (K := {| COIN_RADIUS := 50; ROWS := 0; COLUMNS := -1 |})
    = Raise (InvalidValueError message) /\
    mentions "coin radius" message = false /\
    mentions "number of rows" message = true /\
    mentions "number of columns" message = true.
Proof.
  split.
  - apply (check_values_validates (K := classic)). simpl. lia.
  - destruct (check_values_validates
                (K := {| COIN_RADIUS := 50; ROWS := 0; COLUMNS := -1 |}))
      as [_ Bad].
    destruct Bad as [message [E [_ [M1 [M2 M3]]]]]; [simpl; lia |].
    exists message. repeat split; assumption.
Defined.

(* ================================================================== *)
(** * get_player *)

Lemma colour_in_In colour colours :
  colour_in colour colours = true <-> In colour colours.
Proof.
  unfold colour_in. rewrite existsb_exists. split.
  - intros [c [Hc E]]. apply String.eqb_eq in E. now subst.
  - intros H. exists colour. split; [assumption | apply String.eqb_refl].
Qed.

Lemma ask_colour_done colours : forall stdin colour chosen rest,
  ask_colour colours colour stdin = Done (chosen, rest) ->
  exists tried, colour :: stdin = tried ++ chosen :: rest /\
                (forall t, In t tried -> ~ In t colours) /\
                In chosen colours.
Proof.
  induction stdin as [| line stdin IH]; intros colour chosen rest; simpl.
  - destruct (colour_in colour colours) eqn:E; [| discriminate].
    intros H. inversion H; subst. exists []. repeat split; auto.
    now apply colour_in_In.
  - destruct (colour_in colour colours) eqn:E.
    + intros H. inversion H; subst. exists []. repeat split; auto.
      now apply colour_in_In.
    + intros H. apply IH in H. destruct H as [tried [E1 [E2 E3]]].
      exists (colour :: tried). rewrite E1. repeat split; auto.
      intros t [<- | Ht]; [| now apply E2].
      intros Hin. apply colour_in_In in Hin. congruence.
Qed.

Lemma ask_colour_failed colours : forall stdin colour e,
  ask_colour colours colour stdin = Failed e ->
  e = EOFError /\ forall t, In t (colour :: stdin) -> ~ In t colours.
Proof.
  induction stdin as [| line stdin IH]; intros colour e; simpl.
  - destruct (colour_in colour colours) eqn:E; [discriminate |].
    intros H. inversion H. split; [reflexivity |].
    intros t [<- | []] Hin. apply colour_in_In in Hin. congruence.
  - destruct (colour_in colour colours) eqn:E; [discriminate |].
    intros H. apply IH in H. destruct H as [-> Hall].
    split; [reflexivity |]. intros t [<- | Ht]; [| now apply Hall].
    intros Hin. apply colour_in_In in Hin. congruence.
Qed.

Lemma list_remove_length colour colours :
  In colour colours ->
  S (length (list_remove colour colours)) = length colours.
Proof.
  induction colours as [| c colours IH]; simpl; [tauto |].
  intros H. destruct (String.eqb_spec colour c) as [-> | N]; [reflexivity |].
  simpl. f_equal. apply IH. destruct H; [congruence | assumption].
Qed.

Lemma list_remove_In colour colours x :
  NoDup colours ->
  (In x (list_remove colour colours) <-> In x colours /\ x <> colour).
Proof.
  induction colours as [| c colours IH]; simpl; intros ND; [tauto |].
  inversion ND as [| ? ? Hc ND']; subst.
  destruct (String.eqb_spec colour c) as [-> | N].
  - split.
    + intros H. split; [now right |]. intros ->. contradiction.
    + intros [[-> | H] Hx]; [congruence | assumption].
  - simpl. rewrite (IH ND'). split.
    + intros [-> | [H Hx]]; [split; [now left | congruence] | tauto].
    + intros [[-> | H] Hx]; [now left | right; tauto].
Qed.

(** The player and the list of colours a successful [get_player] leaves. *)
Lemma get_player_done id_num colours stdin player colours' rest :
  get_player id_num colours stdin = Done (player, colours', rest) ->
  exists name colour c,
    In colour colours /\ colours_get COLOURS colour = Some c /\
    player = Player.mk name c [] /\
    colours' = list_remove colour colours.
Proof.
  unfold get_player. destruct stdin as [| name [| colour stdin2]];
    try discriminate.
  destruct (ask_colour colours colour stdin2) as [[chosen stdin3] | e] eqn:A;
    [| discriminate].
  unfold new_player.
  destruct (colours_get COLOURS chosen) as [c |] eqn:G; [| discriminate].
  intros H. inversion H; subst player colours' rest.
  destruct (ask_colour_done _ _ _ _ _ A) as [_ [_ [_ E3]]].
  exists name, chosen, c. auto.
Qed.

(** X1. What a successful [get_player] has done: the first line is the name; of
    the following lines, the first one that is in [colours] is the colour
    and every line before it was refused; the player is new, with this name,
    the colour that [COLOURS] gives for the colour name, and no moves; the
    chosen name is taken out of [colours] once, and the unread lines are
    returned. *)
Theorem get_player_chooses id_num colours stdin player colours' rest :
  get_player id_num colours stdin = Done (player, colours', rest) ->
  exists name tried colour c,
    stdin = name :: tried ++ colour :: rest /\
    (forall t, In t tried -> ~ In t colours) /\
    In colour colours /\
    colours_get COLOURS colour = Some c /\
    player = Player.mk name c [] /\
    colours' = list_remove colour colours /\
    S (length colours') = length colours /\
    (NoDup colours ->
       forall x, In x colours' <-> In x colours /\ x <> colour).
Proof.
  unfold get_player. destruct stdin as [| name [| colour stdin2]];
    try discriminate.
  destruct (ask_colour colours colour stdin2) as [[chosen stdin3] | e] eqn:A;
    [| discriminate].
  unfold new_player.
  destruct (colours_get COLOURS chosen) as [c |] eqn:G; [| discriminate].
  intros H. inversion H; subst player colours' rest. clear H.
  destruct (ask_colour_done _ _ _ _ _ A) as [tried [E1 [E2 E3]]].
  exists name, tried, chosen, c. rewrite E1.
  split; [reflexivity |]. split; [assumption |]. split; [assumption |].
  split; [assumption |]. split; [reflexivity |]. split; [reflexivity |].
  split.
  - now apply list_remove_length.
  - intros ND x. now apply list_remove_In.
Qed.

(** A concrete run: "pink" is refused, "blue" is taken. *)
Lemma get_player_chooses_witness :
  exists name tried colour c,
    ["Ann"; "pink"; "blue"; "left over"]%string
    = name :: tried ++ colour :: ["left over"%string] /\
    (forall t, In t tried -> ~ In t ["red"; "blue"]%string) /\
    In colour ["red"; "blue"]%string /\
    colours_get COLOURS colour = Some c /\
    Player.mk "Ann" (2, 145, 247) [] = Player.mk name c [] /\
    ["red"%string] = list_remove colour ["red"; "blue"]%string /\
    S (length ["red"%string]) = length ["red"; "blue"]%string /\
    (NoDup ["red"; "blue"]%string ->
       forall x, In x ["red"%string]
                 <-> In x ["red"; "blue"]%string /\ x <> colour).
Proof.
  apply (get_player_chooses 1 ["red"; "blue"]%string
           ["Ann"; "pink"; "blue"; "left over"]%string).
  reflexivity.
Defined.

(** X2. When every name of [colours] is a key of [COLOURS], [get_player] returns
    a player as soon as a line after the name is in [colours], and raises
    [EOFError] (and nothing else) when no such line comes. *)
Theorem get_player_needs_a_listed_colour id_num colours stdin :
  (forall colour, In colour colours -> colours_get COLOURS colour <> None) ->
  ((exists line, In line (tl stdin) /\ In line colours) ->
     exists r, get_player id_num colours stdin = Done r) /\
  ((forall line, In line (tl stdin) -> ~ In line colours) ->
     get_player id_num colours stdin = Failed EOFError).
Proof.
  intros Known. unfold get_player. split.
  - intros [line [Hline Hin]].
    destruct stdin as [| name [| colour stdin2]]; simpl in Hline;
      try contradiction.
    destruct (ask_colour colours colour stdin2) as [[chosen stdin3] | e] eqn:A.
    + destruct (ask_colour_done _ _ _ _ _ A) as [_ [_ [_ Hc]]].
      unfold new_player. specialize (Known chosen Hc).
      destruct (colours_get COLOURS chosen); [eauto | congruence].
    + apply ask_colour_failed in A. destruct A as [_ Hall].
      exfalso. exact (Hall line Hline Hin).
  - intros None.
    destruct stdin as [| name [| colour stdin2]]; try reflexivity.
    destruct (ask_colour colours colour stdin2) as [[chosen stdin3] | e] eqn:A.
    + destruct (ask_colour_done _ _ _ _ _ A) as [tried [E [_ Hc]]].
      exfalso. apply (None chosen); [| assumption].
      change (In chosen (colour :: stdin2)). rewrite E.
      apply in_app_iff. right. now left.
    + apply ask_colour_failed in A. destruct A as [-> _]. reflexivity.
Qed.

(** A concrete run on the colour names of the module: "green" is listed,
    and a console that only offers "pink" runs dry. *)
Lemma get_player_needs_a_listed_colour_witness :
  (exists r, get_player 1 (map fst COLOURS) ["Ann"; "pink"; "green"]%string
             = Done r) /\
  get_player 1 (map fst COLOURS) ["Ann"; "pink"; "pink"]%string
  = Failed EOFError.
Proof.
  assert (Known : forall colour, In colour (map fst COLOURS) ->
                    colours_get COLOURS colour <> None).
  { intros colour Hin. simpl in Hin.
    repeat (destruct Hin as [<- | Hin]; [discriminate |]). contradiction. }
  split.
  - apply (get_player_needs_a_listed_colour 1 (map fst COLOURS)
             ["Ann"; "pink"; "green"]%string Known).
    exists "green"%string. split; simpl; auto 20.
  - apply (get_player_needs_a_listed_colour 1 (map fst COLOURS)
             ["Ann"; "pink"; "pink"]%string Known).
    intros line Hline Hin. simpl in Hline, Hin.
    destruct Hline as [<- | [<- | []]];
      repeat (destruct Hin as [Hin | Hin]; [discriminate Hin |]);
      contradiction.
Defined.

(* ================================================================== *)
(** * The table of colours and the two players of a game *)

Lemma colours_get_In table name c :
  colours_get table name = Some c -> In (name, c) table.
Proof.
  induction table as [| [n v] table IH]; simpl; [discriminate |].
  destruct (String.eqb_spec n name) as [-> | N].
  - intros H. inversion H. now left.
  - intros H. right. now apply IH.
Qed.

Lemma colours_get_key table name :
  In name (map fst table) -> colours_get table name <> None.
Proof.
  induction table as [| [n v] table IH]; simpl; [tauto |].
  intros H. destruct (String.eqb_spec n name) as [-> | N]; [discriminate |].
  apply IH. destruct H; [contradiction | assumption].
Qed.

Lemma NoDup_snd_injective {A B : Type} (l : list (A * B)) a1 a2 b :
  NoDup (map snd l) -> In (a1, b) l -> In (a2, b) l ->
  NoDup (map fst l) -> a1 = a2.
Proof.
  induction l as [| [a0 b0] l IH]; simpl; intros ND H1 H2 NDf; [contradiction |].
  inversion ND as [| ? ? Hb ND']; subst.
  inversion NDf as [| ? ? Ha NDf']; subst.
  destruct H1 as [H1 | H1], H2 as [H2 | H2].
  - congruence.
  - inversion H1; subst. exfalso. apply Hb.
    change b with (snd (a2, b)). now apply in_map.
  - inversion H2; subst. exfalso. apply Hb.
    change b with (snd (a1, b)). now apply in_map.
  - now apply IH.
Qed.

Lemma COLOURS_names_distinct : NoDup (map fst COLOURS).
Proof.
  simpl. repeat (constructor; [simpl; intuition discriminate |]). constructor.
Qed.

Lemma COLOURS_values_distinct : NoDup (map snd COLOURS).
Proof.
  simpl. repeat (constructor; [simpl; intuition discriminate |]). constructor.
Qed.

Lemma COLOURS_not_gray_black name c :
  In (name, c) COLOURS -> c <> GRAY /\ c <> BLACK.
Proof.
  simpl. intros H.
  repeat (destruct H as [H | H];
          [inversion H; subst; split; discriminate |]).
  contradiction.
Qed.

Section Seats.
Context {K : Constants}.

(** X3. When the start-up check passes, the [__main__] block can only end
    before the game by [EOFError]; otherwise it plays the game of [main] with
    two new players that have no moves and two different colours of the
    table, neither of them the gray of an empty cell nor the black of the
    background. *)
Theorem program_seats_two_players (fuel : nat) stdin events :
  check_values = Ret tt ->
  (forall e, program fuel stdin events = SetupFailed e -> e = EOFError) /\
  (forall r, program fuel stdin events = Played r ->
     exists player1 player2,
       r = main fuel (player1, player2) events /\
       Player._moves player1 = [] /\ Player._moves player2 = [] /\
       Player.colour player1 <> Player.colour player2 /\
       Player.colour player1 <> GRAY /\ Player.colour player1 <> BLACK /\
       Player.colour player2 <> GRAY /\ Player.colour player2 <> BLACK).
Proof.
  intros Chk. unfold program, main. rewrite Chk. cbn [bind].
  assert (Known : forall colour, In colour (map fst COLOURS) ->
                    colours_get COLOURS colour <> None)
    by (intros colour; apply colours_get_key).
  destruct (get_player 1 (map fst COLOURS) stdin)
    as [[[player1 colours1] stdin1] | e1] eqn:G1.
  - destruct (get_player_done _ _ _ _ _ _ G1)
      as [name1 [colour1 [c1 [In1 [Get1 [-> E1]]]]]].
    assert (Rem1 : forall x, In x colours1 <->
                     In x (map fst COLOURS) /\ x <> colour1)
      by (intros x; rewrite E1;
          apply list_remove_In, COLOURS_names_distinct).
    assert (Known1 : forall colour, In colour colours1 ->
                       colours_get COLOURS colour <> None).
    { intros colour Hin. apply Known. now apply Rem1 in Hin. }
    destruct (get_player 2 colours1 stdin1)
      as [[[player2 colours2] stdin2] | e2] eqn:G2.
    + destruct (get_player_done _ _ _ _ _ _ G2)
        as [name2 [colour2 [c2 [In2 [Get2 [-> _]]]]]].
      split; [discriminate |]. intros r H. inversion H; subst r.
      exists (Player.mk name1 c1 []), (Player.mk name2 c2 []).
      apply colours_get_In in Get1, Get2.
      destruct (COLOURS_not_gray_black _ _ Get1) as [A1 A2].
      destruct (COLOURS_not_gray_black _ _ Get2) as [B1 B2].
      repeat split; auto. cbn. intros ->.
      apply Rem1 in In2. destruct In2 as [_ N]. apply N.
      apply (NoDup_snd_injective COLOURS colour2 colour1 c2);
        auto using COLOURS_values_distinct, COLOURS_names_distinct.
    + split; [| discriminate]. intros e H. inversion H; subst e.
      destruct e2 as [| colour]; [reflexivity |]. exfalso.
      unfold get_player in G2.
      destruct stdin1 as [| n [| c s]]; try discriminate.
      destruct (ask_colour colours1 c s) as [[chosen s3] | e] eqn:A.
      * destruct (ask_colour_done _ _ _ _ _ A) as [_ [_ [_ Hc]]].
        unfold new_player in G2. specialize (Known1 chosen Hc).
        destruct (colours_get COLOURS chosen); [discriminate | congruence].
      * apply ask_colour_failed in A. destruct A as [-> _]. discriminate.
  - split; [| discriminate]. intros e H. inversion H; subst e.
    destruct e1 as [| colour]; [reflexivity |]. exfalso.
    unfold get_player in G1.
    destruct stdin as [| n [| c s]]; try discriminate.
    destruct (ask_colour (map fst COLOURS) c s) as [[chosen s3] | e] eqn:A.
    + destruct (ask_colour_done _ _ _ _ _ A) as [_ [_ [_ Hc]]].
      unfold new_player in G1. specialize (Known chosen Hc).
      destruct (colours_get COLOURS chosen); [discriminate | congruence].
    + apply ask_colour_failed in A. destruct A as [-> _]. discriminate.
Qed.

End Seats.

(** A concrete run on the values of the module: the second player asks for
    "red", which is taken, and then for "blue". *)
Lemma program_seats_two_players_witness :
  (forall e,
     program (K := classic) 50 ["Ann"; "red"; "Bob"; "red"; "blue"]%string []
     = SetupFailed e -> e = EOFError) /\
  (forall r,
     program (K := classic) 50 ["Ann"; "red"; "Bob"; "red"; "blue"]%string []
     = Played r ->
     exists player1 player2,
       r = main (K := classic) 50 (player1, player2) [] /\
       Player._moves player1 = [] /\ Player._moves player2 = [] /\
       Player.colour player1 <> Player.colour player2 /\
       Player.colour player1 <> GRAY /\ Player.colour player1 <> BLACK /\
       Player.colour player2 <> GRAY /\ Player.colour player2 <> BLACK).
Proof.
  apply (program_seats_two_players (K := classic) 50
           ["Ann"; "red"; "Bob"; "red"; "blue"]%string []).
  reflexivity.
Defined.

(* ================================================================== *)
(** * The layout of a new board *)

Section Layout.
Context {K : Constants}.

Lemma init_coin_of_cell col row :
  0 <= col < COLUMNS -> 0 <= row < ROWS ->
  coin_of Board.init col row =
  Some (Coin.mk row col
          ((col + 1) * ((COIN_RADIUS + 1) * 2) + (COIN_RADIUS + 1) * 2 / 2)
          ((row + 1) * ((COIN_RADIUS + 1) * 2) + (COIN_RADIUS + 1) * 2 / 2)
          GRAY false).
Proof.
  intros Hc Hr. unfold coin_of, Board.init. cbn [Board.coins].
  rewrite nth_error_map, nth_error_py_range.
  assert (E1 : (Z.to_nat col <? Z.to_nat COLUMNS)%nat = true)
    by (apply Nat.ltb_lt; lia).
  rewrite E1. cbn [option_map].
  rewrite nth_error_map, nth_error_py_range.
  assert (E2 : (Z.to_nat row <? Z.to_nat ROWS)%nat = true)
    by (apply Nat.ltb_lt; lia).
  rewrite E2. cbn [option_map]. unfold Coin.init.
  now rewrite !Z2Nat.id by lia.
Qed.

Lemma half_square : (COIN_RADIUS + 1) * 2 / 2 = COIN_RADIUS + 1.
Proof. apply Z.div_mul. lia. Qed.

(** X4. [Board.__init__] builds the board its docstring describes: [COLUMNS]
    lists of [ROWS] coins and [COLUMNS] pixel ranges; [coins[col][row]] is
    the coin of row [row] and column [col], gray and not placed, centred in
    its square of side [2 * (COIN_RADIUS + 1)]; no coin is placed. *)
Theorem new_board_layout :
  0 <= ROWS -> 0 <= COLUMNS ->
  Z.of_nat (length (Board.coins Board.init)) = COLUMNS /\
  Z.of_nat (length (Board.col_ranges Board.init)) = COLUMNS /\
  (forall column, In column (Board.coins Board.init) ->
     Z.of_nat (length column) = ROWS) /\
  (forall col row, 0 <= col < COLUMNS -> 0 <= row < ROWS ->
     coin_of Board.init col row =
     Some (Coin.mk row col
             ((col + 1) * (2 * (COIN_RADIUS + 1)) + (COIN_RADIUS + 1))
             ((row + 1) * (2 * (COIN_RADIUS + 1)) + (COIN_RADIUS + 1))
             GRAY false)) /\
  (forall col, 0 <= col < COLUMNS ->
     nth_error (Board.col_ranges Board.init) (Z.to_nat col) =
     Some ((col + 1) * (2 * (COIN_RADIUS + 1)),
           (col + 2) * (2 * (COIN_RADIUS + 1)))) /\
  count_placed Board.init = 0.
Proof.
  intros HR HC. destruct (init_wf HR HC) as [L [LR [Rows _]]].
  split; [exact L |]. split; [exact LR |]. split; [exact Rows |].
  split; [| split].
  - intros col row Hc Hr. rewrite init_coin_of_cell by assumption.
    rewrite half_square. do 2 f_equal; lia.
  - intros col Hc. rewrite init_range by assumption. do 2 f_equal; lia.
  - apply init_count_placed.
Qed.

(** X5. On a new board, a position selects the column that floor division of
    its x coordinate by the side of a square gives, less one; positions left
    of the first range or right of the last select nothing. *)
Theorem new_board_column_of_click pos col :
  0 <= COIN_RADIUS ->
  (selects Board.init pos col <->
   0 <= col < COLUMNS /\ col = fst pos / (2 * (COIN_RADIUS + 1)) - 1) /\
  (selects_nothing Board.init pos <->
   ~ (2 * (COIN_RADIUS + 1) <= fst pos
      < (COLUMNS + 1) * (2 * (COIN_RADIUS + 1)))).
Proof.
  intros HRad. set (sq := 2 * (COIN_RADIUS + 1)).
  assert (Hsq : 0 < sq) by (unfold sq; lia).
  assert (Esq : (COIN_RADIUS + 1) * 2 = sq) by (unfold sq; lia).
  assert (InRange : forall c, 0 <= c < COLUMNS ->
            forall r, nth_error (Board.col_ranges Board.init) (Z.to_nat c)
                      = Some r ->
            (Board.in_range (fst pos) r = true <->
             (c + 1) * sq <= fst pos < (c + 2) * sq)).
  { intros c Hc r Hr. rewrite init_range in Hr by assumption.
    inversion Hr; subst r. unfold Board.in_range. cbn [fst snd].
    rewrite Esq, andb_true_iff, Z.leb_le, Z.ltb_lt. tauto. }
  split; split.
  - intros [Hc [[r [Hr In0]] _]]. split; [assumption |].
    apply (InRange col Hc r Hr) in In0.
    assert (fst pos / sq = col + 1); [| lia].
    symmetry. apply (Z.div_unique _ _ _ (fst pos - (col + 1) * sq)); lia.
  - intros [Hc E]. apply init_selects; try assumption. rewrite Esq.
    pose proof (Z.div_mod (fst pos) sq ltac:(lia)) as DM.
    pose proof (Z.mod_pos_bound (fst pos) sq Hsq) as MB.
    nia.
  - intros None [Lo Hi].
    assert (Hq : 1 <= fst pos / sq).
    { apply Z.div_le_lower_bound; lia. }
    assert (Hq' : fst pos / sq < COLUMNS + 1).
    { apply Z.div_lt_upper_bound; lia. }
    set (c := fst pos / sq - 1).
    assert (Hc : 0 <= c < COLUMNS) by (unfold c; lia).
    destruct (nth_error (Board.col_ranges Board.init) (Z.to_nat c))
      as [r |] eqn:Hr.
    + pose proof (None c r Hc Hr) as F.
      assert (T : Board.in_range (fst pos) r = true).
      { apply (InRange c Hc r Hr).
        pose proof (Z.div_mod (fst pos) sq ltac:(lia)) as DM.
        pose proof (Z.mod_pos_bound (fst pos) sq Hsq) as MB.
        unfold c. nia. }
      congruence.
    + rewrite init_range in Hr by assumption. discriminate.
  - intros Out c r Hc Hr.
    destruct (Board.in_range (fst pos) r) eqn:T; [| reflexivity].
    apply (InRange c Hc r Hr) in T. exfalso. apply Out. nia.
Qed.

(** X6. The circle drawn for a coin of a new board lies inside the screen of
    [WIDTH] by [HEIGHT] pixels, and a click anywhere on it (or straight above
    or below it) selects the coin's column. *)
Theorem new_board_coin_on_screen col row coin :
  0 <= COIN_RADIUS -> 0 <= col < COLUMNS -> 0 <= row < ROWS ->
  coin_of Board.init col row = Some coin ->
  0 < Coin.x_pos coin - COIN_RADIUS /\
  Coin.x_pos coin + COIN_RADIUS < WIDTH /\
  0 < Coin.y_pos coin - COIN_RADIUS /\
  Coin.y_pos coin + COIN_RADIUS < HEIGHT /\
  forall pos, Z.abs (fst pos - Coin.x_pos coin) <= COIN_RADIUS ->
    selects Board.init pos col.
Proof.
  intros HRad Hc Hr G. rewrite init_coin_of_cell in G by assumption.
  inversion G; subst coin. cbn [Coin.x_pos Coin.y_pos].
  rewrite half_square. unfold WIDTH, HEIGHT.
  split; [nia |]. split; [nia |]. split; [nia |]. split; [nia |].
  intros pos Hpos. apply init_selects; try assumption. nia.
Qed.

End Layout.

(** A concrete run on the values of the module: clicks at x = 310 and the
    bounds of the ranges. *)
Lemma new_board_column_of_click_witness :
  (selects (K := classic) (Board.init (K := classic)) (310, 0) 2 <->
   0 <= 2 < 7 /\ 2 = 310 / (2 * (50 + 1)) - 1) /\
  (selects_nothing (K := classic) (Board.init (K := classic)) (310, 0) <->
   ~ (2 * (50 + 1) <= 310 < (7 + 1) * (2 * (50 + 1)))).
Proof.
  apply (new_board_column_of_click (K := classic) (310, 0) 2).
  simpl. lia.
Defined.

Lemma new_board_layout_witness :
  Z.of_nat (length (Board.coins (Board.init (K := classic)))) = 7 /\
  coin_of (Board.init (K := classic)) 2 5
  = Some (Coin.mk 5 2 357 663 GRAY false) /\
  nth_error (Board.col_ranges (Board.init (K := classic))) 2
  = Some (306, 408) /\
  count_placed (Board.init (K := classic)) = 0.
Proof.
  destruct (new_board_layout (K := classic)) as [L [_ [_ [Cells [Ranges Cnt]]]]];
    [simpl; lia | simpl; lia |].
  split; [exact L |]. split; [| split; [| exact Cnt]].
  - apply (Cells 2 5); simpl; lia.
  - apply (Ranges 2); simpl; lia.
Defined.

Lemma new_board_coin_on_screen_witness :
  0 < 357 - 50 /\ 357 + 50 < WIDTH (K := classic) /\
  0 < 663 - 50 /\ 663 + 50 < HEIGHT (K := classic) /\
  forall pos, Z.abs (fst pos - 357) <= 50 ->
    selects (K := classic) (Board.init (K := classic)) pos 2.
Proof.
  apply (new_board_coin_on_screen (K := classic) 2 5
           (Coin.mk 5 2 357 663 GRAY false)).
  - simpl. lia.
  - simpl. lia.
  - simpl. lia.
  - reflexivity.
Defined.

(* ================================================================== *)
(** * The mapping of a player during a game *)

Lemma exact_closed m : adjacency_exact m -> keys_closed m.
Proof. intros X k l x G Hin. now apply (X k l G x) in Hin. Qed.

Lemma record_move_lists_distinct m c :
  NoDup (dict_keys m) -> keys_closed m -> ~ In c (dict_keys m) ->
  lists_distinct m -> lists_distinct (Player.record_move m c).
Proof.
  intros ND C New LD k l Hget.
  destruct (coord_eq_dec k c) as [-> | N].
  - rewrite record_move_get_new in Hget. inversion Hget; subst l.
    now apply NoDup_filter.
  - rewrite record_move_get_other in Hget by assumption.
    destruct (Player.near c k).
    + destruct (dict_get m k) as [l0 |] eqn:G; simpl in Hget; [| discriminate].
      inversion Hget; subst l.
      apply NoDup_app; [now apply (LD k) | repeat constructor; auto |].
      intros x Hx [<- | []]. apply New. eapply C; eassumption.
    + now apply (LD k).
Qed.

Lemma tracker_ok_place (p : Player.t) (coin : Coin.t) :
  tracker_ok p -> ~ In (Coin.cell coin) (recorded p) ->
  tracker_ok (Player.place_coin p coin) /\
  recorded (Player.place_coin p coin) = recorded p ++ [Coin.cell coin].
Proof.
  intros [ND [X LD]] New. unfold tracker_ok, recorded in *. cbn.
  split; [split; [| split] |].
  - now apply record_move_NoDup.
  - now apply record_move_exact.
  - apply record_move_lists_distinct; auto using exact_closed.
  - now apply record_move_keys_new.
Qed.

Lemma tracker_ok_new name colour : tracker_ok (Player.mk name colour []).
Proof.
  split; [| split].
  - constructor.
  - apply adjacency_exact_empty.
  - intros k l H. discriminate.
Qed.

Lemma within1_around k x : within1 k x = true -> x <> k -> In x (around k).
Proof.
  unfold within1. rewrite andb_true_iff, !Z.leb_le. intros [H1 H2] N.
  destruct x as [x1 x2], k as [k1 k2]. cbn [fst snd] in *. unfold around.
  cbn [fst snd].
  assert (C1 : x1 = k1 - 1 \/ x1 = k1 \/ x1 = k1 + 1) by lia.
  assert (C2 : x2 = k2 - 1 \/ x2 = k2 \/ x2 = k2 + 1) by lia.
  destruct C1 as [-> | [-> | ->]], C2 as [-> | [-> | ->]];
    simpl; auto 10; congruence.
Qed.

Lemma tracker_list_bound m k l :
  adjacency_exact m -> lists_distinct m -> dict_get m k = Some l ->
  (length l <= 8)%nat.
Proof.
  intros X LD G.
  apply (NoDup_incl_length (l' := around k) (LD k l G)).
  intros x Hx. apply (X k l G) in Hx. destruct Hx as [_ [N W]].
  now apply within1_around.
Qed.

(* ================================================================== *)
(** * Every click is either refused or a drop *)

Section Clicks.
Context {K : Constants}.

Lemma selects_or_not b pos :
  board_wf b -> selects_nothing b pos \/ exists col, selects b pos col.
Proof.
  intros WF.
  assert (P : forall n : nat, Z.of_nat n <= COLUMNS ->
            (forall col r, 0 <= col < Z.of_nat n ->
               nth_error (Board.col_ranges b) (Z.to_nat col) = Some r ->
               Board.in_range (fst pos) r = false) \/
            exists col, selects b pos col).
  { induction n as [| n IH]; intros Hn.
    - left. intros col r Hc. lia.
    - destruct IH as [Before | Found]; [lia | | now right].
      destruct (wf_range b (Z.of_nat n) WF) as [r Hr]; [lia |].
      destruct (Board.in_range (fst pos) r) eqn:E.
      + right. exists (Z.of_nat n). split; [lia |]. split; [eauto |].
        intros col' r' Hc'. apply Before. lia.
      + left. intros col r' Hc Hr'.
        destruct (Z.eq_dec col (Z.of_nat n)) as [-> | N].
        * congruence.
        * apply (Before col); [lia | assumption]. }
  assert (HC : 0 <= COLUMNS) by (destruct WF as [L _]; lia).
  destruct (P (Z.to_nat COLUMNS)) as [None | Found]; [lia | | now right].
  left. intros col r Hc. apply None. lia.
Qed.

Lemma count_placed_le b : board_wf b -> count_placed b <= COLUMNS * ROWS.
Proof.
  intros [L [_ [Rows _]]]. unfold count_placed.
  destruct (Board.coins b) as [| column rest] eqn:Ec.
  - simpl in *. lia.
  - assert (HR : Z.of_nat (length column) = ROWS)
      by (apply Rows; now left).
    destruct (list_sum_map_le placed_count (Z.to_nat ROWS) (column :: rest))
      as [Le _].
    + intros c Hin. pose proof (placed_count_le c).
      specialize (Rows c Hin). lia.
    + nia.
Qed.

(** On a well-formed board with gravity a click is refused, leaving all as
    it was, or drops a coin on top of the selected column. *)
Lemma place_coin_cases (fuel : nat) b player pos :
  0 < ROWS -> board_wf b -> gravity b -> (scan_bound <= fuel)%nat ->
  Board.place_coin fuel b player pos = Ret (None, b, player) \/
  exists col h coin0,
    selects b pos col /\ height b col h /\ h < ROWS /\
    coin_of b col (ROWS - 1 - h) = Some coin0 /\
    Coin.placed coin0 = false /\
    Board.place_coin fuel b player pos =
    Ret (Some (Coin.place coin0 (Player.colour player)),
         Board.store_coin b col (ROWS - 1 - h)
           (Coin.place coin0 (Player.colour player)),
         Player.place_coin player
           (Coin.place coin0 (Player.colour player))).
Proof.
  intros HR WF G Hfuel.
  destruct (selects_or_not b pos WF) as [None | [col Sel]].
  - left. now apply place_coin_selects_nothing.
  - destruct (G col (proj1 Sel)) as [h H].
    destruct (Z.eq_dec h ROWS) as [-> | N].
    + left. apply (place_coin_column_full fuel b player pos col); auto.
      now apply height_full.
    + assert (Lt : h < ROWS) by (destruct H; lia).
      pose proof (height_lowest_empty b col h H Lt) as Low.
      destruct (place_coin_lowest_empty fuel b player pos col _
                  WF Sel Low Hfuel) as [coin0 [G0 E]].
      right. exists col, h, coin0.
      split; [exact Sel |]. split; [exact H |]. split; [exact Lt |].
      split; [exact G0 |]. split; [| exact E].
      destruct Low as [_ [Free _]]. unfold placed_at in Free.
      now rewrite G0 in Free.
Qed.

End Clicks.

(* ================================================================== *)
(** * What a drop does to the board and to the player who moves *)

Section Drop.
Context {K : Constants}.
Variables (b : Board.t) (p q : Player.t) (col h : Z) (coin0 : Coin.t).
Let row := ROWS - 1 - h.
Let coin := Coin.place coin0 (Player.colour p).
Let b' := Board.store_coin b col row coin.
Let p' := Player.place_coin p coin.

Hypothesis WF : board_wf b.
Hypothesis Hc : 0 <= col < COLUMNS.
Hypothesis Hh : 0 <= h < ROWS.
Hypothesis G0 : coin_of b col row = Some coin0.
Hypothesis Free : Coin.placed coin0 = false.

Lemma drop_cell : Coin.cell coin = (col, row).
Proof.
  destruct WF as [_ [_ [_ Fields]]].
  destruct (Fields col row coin0) as [F1 F2];
    [lia | unfold row; lia | exact G0 |].
  unfold Coin.cell, coin. simpl. now rewrite F1, F2.
Qed.

Lemma drop_coin_of col' row' :
  0 <= col' -> 0 <= row' ->
  coin_of b' col' row' =
  if (col' =? col) && (row' =? row) then Some coin else coin_of b col' row'.
Proof.
  intros H1 H2. apply store_coin_coin_of; auto. unfold row. lia.
Qed.

Lemma drop_new_cell (r : Player.t) : owns b r -> ~ In (col, row) (recorded r).
Proof.
  intros O Hin. destruct (O _ Hin) as [_ [_ [c [Gc [P _]]]]].
  cbn [fst snd] in Gc. congruence.
Qed.

Lemma drop_tracker :
  tracker_ok p -> owns b p ->
  tracker_ok p' /\ recorded p' = recorded p ++ [(col, row)].
Proof.
  intros T O. rewrite <- drop_cell. apply tracker_ok_place; [assumption |].
  rewrite drop_cell. now apply drop_new_cell.
Qed.

Lemma drop_owns_mover : tracker_ok p -> owns b p -> owns b' p'.
Proof.
  intros T O k Hin. destruct (drop_tracker T O) as [_ E].
  rewrite E in Hin. apply in_app_iff in Hin.
  destruct Hin as [Hin | [<- | []]].
  - destruct (O k Hin) as [B1 [B2 [c [Gc [P C]]]]].
    split; [assumption |]. split; [assumption |].
    rewrite drop_coin_of by lia.
    destruct ((fst k =? col) && (snd k =? row)).
    + exists coin. repeat split.
    + exists c. auto.
  - cbn [fst snd]. split; [assumption |]. split; [unfold row; lia |].
    rewrite drop_coin_of by (unfold row; lia).
    rewrite !Z.eqb_refl. exists coin. repeat split.
Qed.

Lemma drop_owns_other : owns b q -> owns b' q.
Proof.
  intros O k Hin. destruct (O k Hin) as [B1 [B2 [c [Gc [P C]]]]].
  split; [assumption |]. split; [assumption |].
  rewrite drop_coin_of by lia.
  destruct ((fst k =? col) && (snd k =? row)) eqn:E.
  - apply andb_true_iff in E. destruct E as [E1 E2].
    apply Z.eqb_eq in E1, E2. rewrite E1, E2 in Gc. congruence.
  - exists c. auto.
Qed.

Lemma drop_count : count_placed b' = count_placed b + 1.
Proof.
  apply (count_placed_store b col row coin0); auto. unfold row. lia.
Qed.

Lemma drop_wf : board_wf b'.
Proof.
  pose proof drop_cell as C. unfold Coin.cell in C. inversion C as [[C1 C2]].
  apply store_coin_wf; auto. unfold row. lia.
Qed.

End Drop.

Section DropPosition.
Context {K : Constants}.

Lemma drop_position seats (g : Connect4.t) (cur : bool) col h coin0 :
  position_ok seats g ->
  0 <= col < COLUMNS -> height (Connect4.board g) col h -> h < ROWS ->
  coin_of (Connect4.board g) col (ROWS - 1 - h) = Some coin0 ->
  Coin.placed coin0 = false ->
  position_ok seats
    (Connect4.mk
       (Board.store_coin (Connect4.board g) col (ROWS - 1 - h)
          (Coin.place coin0 (Player.colour (Connect4.current g cur))))
       (Connect4.store_player (Connect4.players g) cur
          (Player.place_coin (Connect4.current g cur)
             (Coin.place coin0 (Player.colour (Connect4.current g cur)))))).
Proof.
  intros [WF Gr Rg Ce Na T1 T2 O1 O2 Dj Rc Gy Ct] Hc H Lt G0 Free.
  destruct g as [b [pa pb]]. cbn [Connect4.board Connect4.players fst snd] in *.
  assert (Hh : 0 <= h < ROWS) by (destruct H; lia).
  set (row := ROWS - 1 - h) in *.
  assert (Hrow : 0 <= row < ROWS) by (unfold row; lia).
  unfold Connect4.current, Connect4.store_player.
  cbn [Connect4.players fst snd].
  set (p := if cur then pb else pa) in *.
  set (coin := Coin.place coin0 (Player.colour p)).
  assert (CO : forall col' row', 0 <= col' -> 0 <= row' ->
             coin_of (Board.store_coin b col row coin) col' row' =
             if (col' =? col) && (row' =? row) then Some coin
             else coin_of b col' row')
    by (intros; now apply (drop_coin_of b p col h coin0)).
  assert (Centres : forall col' row' c, 0 <= col' -> 0 <= row' ->
            coin_of (Board.store_coin b col row coin) col' row' = Some c ->
            exists c0, coin_of Board.init col' row' = Some c0 /\
                       Coin.x_pos c = Coin.x_pos c0 /\
                       Coin.y_pos c = Coin.y_pos c0).
  { intros col' row' c H1 H2 Gc. rewrite CO in Gc by assumption.
    destruct ((col' =? col) && (row' =? row)) eqn:E; [| now apply Ce].
    apply andb_true_iff in E. destruct E as [E1 E2].
    apply Z.eqb_eq in E1, E2. subst col' row'. inversion Gc; subst c.
    apply (Ce col row coin0); auto; lia. }
  assert (Gray : forall col' row' c, 0 <= col' -> 0 <= row' ->
            coin_of (Board.store_coin b col row coin) col' row' = Some c ->
            Coin.placed c = false -> Coin.colour c = GRAY).
  { intros col' row' c H1 H2 Gc Pc. rewrite CO in Gc by assumption.
    destruct ((col' =? col) && (row' =? row)) eqn:E; [| now apply (Gy col' row')].
    inversion Gc; subst c. discriminate Pc. }
  assert (Cnt : count_placed (Board.store_coin b col row coin)
                = count_placed b + 1)
    by (now apply (drop_count b p col h coin0)).
  assert (WF' : board_wf (Board.store_coin b col row coin))
    by (now apply (drop_wf b p col h coin0)).
  assert (Gr' : gravity (Board.store_coin b col row coin))
    by (now apply store_coin_gravity).
  assert (Rg' : Board.col_ranges (Board.store_coin b col row coin)
                = Board.col_ranges Board.init)
    by (now rewrite store_coin_ranges).
  destruct cur; subst p; cbn [fst snd].
  - (* the second player moves *)
    destruct (drop_tracker b pb col h coin0 WF Hc Hh G0 Free T2 O2)
      as [T2' E2].
    fold row in E2. fold coin in T2', E2.
    split; cbn [Connect4.board Connect4.players fst snd]; auto.
    + now apply (drop_owns_other b pb pa col h coin0).
    + now apply (drop_owns_mover b pb col h coin0).
    + intros k Ha. rewrite E2, in_app_iff. intros [Hb | [<- | []]].
      * now apply (Dj k).
      * now apply (drop_new_cell b col h coin0 G0 Free pa O1).
    + intros col' row' c H1 H2 Gc Pc. rewrite CO in Gc by assumption.
      rewrite E2, in_app_iff.
      destruct ((col' =? col) && (row' =? row)) eqn:E.
      * apply andb_true_iff in E. destruct E as [E1' E2'].
        apply Z.eqb_eq in E1', E2'. subst. right. right. now left.
      * destruct (Rc col' row' c H1 H2 Gc Pc); auto.
    + rewrite E2, length_app. cbn [length]. lia.
  - (* the first player moves *)
    destruct (drop_tracker b pa col h coin0 WF Hc Hh G0 Free T1 O1)
      as [T1' E1].
    fold row in E1. fold coin in T1', E1.
    split; cbn [Connect4.board Connect4.players fst snd]; auto.
    + now apply (drop_owns_mover b pa col h coin0).
    + now apply (drop_owns_other b pa pb col h coin0).
    + intros k. rewrite E1, in_app_iff. intros [Ha | [<- | []]].
      * now apply (Dj k).
      * now apply (drop_new_cell b col h coin0 G0 Free pb O2).
    + intros col' row' c H1 H2 Gc Pc. rewrite CO in Gc by assumption.
      rewrite E1, in_app_iff.
      destruct ((col' =? col) && (row' =? row)) eqn:E.
      * apply andb_true_iff in E. destruct E as [E1' E2'].
        apply Z.eqb_eq in E1', E2'. subst. left. right. now left.
      * destruct (Rc col' row' c H1 H2 Gc Pc); auto.
    + rewrite E1, length_app. cbn [length]. lia.
Qed.

End DropPosition.

(* ================================================================== *)
(** * One iteration of the loop, and all of them *)

Lemma has_win_returns (fuel : nat) (p : Player.t) (coin : Coin.t) :
  tracker_ok p -> In (Coin.cell coin) (recorded p) ->
  (length (recorded p) < fuel)%nat ->
  exists won, Player.has_win fuel p coin = Ret won /\
              (won = true -> (53 <= length (recorded p))%nat).
Proof.
  intros [ND [X LD]] Hin Hfuel. unfold recorded in *.
  destruct (dict_get_key _ _ Hin) as [l G].
  unfold Player.has_win, getitem. rewrite G. cbn [bind].
  destruct (Nat.lt_ge_cases (length (dict_keys (Player._moves p))) 53)
    as [Small | Big].
  - exists false. split; [| discriminate].
    apply (has_win_loop_below_53 fuel _ _ l X G Hfuel Small l (incl_refl l)).
  - destruct (has_win_loop_stable _ _ l X G l (incl_refl l)) as [won Hw].
    exists won. split; [now apply Hw | intros _; exact Big].
Qed.

Section Steps.
Context {K : Constants}.

Lemma current_store ps cur p b :
  Connect4.current (Connect4.mk b (Connect4.store_player ps cur p)) cur = p.
Proof. unfold Connect4.current, Connect4.store_player. now destruct cur. Qed.

Lemma scan_bound_game_bound :
  0 < ROWS -> 0 < COLUMNS -> (scan_bound <= game_bound)%nat.
Proof. intros HR HC. unfold scan_bound, game_bound. nia. Qed.

Lemma init_coin_gray col row coin :
  0 <= col -> 0 <= row -> coin_of Board.init col row = Some coin ->
  Coin.colour coin = GRAY.
Proof.
  intros Hc Hr. unfold coin_of, Board.init. cbn [Board.coins].
  rewrite nth_error_map, nth_error_py_range.
  destruct (_ <? _)%nat; [| discriminate]. cbn [option_map].
  rewrite nth_error_map, nth_error_py_range.
  destruct (_ <? _)%nat; [| discriminate]. cbn [option_map].
  intros E. inversion E; subst coin. reflexivity.
Qed.

Lemma initial_polling_ok seats :
  0 < ROWS -> 0 < COLUMNS ->
  Player._moves (fst seats) = [] -> Player._moves (snd seats) = [] ->
  polling_ok seats
    (Connect4.mkState (Connect4.init Board.init seats) false 0).
Proof.
  intros HR HC M1 M2. destruct seats as [[n1 c1 m1] [n2 c2 m2]].
  cbn [fst snd Player._moves] in M1, M2. subst m1 m2.
  unfold polling_ok. cbn [Connect4.game Connect4.moves_made Connect4.cur_player].
  split; [| repeat split; try reflexivity; try lia; apply init_count_placed].
  split; cbn [Connect4.init Connect4.board Connect4.players fst snd].
  - apply init_wf; lia.
  - apply init_gravity; lia.
  - reflexivity.
  - intros col row coin _ _ G. exists coin. auto.
  - auto.
  - apply tracker_ok_new.
  - apply tracker_ok_new.
  - intros k [].
  - intros k [].
  - intros k [].
  - intros col row coin Hc Hr G P.
    apply init_coin_of in G; [| assumption | assumption].
    destruct G as [_ [_ G]]. congruence.
  - intros col row coin Hc Hr G _. now apply (init_coin_gray col row).
  - now rewrite init_count_placed.
Qed.

Lemma step_ok seats (fuel : nat) st ev :
  0 < ROWS -> 0 < COLUMNS -> (game_bound <= fuel)%nat ->
  polling_ok seats st ->
  exists r, Connect4.loop_body fuel st ev = Ret r /\
    match r with
    | Connect4.Continue st' _ => polling_ok seats st'
    | Connect4.Break end_message st' =>
        position_ok seats (Connect4.game st') /\ ending_ok end_message st'
    end.
Proof.
  intros HR HC Hfuel [PO [Cnt [Room [Par Len]]]].
  pose proof (scan_bound_game_bound HR HC) as SB.
  destruct ev as [| pos |].
  - eexists. split; [reflexivity |]. split; [assumption | now left].
  - unfold Connect4.loop_body.
    set (g := Connect4.game st) in *. set (cur := Connect4.cur_player st) in *.
    set (p := Connect4.current g cur).
    destruct (place_coin_cases fuel (Connect4.board g) p pos HR
                (pos_wf _ _ PO) (pos_gravity _ _ PO) ltac:(lia))
      as [E | [col [h [coin0 [Sel [H [Lt [G0 [Free E]]]]]]]]]; rewrite E.
    + eexists. split; [reflexivity |].
      exact (conj PO (conj Cnt (conj Room (conj Par Len)))).
    + cbn [bind].
      set (coin := Coin.place coin0 (Player.colour p)) in *.
      set (b' := Board.store_coin (Connect4.board g) col (ROWS - 1 - h) coin)
        in *.
      set (p' := Player.place_coin p coin) in *.
      assert (Hc : 0 <= col < COLUMNS) by apply Sel.
      pose proof (drop_position seats g cur col h coin0 PO Hc H Lt G0 Free)
        as PO'.
      fold p in PO'. fold coin in PO'. fold b' in PO'. fold p' in PO'.
      set (g' := Connect4.mk b' (Connect4.store_player (Connect4.players g)
                                   cur p')) in *.
      assert (Hh : 0 <= h < ROWS) by (destruct H; lia).
      assert (Cnt' : count_placed b' = count_placed (Connect4.board g) + 1)
        by (apply (drop_count (Connect4.board g) p col h coin0
                     (pos_wf _ _ PO) Hc Hh G0 Free)).
      assert (Le : count_placed b' <= COLUMNS * ROWS)
        by (apply count_placed_le; apply (pos_wf _ _ PO')).
      assert (Cur' : Connect4.current g' cur = p')
        by (apply current_store).
      assert (T' : tracker_ok p').
      { rewrite <- Cur'. unfold Connect4.current.
        destruct cur; [apply (pos_tracker2 _ _ PO') | apply (pos_tracker1 _ _ PO')]. }
      assert (Tp : tracker_ok p).
      { unfold p, Connect4.current.
        destruct cur; [apply (pos_tracker2 _ _ PO) | apply (pos_tracker1 _ _ PO)]. }
      assert (Op : owns (Connect4.board g) p).
      { unfold p, Connect4.current.
        destruct cur; [apply (pos_owns2 _ _ PO) | apply (pos_owns1 _ _ PO)]. }
      assert (Rec' : recorded p' = recorded p ++ [(col, ROWS - 1 - h)])
        by (apply (drop_tracker (Connect4.board g) p col h coin0
                     (pos_wf _ _ PO) Hc Hh G0 Free Tp Op)).
      assert (Cell : Coin.cell coin = (col, ROWS - 1 - h))
        by (apply (drop_cell (Connect4.board g) p col h coin0
                     (pos_wf _ _ PO) Hc Hh G0)).
      assert (LenLe : Z.of_nat (length (recorded p')) <= count_placed b').
      { pose proof (pos_count _ _ PO') as C. cbn in C.
        unfold Connect4.store_player in C. fold b' in C.
        destruct cur; cbn [fst snd] in C; lia. }
      destruct (has_win_returns fuel p' coin T') as [won [W Big]].
      { rewrite Cell, Rec'. apply in_app_iff. right. now left. }
      { unfold game_bound in Hfuel. lia. }
      rewrite W. cbn [bind]. destruct won.
      * eexists. split; [reflexivity |]. split; [exact PO' |].
        right. right. cbn [Connect4.game Connect4.cur_player].
        fold g'. rewrite Cur'. split; [reflexivity |].
        specialize (Big eq_refl). lia.
      * destruct (Connect4.moves_made st + 1 =? COLUMNS * ROWS) eqn:Full.
        -- apply Z.eqb_eq in Full. eexists. split; [reflexivity |].
           split; [exact PO' |]. right. left.
           cbn [Connect4.game Connect4.moves_made]. fold g'.
           split; [reflexivity |]. split; [| lia].
           apply (board_full_count b' (pos_wf _ _ PO')). lia.
        -- apply Z.eqb_neq in Full. eexists. split; [reflexivity |].
           unfold polling_ok.
           cbn [Connect4.game Connect4.moves_made Connect4.cur_player].
           fold g'. split; [exact PO' |]. split; [cbn; lia |].
           split; [lia |]. split.
           ++ change (negb cur = Z.odd (Connect4.moves_made st + 1)).
              rewrite Par, Z.add_1_r, Z.odd_succ, <- Z.negb_odd.
              reflexivity.
           ++ subst g'. cbn [Connect4.players].
              unfold Connect4.store_player.
              unfold p, Connect4.current in Rec'.
              destruct cur; cbn [fst snd negb] in *;
                rewrite Rec', length_app; cbn [length]; lia.
  - eexists. split; [reflexivity |].
    exact (conj PO (conj Cnt (conj Room (conj Par Len)))).
Qed.

Lemma loop_ok seats (fuel : nat) evs : forall st printed,
  0 < ROWS -> 0 < COLUMNS -> (game_bound <= fuel)%nat ->
  polling_ok seats st ->
  exists r, Connect4.event_loop_from fuel evs st printed = Ret r /\
            run_ok seats r.
Proof.
  induction evs as [| ev evs IH]; intros st printed HR HC Hfuel P.
  - eexists. split; [reflexivity | exact P].
  - cbn [Connect4.event_loop_from].
    destruct (step_ok seats fuel st ev HR HC Hfuel P) as [r [E R]].
    rewrite E. cbn [bind]. destruct r as [st' out | msg st'].
    + now apply IH.
    + eexists. split; [reflexivity | exact R].
Qed.

Lemma main_ok seats (fuel : nat) evs :
  check_values = Ret tt ->
  Player._moves (fst seats) = [] -> Player._moves (snd seats) = [] ->
  (game_bound <= fuel)%nat ->
  exists r, main fuel seats evs = Ret r /\ run_ok seats r.
Proof.
  intros Chk M1 M2 Hfuel. unfold main. rewrite Chk. cbn [bind].
  apply check_values_passes in Chk. destruct Chk as [_ [HR HC]].
  unfold Connect4.play, Connect4._event_loop.
  apply loop_ok; auto. now apply initial_polling_ok.
Qed.

End Steps.

(* ================================================================== *)
(** * Properties of every game *)

Lemma closed_not_tie : Connect4.closed_message <> Connect4.tie_message.
Proof. discriminate. Qed.

Lemma wins_not_tie p : Connect4.wins_message p <> Connect4.tie_message.
Proof. discriminate. Qed.

Section Games.
Context {K : Constants}.

Lemma main_returns_checked (fuel : nat) seats evs r :
  main fuel seats evs = Ret r -> check_values = Ret tt.
Proof.
  unfold main. destruct check_values as [[] | e |]; cbn [bind];
    [reflexivity | discriminate | discriminate].
Qed.

Lemma main_run_ok (fuel : nat) seats evs r :
  Player._moves (fst seats) = [] -> Player._moves (snd seats) = [] ->
  (game_bound <= fuel)%nat ->
  main fuel seats evs = Ret r -> run_ok seats r.
Proof.
  intros M1 M2 Hfuel E.
  destruct (main_ok seats fuel evs (main_returns_checked _ _ _ _ E)
              M1 M2 Hfuel) as [r' [E' R]].
  congruence.
Qed.

Lemma run_position_ok seats r :
  run_ok seats r -> position_ok seats (Connect4.game (run_state r)).
Proof. destruct r; cbn; [intros [P _] | intros [P _]]; exact P. Qed.

(** X9. The game never crashes: once the start-up check has passed, for two new
    players and whatever events arrive, the event loop raises no exception
    and none of its loops runs beyond [COLUMNS * ROWS] iterations; it is
    polling or has ended. *)
Theorem game_never_crashes (fuel : nat) seats evs :
  check_values = Ret tt ->
  Player._moves (fst seats) = [] -> Player._moves (snd seats) = [] ->
  (game_bound <= fuel)%nat ->
  exists r, main fuel seats evs = Ret r.
Proof.
  intros Chk M1 M2 Hfuel.
  destruct (main_ok seats fuel evs Chk M1 M2 Hfuel) as [r [E _]]. eauto.
Qed.

(** X10. While the loop is polling, [moves_made] is the number of placed coins
    of the board and is below [COLUMNS * ROWS]: the board is not full, which
    is the precondition of [Board.place_coin]. *)
Theorem moves_made_counts_coins (fuel : nat) seats evs st printed :
  Player._moves (fst seats) = [] -> Player._moves (snd seats) = [] ->
  (game_bound <= fuel)%nat ->
  main fuel seats evs = Ret (Connect4.Polling st printed) ->
  count_placed (Connect4.board (Connect4.game st)) = Connect4.moves_made st /\
  0 <= Connect4.moves_made st < COLUMNS * ROWS /\
  ~ board_full (Connect4.board (Connect4.game st)).
Proof.
  intros M1 M2 Hfuel E.
  destruct (main_run_ok fuel seats evs _ M1 M2 Hfuel E)
    as [PO [Cnt [Room _]]].
  split; [exact Cnt |]. split.
  - split; [| exact Room]. rewrite <- Cnt. unfold count_placed. lia.
  - intros Full. apply (board_full_count _ (pos_wf _ _ PO)) in Full. lia.
Qed.

(** X11. The players take turns: while the loop is polling, the second player is
    to move exactly when the number of moves is odd, the first player has
    recorded [(moves_made + 1) // 2] cells and the second [moves_made // 2]. *)
Theorem players_alternate (fuel : nat) seats evs st printed :
  Player._moves (fst seats) = [] -> Player._moves (snd seats) = [] ->
  (game_bound <= fuel)%nat ->
  main fuel seats evs = Ret (Connect4.Polling st printed) ->
  Connect4.cur_player st = Z.odd (Connect4.moves_made st) /\
  Z.of_nat (length (recorded (fst (Connect4.players (Connect4.game st)))))
  = (Connect4.moves_made st + 1) / 2 /\
  Z.of_nat (length (recorded (snd (Connect4.players (Connect4.game st)))))
  = Connect4.moves_made st / 2.
Proof.
  intros M1 M2 Hfuel E.
  destruct (main_run_ok fuel seats evs _ M1 M2 Hfuel E)
    as [PO [Cnt [Room [Par Len]]]].
  pose proof (pos_count _ _ PO) as C. rewrite Cnt in C.
  split; [exact Par |].
  set (m := Connect4.moves_made st) in *.
  set (a := length (recorded (fst (Connect4.players (Connect4.game st))))) in *.
  set (b := length (recorded (snd (Connect4.players (Connect4.game st))))) in *.
  rewrite Par in Len. destruct (Z.odd m) eqn:O.
  - apply Z.odd_spec in O. destruct O as [k Hk].
    split; [apply (Z.div_unique _ 2 _ 0); lia
           | apply (Z.div_unique _ 2 _ 1); lia].
  - rewrite <- Z.negb_even in O. apply negb_false_iff in O.
    apply Z.even_spec in O. destruct O as [k Hk].
    split; [apply (Z.div_unique _ 2 _ 1); lia
           | apply (Z.div_unique _ 2 _ 0); lia].
Qed.

(** X12. The colours on the board tell who owns a cell: in every state of a game,
    a coin that is not placed is gray and recorded by no player, and a
    placed coin is recorded by exactly one player and has that player's
    colour. *)
Theorem coins_show_their_owner (fuel : nat) seats evs r col row coin :
  Player._moves (fst seats) = [] -> Player._moves (snd seats) = [] ->
  (game_bound <= fuel)%nat ->
  main fuel seats evs = Ret r ->
  let g := Connect4.game (run_state r) in
  0 <= col -> 0 <= row ->
  coin_of (Connect4.board g) col row = Some coin ->
  (Coin.placed coin = false ->
     Coin.colour coin = GRAY /\
     ~ In (col, row) (recorded (fst (Connect4.players g))) /\
     ~ In (col, row) (recorded (snd (Connect4.players g)))) /\
  (Coin.placed coin = true ->
     (In (col, row) (recorded (fst (Connect4.players g))) /\
      ~ In (col, row) (recorded (snd (Connect4.players g))) /\
      Coin.colour coin = Player.colour (fst seats)) \/
     (In (col, row) (recorded (snd (Connect4.players g))) /\
      ~ In (col, row) (recorded (fst (Connect4.players g))) /\
      Coin.colour coin = Player.colour (snd seats))).
Proof.
  intros M1 M2 Hfuel E g Hc Hr G.
  pose proof (run_position_ok seats r (main_run_ok fuel seats evs _ M1 M2 Hfuel E))
    as PO. fold g in PO.
  destruct (pos_names _ _ PO) as [_ [C1 [_ C2]]].
  split.
  - intros Free. split; [now apply (pos_gray _ _ PO col row) |]. split.
    + intros Hin. destruct (pos_owns1 _ _ PO _ Hin) as [_ [_ [c [Gc [P _]]]]].
      cbn [fst snd] in Gc. congruence.
    + intros Hin. destruct (pos_owns2 _ _ PO _ Hin) as [_ [_ [c [Gc [P _]]]]].
      cbn [fst snd] in Gc. congruence.
  - intros P. destruct (pos_recorded _ _ PO col row coin Hc Hr G P) as [Hin | Hin].
    + left. split; [assumption |]. split; [now apply (pos_disjoint _ _ PO) |].
      destruct (pos_owns1 _ _ PO _ Hin) as [_ [_ [c [Gc [_ Cc]]]]].
      cbn [fst snd] in Gc. congruence.
    + right. split; [assumption |]. split.
      * intros Ha. now apply (pos_disjoint _ _ PO _ Ha).
      * destruct (pos_owns2 _ _ PO _ Hin) as [_ [_ [c [Gc [_ Cc]]]]].
        cbn [fst snd] in Gc. congruence.
Qed.

(** X13. In every state of a game the board keeps its representation invariants
    and the gravity invariant, its pixel ranges are those of the new board,
    and every coin is where [Board.__init__] put it. *)
Theorem game_keeps_gravity (fuel : nat) seats evs r :
  Player._moves (fst seats) = [] -> Player._moves (snd seats) = [] ->
  (game_bound <= fuel)%nat ->
  main fuel seats evs = Ret r ->
  let b := Connect4.board (Connect4.game (run_state r)) in
  board_wf b /\ gravity b /\
  Board.col_ranges b = Board.col_ranges Board.init /\
  forall col row coin, 0 <= col -> 0 <= row ->
    coin_of b col row = Some coin ->
    exists coin0, coin_of Board.init col row = Some coin0 /\
                  Coin.row coin = Coin.row coin0 /\
                  Coin.col coin = Coin.col coin0 /\
                  Coin.x_pos coin = Coin.x_pos coin0 /\
                  Coin.y_pos coin = Coin.y_pos coin0.
Proof.
  intros M1 M2 Hfuel E b.
  pose proof (run_position_ok seats r (main_run_ok fuel seats evs _ M1 M2 Hfuel E))
    as PO.
  split; [apply (pos_wf _ _ PO) |]. split; [apply (pos_gravity _ _ PO) |].
  split; [apply (pos_ranges _ _ PO) |].
  intros col row coin Hc Hr G.
  destruct (pos_centres _ _ PO col row coin Hc Hr G) as [coin0 [G0 [X Y]]].
  exists coin0. split; [assumption |].
  destruct (pos_wf _ _ PO) as [_ [_ [_ Fields]]].
  destruct (Fields col row coin Hc Hr G) as [F1 F2].
  destruct (init_coin_of col row coin0 Hc Hr G0) as [I1 [I2 _]].
  repeat split; congruence.
Qed.

(** X14. The representation invariants of [Player] hold in every state of a game:
    every list of a mapping has at most 8 entries without repetition, every
    tuple (key or entry) is a [(col, row)] of the board, and an entry of a
    key's list has the key in its own list. *)
Theorem trackers_keep_invariants (fuel : nat) seats evs r p k l :
  Player._moves (fst seats) = [] -> Player._moves (snd seats) = [] ->
  (game_bound <= fuel)%nat ->
  main fuel seats evs = Ret r ->
  p = fst (Connect4.players (Connect4.game (run_state r))) \/
  p = snd (Connect4.players (Connect4.game (run_state r))) ->
  dict_get (Player._moves p) k = Some l ->
  (length l <= 8)%nat /\ NoDup l /\ valid_cell k /\
  forall x, In x l ->
    valid_cell x /\ within1 k x = true /\ x <> k /\
    exists l', dict_get (Player._moves p) x = Some l' /\ In k l'.
Proof.
  intros M1 M2 Hfuel E Hp G.
  pose proof (run_position_ok seats r (main_run_ok fuel seats evs _ M1 M2 Hfuel E))
    as PO.
  assert (T : tracker_ok p /\
              owns (Connect4.board (Connect4.game (run_state r))) p).
  { destruct Hp as [-> | ->].
    - split; [apply (pos_tracker1 _ _ PO) | apply (pos_owns1 _ _ PO)].
    - split; [apply (pos_tracker2 _ _ PO) | apply (pos_owns2 _ _ PO)]. }
  destruct T as [[ND [X LD]] O].
  split; [now apply (tracker_list_bound (Player._moves p) k) |].
  split; [now apply (LD k) |].
  split.
  - destruct (O k (dict_get_In _ _ _ G)) as [B1 [B2 _]]. now split.
  - intros x Hx. apply (X k l G) in Hx. destruct Hx as [Kx [N W]].
    split; [| split; [assumption | split; [assumption |]]].
    + destruct (O x Kx) as [B1 [B2 _]]. now split.
    + destruct (dict_get_key _ _ Kx) as [l' G']. exists l'.
      split; [assumption |]. apply (X x l' G').
      split; [eapply dict_get_In; eassumption |]. split; [congruence |].
      now rewrite within1_sym.
Qed.

(** X15. A game ends with the tie message only when every cell of the board is
    occupied and [COLUMNS * ROWS] moves have been made. *)
Theorem tie_only_on_full_board (fuel : nat) seats evs st printed :
  Player._moves (fst seats) = [] -> Player._moves (snd seats) = [] ->
  (game_bound <= fuel)%nat ->
  main fuel seats evs
  = Ret (Connect4.Finished Connect4.tie_message st printed) ->
  board_full (Connect4.board (Connect4.game st)) /\
  Connect4.moves_made st = COLUMNS * ROWS /\
  count_placed (Connect4.board (Connect4.game st)) = COLUMNS * ROWS.
Proof.
  intros M1 M2 Hfuel E.
  destruct (main_run_ok fuel seats evs _ M1 M2 Hfuel E) as [PO End].
  destruct End as [C | [[_ [Full Moves]] | [W _]]].
  - symmetry in C. now apply closed_not_tie in C.
  - split; [assumption |]. split; [assumption |].
    now apply (board_full_count _ (pos_wf _ _ PO)).
  - symmetry in W. now apply wins_not_tie in W.
Qed.

(** X16. On a board of fewer than 53 cells no game ends with the message of a
    win: a game that is over was closed or is a tie. *)
Theorem small_board_never_won (fuel : nat) seats evs end_message st printed :
  COLUMNS * ROWS < 53 ->
  Player._moves (fst seats) = [] -> Player._moves (snd seats) = [] ->
  (game_bound <= fuel)%nat ->
  main fuel seats evs = Ret (Connect4.Finished end_message st printed) ->
  end_message = Connect4.closed_message \/
  end_message = Connect4.tie_message.
Proof.
  intros Small M1 M2 Hfuel E.
  destruct (main_run_ok fuel seats evs _ M1 M2 Hfuel E) as [_ End].
  destruct End as [C | [[T _] | [_ Big]]]; [now left | now right | lia].
Qed.

(** X17. Events other than a closed window and a released mouse button have no
    effect: a run is the same without them. *)
Theorem other_events_ignored (fuel : nat) evs st printed :
  Connect4.event_loop_from fuel (filter noticed evs) st printed
  = Connect4.event_loop_from fuel evs st printed.
Proof.
  revert st printed. induction evs as [| ev evs IH]; intros st printed;
    [reflexivity |].
  destruct ev as [| pos |]; cbn [filter noticed Connect4.event_loop_from].
  - reflexivity.
  - destruct (Connect4.loop_body fuel st (Connect4.MOUSEBUTTONUP pos))
      as [[st' out | msg st'] | e |]; cbn [bind]; auto.
  - cbn [Connect4.loop_body bind]. rewrite app_nil_r. apply IH.
Qed.

End Games.

(* ================================================================== *)
(** * What Board.place_coin never does *)

Section KeepsCoins.
Context {K : Constants}.

Lemma place_coin_refused (fuel : nat) b player pos b' player' :
  Board.place_coin fuel b player pos = Ret (None, b', player') ->
  b' = b /\ player' = player.
Proof.
  unfold Board.place_coin.
  destruct (while fuel (Board.column_cond b pos) _ 0) as [col | e |];
    cbn [bind]; try discriminate.
  destruct (col =? COLUMNS).
  - intros H. inversion H. auto.
  - destruct (py_index (Board.coins b) col) as [column | e |];
      cbn [bind]; try discriminate.
    destruct (py_index column (ROWS - 1)) as [coin | e |];
      cbn [bind]; try discriminate.
    destruct (while fuel Board.row_cond _ (ROWS - 1, coin)) as [s | e |];
      cbn [bind]; try discriminate.
    destruct (fst s =? -1); [| discriminate].
    intros H. inversion H. auto.
Qed.

(** X7. [Board.place_coin] never touches a coin that is already placed and
    never changes the pixel ranges.  When it returns no coin, the board and
    the player are untouched; when it returns a coin, the board has exactly
    one placed coin more, and the returned coin is the one now stored at its
    own row and column, placed, in the player's colour, and recorded by the
    player. *)
Theorem place_coin_keeps_placed_coins (fuel : nat) b player pos
    returned b' player' :
  board_wf b ->
  Board.place_coin fuel b player pos = Ret (returned, b', player') ->
  Board.col_ranges b' = Board.col_ranges b /\
  (forall col row c, 0 <= col -> 0 <= row ->
     coin_of b col row = Some c -> Coin.placed c = true ->
     coin_of b' col row = Some c) /\
  match returned with
  | None => b' = b /\ player' = player
  | Some coin =>
      count_placed b' = count_placed b + 1 /\
      coin_of b' (Coin.col coin) (Coin.row coin) = Some coin /\
      placed_at b (Coin.col coin) (Coin.row coin) = false /\
      Coin.placed coin = true /\
      Coin.colour coin = Player.colour player /\
      player' = Player.place_coin player coin /\
      In (Coin.cell coin) (recorded player')
  end.
Proof.
  intros WF E. destruct returned as [coin |].
  - destruct (place_coin_accepted fuel b player pos coin b' player' WF E)
      as [col [row [coin0 [Hc [Hr [G0 [Free [Ecoin [Eb Ep]]]]]]]]].
    assert (WF0 := WF). destruct WF as [_ [_ [_ Fields]]].
    destruct (Fields col row coin0) as [F1 F2]; [lia | lia | assumption |].
    assert (C1 : Coin.col coin = col) by (subst coin; exact F1).
    assert (C2 : Coin.row coin = row) by (subst coin; exact F2).
    assert (P : Coin.placed coin = true) by (subst coin; reflexivity).
    subst b'. split; [apply store_coin_ranges |]. split; [| repeat split].
    + intros col' row' c H1 H2 Gc Pc.
      rewrite store_coin_coin_of by assumption.
      destruct ((col' =? col) && (row' =? row)) eqn:T; [| assumption].
      apply andb_true_iff in T. destruct T as [T1 T2].
      apply Z.eqb_eq in T1, T2. subst col' row'. congruence.
    + now apply (count_placed_store b col row coin0).
    + rewrite C1, C2, store_coin_coin_of by (assumption || lia).
      now rewrite !Z.eqb_refl.
    + rewrite C1, C2. unfold placed_at. now rewrite G0.
    + assumption.
    + subst coin. reflexivity.
    + assumption.
    + subst player'. unfold recorded. cbn.
      apply record_move_keys_In. now right.
  - destruct (place_coin_refused fuel b player pos b' player' E) as [-> ->].
    repeat split; auto.
Qed.

End KeepsCoins.

(** A concrete run: a drop into column 2 of the new board of the module. *)
Lemma place_coin_keeps_placed_coins_witness :
  let A := Player.init "A" (255, 0, 0) in
  let b := Board.init (K := classic) in
  exists coin b' player',
    Board.place_coin (K := classic) 8 b A (310, 40)
    = Ret (Some coin, b', player') /\
    Board.col_ranges b' = Board.col_ranges b /\
    count_placed b' = count_placed b + 1 /\
    coin_of b' (Coin.col coin) (Coin.row coin) = Some coin /\
    Coin.cell coin = (2, 5) /\
    player' = Player.place_coin A coin.
Proof.
  intros A b.
  destruct (Board.place_coin (K := classic) 8 b A (310, 40))
    as [[[[coin |] b'] player'] | e |] eqn:E;
    try (vm_compute in E; discriminate E).
  assert (WF : board_wf (K := classic) b) by (apply init_wf; simpl; lia).
  destruct (place_coin_keeps_placed_coins (K := classic) 8 b A (310, 40)
              (Some coin) b' player' WF E)
    as [R [_ [C [G [_ [_ [_ [P _]]]]]]]].
  exists coin, b', player'. repeat split; try assumption.
  vm_compute in E. inversion E. reflexivity.
Defined.

(* ================================================================== *)
(** * The mapping after any number of placements *)

Lemma played_tracker_ok coins : forall p,
  tracker_ok p -> NoDup (map Coin.cell coins) ->
  (forall coin, In coin coins -> ~ In (Coin.cell coin) (recorded p)) ->
  tracker_ok (played p coins) /\
  recorded (played p coins) = recorded p ++ map Coin.cell coins.
Proof.
  unfold played. induction coins as [| coin coins IH]; intros p T ND Fresh.
  - cbn. now rewrite app_nil_r.
  - cbn [fold_left map]. inversion ND as [| ? ? Hnew ND']; subst.
    destruct (tracker_ok_place p coin T) as [T' E];
      [apply Fresh; now left |].
    destruct (IH (Player.place_coin p coin) T' ND') as [T'' E''].
    + intros c Hc. rewrite E, in_app_iff. intros [H | [H | []]].
      * apply (Fresh c); [now right | assumption].
      * apply Hnew. rewrite H. now apply in_map.
    + split; [assumption |]. rewrite E'', E, <- app_assoc. reflexivity.
Qed.

(** X8. After placements on distinct cells, in whatever order, the mapping of a
    player is the neighbour graph of the placed cells: its keys are the
    cells in the order of placement, and the list of a cell holds, once
    each, exactly the other placed cells at Chebyshev distance 1 (at most 8);
    the relation is symmetric. *)
Theorem played_is_neighbour_graph name colour coins :
  NoDup (map Coin.cell coins) ->
  let m := Player._moves (played (Player.init name colour) coins) in
  dict_keys m = map Coin.cell coins /\
  forall k, In k (map Coin.cell coins) ->
    exists l, dict_get m k = Some l /\ NoDup l /\ (length l <= 8)%nat /\
      (forall x, In x l <->
         In x (map Coin.cell coins) /\ x <> k /\ within1 k x = true) /\
      (forall x l', In x l -> dict_get m x = Some l' -> In k l').
Proof.
  intros ND m.
  destruct (played_tracker_ok coins (Player.init name colour)
              (tracker_ok_new name colour) ND) as [[NDk [X LD]] Keys].
  { intros coin _ []. }
  unfold recorded in Keys. cbn in Keys. fold m in Keys, X, LD.
  split; [exact Keys |]. intros k Hk. rewrite <- Keys in Hk.
  destruct (dict_get_key _ _ Hk) as [l G]. exists l.
  split; [assumption |]. split; [now apply (LD k) |].
  split; [now apply (tracker_list_bound m k) |]. split.
  - intros x. rewrite <- Keys. apply (X k l G).
  - intros x l' Hx G'. apply (X x l' G'). apply (X k l G) in Hx.
    destruct Hx as [_ [N W]]. split; [assumption |].
    split; [congruence | now rewrite within1_sym].
Qed.

(** A concrete run: an L of three cells and a cell far away. *)
Lemma played_is_neighbour_graph_witness :
  let m := Player._moves
             (played (Player.init "A" (255, 0, 0))
                     (map coin_at [(0, 5); (1, 5); (0, 4); (6, 5)])) in
  dict_keys m = [(0, 5); (1, 5); (0, 4); (6, 5)] /\
  exists l, dict_get m (0, 4) = Some l /\ NoDup l /\ (length l <= 8)%nat /\
    (forall x, In x l <->
       In x [(0, 5); (1, 5); (0, 4); (6, 5)] /\ x <> (0, 4)
       /\ within1 (0, 4) x = true) /\
    (forall x l', In x l -> dict_get m x = Some l' -> In (0, 4) l').
Proof.
  intros m.
  destruct (played_is_neighbour_graph "A" (255, 0, 0)
              (map coin_at [(0, 5); (1, 5); (0, 4); (6, 5)]))
    as [Keys Lists]; [apply distinctb_NoDup; reflexivity |].
  split; [exact Keys |]. apply (Lists (0, 4)). simpl. auto.
Defined.

(* ================================================================== *)
(** * Concrete games for the properties of every game *)

Lemma game_never_crashes_witness :
  exists r,
    main (K := classic) 50
      (Player.init "A" (255, 0, 0), Player.init "B" (255, 255, 0))
      [click (K := classic) 0; Connect4.MOUSEBUTTONUP (-7, 9000);
       Connect4.OTHER; click (K := classic) 0; click (K := classic) 99]
    = Ret r.
Proof.
  apply (game_never_crashes (K := classic) 50).
  - reflexivity.
  - reflexivity.
  - reflexivity.
  - vm_compute. lia.
Defined.

Lemma moves_made_counts_coins_witness :
  exists st printed,
    main (K := classic) 50
      (Player.init "A" (255, 0, 0), Player.init "B" (255, 255, 0))
      (map (click (K := classic)) [0; 6; 1])
    = Ret (Connect4.Polling st printed) /\
    count_placed (Connect4.board (Connect4.game st))
    = Connect4.moves_made st /\
    0 <= Connect4.moves_made st < COLUMNS (Constants := classic)
                                  * ROWS (Constants := classic) /\
    ~ board_full (K := classic) (Connect4.board (Connect4.game st)).
Proof.
  destruct (main (K := classic) 50
              (Player.init "A" (255, 0, 0), Player.init "B" (255, 255, 0))
              (map (click (K := classic)) [0; 6; 1]))
    as [[st printed | msg st printed] | e |] eqn:M;
    try (vm_compute in M; discriminate M).
  exists st, printed. split; [reflexivity |].
  apply (moves_made_counts_coins (K := classic) 50 _ _ st printed) in M;
    [exact M | reflexivity | reflexivity | vm_compute; lia].
Defined.

Lemma players_alternate_witness :
  exists st printed,
    main (K := classic) 50
      (Player.init "A" (255, 0, 0), Player.init "B" (255, 255, 0))
      (map (click (K := classic)) [0; 6; 1])
    = Ret (Connect4.Polling st printed) /\
    Connect4.cur_player st = Z.odd (Connect4.moves_made st) /\
    Z.of_nat (length (recorded (fst (Connect4.players (Connect4.game st)))))
    = (Connect4.moves_made st + 1) / 2 /\
    Z.of_nat (length (recorded (snd (Connect4.players (Connect4.game st)))))
    = Connect4.moves_made st / 2.
Proof.
  destruct (main (K := classic) 50
              (Player.init "A" (255, 0, 0), Player.init "B" (255, 255, 0))
              (map (click (K := classic)) [0; 6; 1]))
    as [[st printed | msg st printed] | e |] eqn:M;
    try (vm_compute in M; discriminate M).
  exists st, printed. split; [reflexivity |].
  apply (players_alternate (K := classic) 50 _ _ st printed) in M;
    [exact M | reflexivity | reflexivity | vm_compute; lia].
Defined.

Lemma coins_show_their_owner_witness :
  let seats := (Player.init "A" (255, 0, 0), Player.init "B" (255, 255, 0)) in
  exists r coin,
    main (K := classic) 50 seats (map (click (K := classic)) [0; 6; 1])
    = Ret r /\
    coin_of (Connect4.board (Connect4.game (run_state r))) 6 5 = Some coin /\
    Coin.placed coin = true /\
    In (6, 5) (recorded (snd (Connect4.players (Connect4.game (run_state r)))))
    /\ ~ In (6, 5)
         (recorded (fst (Connect4.players (Connect4.game (run_state r)))))
    /\ Coin.colour coin = (255, 255, 0).
Proof.
  intros seats.
  destruct (main (K := classic) 50 seats (map (click (K := classic)) [0; 6; 1]))
    as [r | e |] eqn:M; try (vm_compute in M; discriminate M).
  destruct (coin_of (Connect4.board (Connect4.game (run_state r))) 6 5)
    as [coin |] eqn:G;
    [| vm_compute in M; inversion M; subst r; vm_compute in G; discriminate G].
  assert (P : Coin.placed coin = true)
    by (vm_compute in M; inversion M; subst r; vm_compute in G;
        inversion G; reflexivity).
  destruct (coins_show_their_owner (K := classic) 50 seats _ r 6 5 coin
              eq_refl eq_refl ltac:(vm_compute; lia) M ltac:(lia) ltac:(lia) G)
    as [_ Placed].
  exists r, coin. split; [reflexivity |]. split; [exact G |].
  split; [exact P |].
  destruct (Placed P) as [[H1 [H2 H3]] | [H1 [H2 H3]]].
  - exfalso. vm_compute in M. inversion M; subst r.
    apply contains_In in H1. vm_compute in H1. discriminate H1.
  - auto.
Defined.

Lemma game_keeps_gravity_witness :
  exists r,
    main (K := classic) 50
      (Player.init "A" (255, 0, 0), Player.init "B" (255, 255, 0))
      (map (click (K := classic)) [3; 3; 3; 2])
    = Ret r /\
    board_wf (K := classic) (Connect4.board (Connect4.game (run_state r))) /\
    gravity (K := classic) (Connect4.board (Connect4.game (run_state r))).
Proof.
  destruct (main (K := classic) 50
              (Player.init "A" (255, 0, 0), Player.init "B" (255, 255, 0))
              (map (click (K := classic)) [3; 3; 3; 2]))
    as [r | e |] eqn:M; try (vm_compute in M; discriminate M).
  exists r. split; [reflexivity |].
  destruct (game_keeps_gravity (K := classic) 50
              (Player.init "A" (255, 0, 0), Player.init "B" (255, 255, 0)) _ r
              eq_refl eq_refl ltac:(vm_compute; lia) M) as [WF [G _]].
  split; assumption.
Defined.

Lemma trackers_keep_invariants_witness :
  exists r l,
    main (K := classic) 50
      (Player.init "A" (255, 0, 0), Player.init "B" (255, 255, 0))
      (map (click (K := classic)) [0; 6; 1; 6; 0])
    = Ret r /\
    dict_get
      (Player._moves (fst (Connect4.players (Connect4.game (run_state r)))))
      (0, 5) = Some l /\
    (length l <= 8)%nat /\ NoDup l /\ valid_cell (K := classic) (0, 5).
Proof.
  destruct (main (K := classic) 50
              (Player.init "A" (255, 0, 0), Player.init "B" (255, 255, 0))
              (map (click (K := classic)) [0; 6; 1; 6; 0]))
    as [r | e |] eqn:M; try (vm_compute in M; discriminate M).
  destruct (dict_get
              (Player._moves
                 (fst (Connect4.players (Connect4.game (run_state r)))))
              (0, 5)) as [l |] eqn:G;
    [| vm_compute in M; inversion M; subst r; vm_compute in G; discriminate G].
  destruct (trackers_keep_invariants (K := classic) 50
              (Player.init "A" (255, 0, 0), Player.init "B" (255, 255, 0)) _ r _ (0, 5) l
              eq_refl eq_refl ltac:(vm_compute; lia) M
              (or_introl eq_refl) G) as [L [ND [V _]]].
  exists r, l. repeat split; try assumption; apply V.
Defined.

Lemma tie_only_on_full_board_witness :
  exists st printed,
    main (K := classic) 50
      (Player.init "A" (255, 0, 0), Player.init "B" (255, 255, 0))
      (column_by_column (K := classic))
    = Ret (Connect4.Finished Connect4.tie_message st printed) /\
    board_full (K := classic) (Connect4.board (Connect4.game st)) /\
    Connect4.moves_made st = 42.
Proof.
  destruct (main (K := classic) 50
              (Player.init "A" (255, 0, 0), Player.init "B" (255, 255, 0))
              (column_by_column (K := classic)))
    as [[st printed | msg st printed] | e |] eqn:M;
    try (vm_compute in M; discriminate M).
  assert (msg = Connect4.tie_message)
    by (vm_compute in M; inversion M; reflexivity).
  subst msg. exists st, printed. split; [reflexivity |].
  destruct (tie_only_on_full_board (K := classic) 50
              (Player.init "A" (255, 0, 0), Player.init "B" (255, 255, 0)) _ st printed
              eq_refl eq_refl ltac:(vm_compute; lia) M) as [F [Mv _]].
  split; assumption.
Defined.

Lemma small_board_never_won_witness :
  exists end_message st printed,
    main (K := classic) 50
      (Player.init "A" (255, 0, 0), Player.init "B" (255, 255, 0))
      (map (click (K := classic)) [0; 6; 1; 6; 2; 6; 3] ++ [Connect4.QUIT])
    = Ret (Connect4.Finished end_message st printed) /\
    (end_message = Connect4.closed_message \/
     end_message = Connect4.tie_message).
Proof.
  destruct (main (K := classic) 50
              (Player.init "A" (255, 0, 0), Player.init "B" (255, 255, 0))
              (map (click (K := classic)) [0; 6; 1; 6; 2; 6; 3]
               ++ [Connect4.QUIT]))
    as [[st printed | msg st printed] | e |] eqn:M;
    try (vm_compute in M; discriminate M).
  exists msg, st, printed. split; [reflexivity |].
  apply (small_board_never_won (K := classic) 50 _ _ msg st printed) in M;
    [exact M | vm_compute; reflexivity | reflexivity | reflexivity
    | vm_compute; lia].
Defined.

(* ================================================================== *)
(** * What play draws *)

Lemma last_circle_app ds1 ds2 centre :
  last_circle (ds1 ++ ds2) centre =
  match last_circle ds2 centre with
  | Some c => Some c
  | None => last_circle ds1 centre
  end.
Proof.
  induction ds1 as [| d ds1 IH]; cbn [app last_circle].
  - now destruct (last_circle ds2 centre).
  - rewrite IH. now destruct (last_circle ds2 centre).
Qed.

Lemma count_circles_app ds1 ds2 :
  count_circles (ds1 ++ ds2) = count_circles ds1 + count_circles ds2.
Proof. unfold count_circles. rewrite filter_app, length_app. lia. Qed.

Section Drawing.
Context {K : Constants}.

Lemma last_circle_Some (cs : list Coin.t) centre v :
  last_circle (map coin_circle cs) centre = Some v ->
  exists c, In c cs /\ (Coin.x_pos c, Coin.y_pos c) = centre /\
            Coin.colour c = v.
Proof.
  induction cs as [| c cs IH]; cbn [map last_circle]; [discriminate |].
  destruct (last_circle (map coin_circle cs) centre) as [v' |] eqn:L.
  - intros H. inversion H; subst v'. destruct (IH eq_refl) as [c' [H1 H2]].
    exists c'. split; [now right | assumption].
  - unfold coin_circle.
    destruct (coord_eqb (Coin.x_pos c, Coin.y_pos c) centre) eqn:Q;
      [| discriminate].
    intros H. inversion H. apply coord_eqb_eq in Q.
    exists c. split; [now left | split; [assumption | reflexivity]].
Qed.

Lemma last_circle_found (cs : list Coin.t) c :
  In c cs ->
  last_circle (map coin_circle cs) (Coin.x_pos c, Coin.y_pos c) <> None.
Proof.
  induction cs as [| c0 cs IH]; [contradiction |].
  cbn [map last_circle]. intros [-> | Hin].
  - destruct (last_circle (map coin_circle cs) _); [discriminate |].
    unfold coin_circle. now rewrite coord_eqb_refl.
  - specialize (IH Hin).
    destruct (last_circle (map coin_circle cs) _); [discriminate | congruence].
Qed.

Lemma last_circle_uniform (cs : list Coin.t) g coin :
  (forall c, In c cs -> Coin.colour c = g) -> In coin cs ->
  last_circle (map coin_circle cs) (Coin.x_pos coin, Coin.y_pos coin)
  = Some g.
Proof.
  intros All Hin. pose proof (last_circle_found cs coin Hin) as F.
  destruct (last_circle (map coin_circle cs) _) as [v |] eqn:L;
    [| congruence].
  apply last_circle_Some in L. destruct L as [c [Hc [_ <-]]].
  f_equal. now apply All.
Qed.

Lemma update_board_all_flat (self : Connect4.t) size :
  _update_board self None size =
  DrawRect BLACK (0, 0, fst size, snd size)
  :: map coin_circle (concat (Board.coins (Connect4.board self)))
  ++ [DisplayFlip].
Proof.
  unfold _update_board. cbn [app]. f_equal. f_equal.
  rewrite flat_map_concat_map, concat_map. reflexivity.
Qed.

Lemma coin_of_In b col row coin :
  coin_of b col row = Some coin -> In coin (concat (Board.coins b)).
Proof.
  unfold coin_of.
  destruct (nth_error (Board.coins b) (Z.to_nat col)) as [column |] eqn:G;
    [| discriminate].
  intros H. apply in_concat. exists column.
  split; eapply nth_error_In; eassumption.
Qed.

Lemma In_coin_of b coin :
  In coin (concat (Board.coins b)) ->
  exists col row, 0 <= col /\ 0 <= row /\ coin_of b col row = Some coin.
Proof.
  intros H. apply in_concat in H. destruct H as [column [Hc Hin]].
  apply In_nth_error in Hc, Hin.
  destruct Hc as [i Hi], Hin as [j Hj].
  exists (Z.of_nat i), (Z.of_nat j). split; [lia |]. split; [lia |].
  unfold coin_of. now rewrite !Nat2Z.id, Hi.
Qed.

Lemma count_circles_coins (cs : list Coin.t) :
  count_circles (map coin_circle cs) = Z.of_nat (length cs).
Proof.
  unfold count_circles. f_equal. induction cs as [| c cs IH]; [reflexivity |].
  cbn [map filter coin_circle is_circle length]. now rewrite IH.
Qed.

Lemma wf_cells b :
  board_wf b -> Z.of_nat (length (concat (Board.coins b))) = COLUMNS * ROWS.
Proof.
  intros [L [_ [Rows _]]]. rewrite length_concat.
  destruct (Board.coins b) as [| column rest] eqn:Ec.
  - simpl in *. lia.
  - assert (HR : Z.of_nat (length column) = ROWS)
      by (apply Rows; now left).
    destruct (list_sum_map_le (@length Coin.t) (Z.to_nat ROWS)
                (column :: rest)) as [_ Iff].
    + intros c Hin. specialize (Rows c Hin). lia.
    + rewrite (proj2 Iff).
      * nia.
      * intros c Hin. specialize (Rows c Hin). lia.
Qed.

(** The first drawing shows the new board. *)
Lemma initial_shows seats size :
  0 <= ROWS -> 0 <= COLUMNS ->
  shows (_update_board (Connect4.init Board.init seats) None size) Board.init
  /\ count_circles (_update_board (Connect4.init Board.init seats) None size)
     = COLUMNS * ROWS.
Proof.
  intros HR HC. rewrite update_board_all_flat.
  cbn [Connect4.init Connect4.board]. split.
  - intros col row coin Hc Hr G.
    change (DrawRect BLACK (0, 0, fst size, snd size)
            :: map coin_circle (concat (Board.coins Board.init))
            ++ [DisplayFlip])
      with ([DrawRect BLACK (0, 0, fst size, snd size)]
            ++ map coin_circle (concat (Board.coins Board.init))
            ++ [DisplayFlip]).
    rewrite !last_circle_app. cbn [last_circle].
    rewrite (last_circle_uniform _ GRAY coin).
    + f_equal. symmetry. now apply (init_coin_gray col row).
    + intros c Hin. apply In_coin_of in Hin.
      destruct Hin as [c1 [r1 [H1 [H2 G1]]]]. now apply (init_coin_gray c1 r1).
    + eapply coin_of_In; eassumption.
  - change (DrawRect BLACK (0, 0, fst size, snd size)
            :: map coin_circle (concat (Board.coins Board.init))
            ++ [DisplayFlip])
      with ([DrawRect BLACK (0, 0, fst size, snd size)]
            ++ map coin_circle (concat (Board.coins Board.init))
            ++ [DisplayFlip]).
    rewrite !count_circles_app, count_circles_coins.
    rewrite (wf_cells Board.init (init_wf HR HC)).
    unfold count_circles. cbn [filter is_circle length]. lia.
Qed.

Lemma init_coin_centre col row coin :
  0 <= col -> 0 <= row -> coin_of Board.init col row = Some coin ->
  Coin.x_pos coin = (col + 1) * ((COIN_RADIUS + 1) * 2)
                    + (COIN_RADIUS + 1) * 2 / 2 /\
  Coin.y_pos coin = (row + 1) * ((COIN_RADIUS + 1) * 2)
                    + (COIN_RADIUS + 1) * 2 / 2.
Proof.
  intros Hc Hr. unfold coin_of, Board.init. cbn [Board.coins].
  rewrite nth_error_map, nth_error_py_range.
  destruct (_ <? _)%nat; [| discriminate]. cbn [option_map].
  rewrite nth_error_map, nth_error_py_range.
  destruct (_ <? _)%nat; [| discriminate]. cbn [option_map].
  intros E. inversion E; subst coin. cbn [Coin.init Coin.x_pos Coin.y_pos].
  rewrite !Z2Nat.id by lia. split; reflexivity.
Qed.

(** Coins of different cells have different centres. *)
Lemma centres_distinct seats g col row coin col' row' coin' :
  0 < COIN_RADIUS -> position_ok seats g ->
  0 <= col -> 0 <= row -> 0 <= col' -> 0 <= row' ->
  coin_of (Connect4.board g) col row = Some coin ->
  coin_of (Connect4.board g) col' row' = Some coin' ->
  (Coin.x_pos coin, Coin.y_pos coin) = (Coin.x_pos coin', Coin.y_pos coin') ->
  col = col' /\ row = row'.
Proof.
  intros HRad PO Hc Hr Hc' Hr' G G' E. inversion E as [[Ex Ey]].
  destruct (pos_centres _ _ PO col row coin Hc Hr G) as [c0 [G0 [X Y]]].
  destruct (pos_centres _ _ PO col' row' coin' Hc' Hr' G') as [c0' [G0' [X' Y']]].
  destruct (init_coin_centre col row c0 Hc Hr G0) as [I1 I2].
  destruct (init_coin_centre col' row' c0' Hc' Hr' G0') as [I1' I2'].
  split; nia.
Qed.

End Drawing.

Section DrawingGames.
Context {K : Constants}.

Lemma loop_body_refused (fuel : nat) st pos :
  Board.place_coin fuel (Connect4.board (Connect4.game st))
    (Connect4.current (Connect4.game st) (Connect4.cur_player st)) pos
  = Ret (None, Connect4.board (Connect4.game st),
         Connect4.current (Connect4.game st) (Connect4.cur_player st)) ->
  Connect4.loop_body fuel st (Connect4.MOUSEBUTTONUP pos)
  = Ret (Connect4.Continue st [Connect4.invalid_column_message]).
Proof. intros E. unfold Connect4.loop_body. now rewrite E. Qed.

Lemma loop_body_click_game (fuel : nat) st pos coin b' player' r :
  Board.place_coin fuel (Connect4.board (Connect4.game st))
    (Connect4.current (Connect4.game st) (Connect4.cur_player st)) pos
  = Ret (Some coin, b', player') ->
  Connect4.loop_body fuel st (Connect4.MOUSEBUTTONUP pos) = Ret r ->
  Connect4.game (step_state r) =
  Connect4.mk b' (Connect4.store_player (Connect4.players (Connect4.game st))
                    (Connect4.cur_player st) player').
Proof.
  intros E. unfold Connect4.loop_body. rewrite E. cbn [bind].
  destruct (Player.has_win fuel player' coin) as [[|] | e |]; cbn [bind];
    try discriminate.
  - intros H. inversion H. reflexivity.
  - destruct (_ =? _); intros H; inversion H; reflexivity.
Qed.

Lemma shows_drop seats (g : Connect4.t) (colour : rgb) col h coin0 ds :
  0 < COIN_RADIUS -> position_ok seats g ->
  0 <= col < COLUMNS -> 0 <= h < ROWS ->
  coin_of (Connect4.board g) col (ROWS - 1 - h) = Some coin0 ->
  shows ds (Connect4.board g) ->
  shows (ds ++ [coin_circle (Coin.place coin0 colour); DisplayFlip])
        (Board.store_coin (Connect4.board g) col (ROWS - 1 - h)
           (Coin.place coin0 colour)).
Proof.
  intros HRad PO Hc Hh G0 S col' row' c H1 H2 Gc.
  rewrite store_coin_coin_of in Gc by (auto; try apply PO; lia).
  rewrite last_circle_app. cbn [last_circle coin_circle].
  cbn [Coin.place Coin.x_pos Coin.y_pos Coin.colour].
  destruct ((col' =? col) && (row' =? ROWS - 1 - h)) eqn:T.
  - inversion Gc; subst c. cbn [Coin.place Coin.x_pos Coin.y_pos Coin.colour].
    now rewrite coord_eqb_refl.
  - destruct (coord_eqb (Coin.x_pos coin0, Coin.y_pos coin0)
                        (Coin.x_pos c, Coin.y_pos c)) eqn:Q.
    + apply coord_eqb_eq in Q.
      assert (Same : col = col' /\ ROWS - 1 - h = row').
      { apply (centres_distinct seats g col (ROWS - 1 - h) coin0 col' row' c);
          auto; lia. }
      destruct Same as [E1 E2]. subst col' row'.
      now rewrite !Z.eqb_refl in T.
    + now apply (S col' row').
Qed.

Lemma loop_shows seats (fuel : nat) size n0 evs : forall st printed prefix r,
  0 < COIN_RADIUS -> 0 < ROWS -> 0 < COLUMNS -> (game_bound <= fuel)%nat ->
  polling_ok seats st ->
  shows prefix (Connect4.board (Connect4.game st)) ->
  count_circles prefix
  = n0 + count_placed (Connect4.board (Connect4.game st)) ->
  Connect4.event_loop_from fuel evs st printed = Ret r ->
  shows (prefix ++ loop_draws fuel evs st size)
        (Connect4.board (Connect4.game (run_state r))) /\
  count_circles (prefix ++ loop_draws fuel evs st size)
  = n0 + count_placed (Connect4.board (Connect4.game (run_state r))).
Proof.
  induction evs as [| ev evs IH];
    intros st printed prefix r HRad HR HC Hfuel P S C.
  - cbn. intros H. inversion H; subst r. cbn. now rewrite app_nil_r.
  - cbn [Connect4.event_loop_from loop_draws].
    destruct (step_ok seats fuel st ev HR HC Hfuel P) as [rs [E R]].
    rewrite E. cbn [bind].
    assert (Draws :
      (step_draws fuel st ev size = [] /\
       Connect4.game (step_state rs) = Connect4.game st) \/
      (shows (prefix ++ step_draws fuel st ev size)
             (Connect4.board (Connect4.game (step_state rs))) /\
       count_circles (prefix ++ step_draws fuel st ev size)
       = n0 + count_placed (Connect4.board (Connect4.game (step_state rs))))).
    { destruct ev as [| pos |].
      - left. cbn in E. inversion E. auto.
      - destruct P as [PO _].
        pose proof (scan_bound_game_bound HR HC) as SB.
        destruct (place_coin_cases fuel _
                    (Connect4.current (Connect4.game st)
                                      (Connect4.cur_player st))
                    pos HR (pos_wf _ _ PO) (pos_gravity _ _ PO)
                    ltac:(lia))
          as [Ec | [col [h [coin0 [Sel [H [Lt [G0 [Free Ec]]]]]]]]].
        + left. rewrite (loop_body_refused fuel st pos Ec) in E.
          inversion E. split; [| reflexivity].
          unfold step_draws. now rewrite Ec.
        + right. rewrite (loop_body_click_game fuel st pos _ _ _ rs Ec E).
          unfold step_draws. rewrite Ec. unfold _update_board.
          cbn [Connect4.board app].
          assert (Hh : 0 <= h < ROWS) by (destruct H; lia). split.
          * apply (shows_drop seats); auto. apply Sel.
          * rewrite count_circles_app, C.
            rewrite (drop_count _ (Connect4.current (Connect4.game st)
                                     (Connect4.cur_player st))
                       col h coin0 (pos_wf _ _ PO) (proj1 Sel) Hh G0 Free).
            unfold count_circles. cbn [filter is_circle coin_circle length].
            lia.
      - left. cbn in E. inversion E. auto. }
    destruct rs as [st' out | msg st']; cbn [step_state] in Draws.
    + intros Run.
      destruct Draws as [[D G] | [S' C']].
      * rewrite D. cbn [app]. apply (IH st' (printed ++ out) prefix r); auto.
        -- now rewrite G.
        -- now rewrite G.
      * rewrite app_assoc.
        apply (IH st' (printed ++ out) _ r); auto.
    + intros Run. inversion Run; subst r. cbn [run_state].
      rewrite app_nil_r.
      destruct Draws as [[D G] | [S' C']].
      * rewrite D, app_nil_r, G. auto.
      * auto.
Qed.

(** X18. What [play] has drawn shows the board: in every state of a game, the
    last circle drawn at the centre of each coin has the colour the coin has
    now, and the number of circles drawn is one per cell for the first
    drawing plus one per placed coin. *)
Theorem play_shows_the_board (fuel : nat) seats evs size r :
  Player._moves (fst seats) = [] -> Player._moves (snd seats) = [] ->
  (game_bound <= fuel)%nat ->
  main fuel seats evs = Ret r ->
  let ds := play_draws fuel (Connect4.init Board.init seats) evs size in
  shows ds (Connect4.board (Connect4.game (run_state r))) /\
  count_circles ds
  = COLUMNS * ROWS
    + count_placed (Connect4.board (Connect4.game (run_state r))).
Proof.
  intros M1 M2 Hfuel E ds.
  pose proof (main_returns_checked _ _ _ _ E) as Chk.
  unfold main in E. rewrite Chk in E. cbn [bind] in E.
  apply check_values_passes in Chk. destruct Chk as [HRad [HR HC]].
  unfold Connect4.play, Connect4._event_loop in E.
  destruct (initial_shows seats size) as [S0 C0]; [lia | lia |].
  subst ds. unfold play_draws.
  apply (loop_shows seats fuel size (COLUMNS * ROWS) evs _ [] _ r); auto.
  - now apply initial_polling_ok.
  - cbn [Connect4.init Connect4.game Connect4.board].
    rewrite C0, init_count_placed. lia.
Qed.

End DrawingGames.

(** A concrete game: after three clicks, 42 + 3 circles have been drawn and
    the last circle at the centre of the coin of column 6, row 5, is
    yellow. *)
Lemma play_shows_the_board_witness :
  let seats := (Player.init "A" (255, 0, 0), Player.init "B" (255, 255, 0)) in
  let ds := play_draws (K := classic) 50
              (Connect4.init (Board.init (K := classic)) seats)
              (map (click (K := classic)) [0; 6; 1]) (816, 714) in
  exists r,
    main (K := classic) 50 seats (map (click (K := classic)) [0; 6; 1])
    = Ret r /\
    shows ds (Connect4.board (Connect4.game (run_state r))) /\
    count_circles ds = 45 /\
    last_circle ds (765, 663) = Some (255, 255, 0).
Proof.
  intros seats ds.
  destruct (main (K := classic) 50 seats (map (click (K := classic)) [0; 6; 1]))
    as [r | e |] eqn:M; try (vm_compute in M; discriminate M).
  destruct (play_shows_the_board (K := classic) 50 seats _ (816, 714) r
              eq_refl eq_refl ltac:(vm_compute; lia) M) as [S C].
  exists r. split; [reflexivity |]. split; [exact S |].
  split; reflexivity.
Defined.
